(** * HeapPage: a slotted page of variable-length records

    Shallow embedding of [heappage.h], [heappage.cpp] and
    [heappagescanner.cpp], and the properties of the page that follow from
    the code.

    The source overlays two typed views on the first bytes of the page
    buffer: [_getPageHeader] casts the start of [data] to a
    [HeapPageHeader], and [_getSlotDirectory] casts the bytes that follow it
    to an array of [SlotInfo].  The embedding keeps the three parts side by
    side: the header as a record, the slot directory as the list of all
    entries that physically fit behind the header, and [data] as the bytes of
    the buffer.  The code reaches the bytes below [free_space_begin] only
    through the two views; [write_ranges_in_free_space] shows that the byte
    copies of the code ([memcpy], [memmove]) never land there.

    Unsigned 32-bit fields are integers in [Z]; every assignment of an
    arithmetic result to such a field is wrapped with [wrap32].  A method is
    a function from the page to an [Outcome]: the value returned or the
    exception thrown, with the page as the call leaves it. *)

From Stdlib Require Import ZArith Lia Strings.Byte.
From stdpp Require Import base tactics option list.

Local Open Scope Z_scope.

(** ** Machine integers *)

Definition wrap32 (x : Z) : Z := x mod 2 ^ 32.

(** [sizeof(SlotInfo)]: two [uint32_t] fields. *)
Definition sizeof_SlotInfo : Z := 8.

(** ** Data model *)

Module SlotInfo.
Record t := mk { offset : Z; length : Z }.
End SlotInfo.

#[global] Instance SlotInfo_inhabited : Inhabited SlotInfo.t :=
  populate (SlotInfo.mk 0 0).

Record HeapPageHeader := mkHeader {
  prev_page : Z;
  next_page : Z;
  free_space_begin : Z;
  free_space_end : Z;
  size : Z;
  capacity : Z
}.

Record HeapPage := mkPage {
  header : HeapPageHeader;
  slot_directory : list SlotInfo.t;
  data : list byte
}.

(** Modelled from the spec: class [Data] ([data.h] is not among the sources).
    A byte buffer of fixed capacity with the count of its valid bytes; the
    record passed to insert and update is the first [getSize] bytes. *)
Record Data := mkData { getData : list byte; getSize : Z }.

Definition getCapacity (d : Data) : Z := Z.of_nat (length (getData d)).
Definition setSize (n : Z) (d : Data) : Data := mkData (getData d) n.
Definition record_bytes (d : Data) : list byte :=
  take (Z.to_nat (getSize d)) (getData d).

(** A [Data] as the class keeps it: the size is within the capacity. *)
Definition Data_ok (d : Data) : Prop := 0 <= getSize d <= getCapacity d.

Inductive Exn :=
| EmptyDataHeapPage
| InsufficientSpaceHeapPage
| InvalidSlotIdHeapPage (slot_id : Z)
| InvalidSizeData.

(** ** Field assignments through the header pointer *)

Definition set_prev_page (v : Z) (h : HeapPageHeader) : HeapPageHeader :=
  mkHeader v (next_page h) (free_space_begin h) (free_space_end h) (size h) (capacity h).
Definition set_next_page (v : Z) (h : HeapPageHeader) : HeapPageHeader :=
  mkHeader (prev_page h) v (free_space_begin h) (free_space_end h) (size h) (capacity h).
Definition set_free_space_begin (v : Z) (h : HeapPageHeader) : HeapPageHeader :=
  mkHeader (prev_page h) (next_page h) v (free_space_end h) (size h) (capacity h).
Definition set_free_space_end (v : Z) (h : HeapPageHeader) : HeapPageHeader :=
  mkHeader (prev_page h) (next_page h) (free_space_begin h) v (size h) (capacity h).
Definition set_size (v : Z) (h : HeapPageHeader) : HeapPageHeader :=
  mkHeader (prev_page h) (next_page h) (free_space_begin h) (free_space_end h) v (capacity h).
Definition set_capacity (v : Z) (h : HeapPageHeader) : HeapPageHeader :=
  mkHeader (prev_page h) (next_page h) (free_space_begin h) (free_space_end h) (size h) v.

(** ** Calls that return or throw, on a page that they may change *)

Inductive Outcome (A : Type) :=
| Return (a : A) (p : HeapPage)
| Throw (e : Exn) (p : HeapPage).
Arguments Return {A} a p.
Arguments Throw {A} e p.

Definition M (A : Type) : Type := HeapPage -> Outcome A.

Definition ret {A} (a : A) : M A := fun p => Return a p.
Definition throw {A} (e : Exn) : M A := fun p => Throw e p.
Definition bind {A B} (c : M A) (k : A -> M B) : M B :=
  fun p => match c p with
           | Return a p' => k a p'
           | Throw e p' => Throw e p'
           end.

Notation "'let*' x ':=' c 'in' k" := (bind c (fun x => k))
  (at level 10, x name, c at level 200, k at level 200).
Notation "c 'then*' k" := (bind c (fun _ => k))
  (at level 100, k at level 200, right associativity).

(** The same result on another page. *)
Definition on_page {A} (o : Outcome A) (p' : HeapPage) : Outcome A :=
  match o with Return a _ => Return a p' | Throw e _ => Throw e p' end.

(** The page a call leaves behind, whether it returned or threw. *)
Definition page_after {A} (o : Outcome A) : HeapPage :=
  match o with Return _ p => p | Throw _ p => p end.

Definition modify_header (f : HeapPageHeader -> HeapPageHeader) : M unit :=
  fun p => Return tt (mkPage (f (header p)) (slot_directory p) (data p)).

(** [slot_directory[i]] read and written in place.  Outside the list, where
    the C++ would leave the buffer, a read gives the default entry and a write
    changes nothing; [core_capacity] shows that the entries below [capacity]
    are inside. *)
Definition slot_at (p : HeapPage) (i : Z) : SlotInfo.t :=
  slot_directory p !!! Z.to_nat i.

Definition write_slot (i : Z) (s : SlotInfo.t) : M unit :=
  fun p => Return tt (mkPage (header p) (<[Z.to_nat i := s]> (slot_directory p)) (data p)).

(** [memcpy(data + dst, src, n)] with [src] a list of exactly [n] bytes, and
    [memmove(data + dst, data + src, n)] inside the buffer.  Bytes that would
    go past the end of the buffer are dropped. *)
Definition memcpy (dst : Z) (src : list byte) : M unit :=
  fun p => Return tt (mkPage (header p) (slot_directory p)
                        (list_inserts (Z.to_nat dst) src (data p))).

Definition memmove (dst src n : Z) : M unit :=
  fun p => Return tt (mkPage (header p) (slot_directory p)
                        (list_inserts (Z.to_nat dst)
                           (take (Z.to_nat n) (drop (Z.to_nat src) (data p)))
                           (data p))).

Section HeapPage.

(** Constants of [swatdb_types.h], which is not among the sources. *)
Variable PAGE_SIZE : Z.
Variable sizeof_HeapPageHeader : Z.
Variable INVALID_PAGE_NUM : Z.
Variable INVALID_SLOT_OFFSET : Z.

(** ** heappage.cpp *)

Definition _getPageHeader : M HeapPageHeader := fun p => Return (header p) p.

(** [HeapPage::initializeHeader], lines 20-30. *)
Definition initializeHeader : M unit :=
  modify_header (set_prev_page INVALID_PAGE_NUM) then*
  modify_header (set_next_page INVALID_PAGE_NUM) then*
  modify_header (set_free_space_begin sizeof_HeapPageHeader) then*
  modify_header (set_free_space_end PAGE_SIZE) then*
  modify_header (set_size 0) then*
  modify_header (set_capacity 0).

Definition setNext (page_num : Z) : M unit := modify_header (set_next_page page_num).
Definition setPrev (page_num : Z) : M unit := modify_header (set_prev_page page_num).

Definition getNext : M Z := let* tmp := _getPageHeader in ret (next_page tmp).
Definition getPrev : M Z := let* tmp := _getPageHeader in ret (prev_page tmp).

(** [HeapPage::getFreeSpace], lines 108-125. *)
Definition getFreeSpace : M Z :=
  let* tmp := _getPageHeader in
  let size0 := wrap32 (free_space_end tmp - free_space_begin tmp) in
  if size tmp =? capacity tmp then
    if sizeof_SlotInfo <=? size0 then ret (wrap32 (size0 - sizeof_SlotInfo))
    else ret 0
  else ret size0.

Definition isFull : M bool :=
  let* tmp := _getPageHeader in
  ret ((size tmp =? capacity tmp) && negb (size tmp =? 0)).

Definition isEmpty : M bool :=
  let* tmp := _getPageHeader in ret (size tmp =? 0).

Definition getNumRecs : M Z := let* tmp := _getPageHeader in ret (size tmp).

(** [HeapPage::_getSlotInfo], lines 454-462: the entry behind the pointer it
    returns; writes through the pointer are [write_slot]. *)
Definition _getSlotInfo (slot_id : Z) : M SlotInfo.t :=
  let* page_header := _getPageHeader in
  if capacity page_header <=? slot_id then throw (InvalidSlotIdHeapPage slot_id)
  else fun p => Return (slot_at p slot_id) p.

(** [HeapPage::_insertRecord], lines 481-502. *)
Definition _insertRecord (slot_id : Z) (record_data : Data) : M unit :=
  let* page_header := _getPageHeader in
  if capacity page_header <=? slot_id then throw (InvalidSlotIdHeapPage slot_id)
  else
    _getSlotInfo slot_id then*
    let record_length := getSize record_data in
    modify_header (set_free_space_end (wrap32 (free_space_end page_header - record_length))) then*
    let* h := _getPageHeader in
    let record_offset := free_space_end h in
    memcpy record_offset (record_bytes record_data) then*
    write_slot slot_id (SlotInfo.mk record_offset record_length) then*
    modify_header (fun h => set_size (wrap32 (size h + 1)) h).

(** The [for] loop of [insertRecord]: [n] is the number of iterations left,
    [capacity - i]. *)
Fixpoint insertRecord_scan (n : nat) (i : Z) : M Z :=
  match n with
  | O => ret INVALID_SLOT_OFFSET
  | S n' =>
      let* s := _getSlotInfo i in
      if SlotInfo.offset s =? INVALID_SLOT_OFFSET then ret i
      else insertRecord_scan n' (i + 1)
  end.

(** [HeapPage::insertRecord], lines 184-218. *)
Definition insertRecord (record_data : Data) : M Z :=
  let size_necessary := getSize record_data in
  if size_necessary =? 0 then throw EmptyDataHeapPage
  else
    let* free := getFreeSpace in
    if free <? size_necessary then throw InsufficientSpaceHeapPage
    else
      let* page_header := _getPageHeader in
      let* found := insertRecord_scan (Z.to_nat (capacity page_header)) 0 in
      let* free_slot_id :=
        (if found =? INVALID_SLOT_OFFSET then
           modify_header (fun h => set_capacity (wrap32 (capacity h + 1)) h) then*
           modify_header (fun h => set_free_space_begin
                                     (wrap32 (free_space_begin h + sizeof_SlotInfo)) h) then*
           ret (capacity page_header)
         else ret found) in
      _insertRecord free_slot_id record_data then*
      ret free_slot_id.

(** [HeapPage::getRecord], lines 238-255; it returns the [Data] as the call
    leaves it. *)
Definition getRecord (slot_id : Z) (record_data : Data) : M Data :=
  let* tmp := _getPageHeader in
  if capacity tmp <=? slot_id then throw (InvalidSlotIdHeapPage slot_id)
  else
    let* slot := _getSlotInfo slot_id in
    if SlotInfo.offset slot =? INVALID_SLOT_OFFSET then throw (InvalidSlotIdHeapPage slot_id)
    else if getCapacity record_data <? SlotInfo.length slot then throw InvalidSizeData
    else fun p =>
      let bytes := take (Z.to_nat (SlotInfo.length slot))
                        (drop (Z.to_nat (SlotInfo.offset slot)) (data p)) in
      Return (setSize (SlotInfo.length slot)
                (mkData (list_inserts 0 bytes (getData record_data)) (getSize record_data)))
             p.

(** The compaction loop of [_deleteRecord] over the entries [i .. i + n - 1]. *)
Fixpoint _deleteRecord_shift (n : nat) (i : nat) (offset length : Z)
    (dir : list SlotInfo.t) : list SlotInfo.t :=
  match n with
  | O => dir
  | S n' =>
      let tmp := dir !!! i in
      let dir' :=
        if negb (SlotInfo.offset tmp =? INVALID_SLOT_OFFSET) && (SlotInfo.offset tmp <? offset)
        then <[i := SlotInfo.mk (wrap32 (SlotInfo.offset tmp + length)) (SlotInfo.length tmp)]> dir
        else dir in
      _deleteRecord_shift n' (S i) offset length dir'
  end.

(** [HeapPage::_deleteRecord], lines 523-561. *)
Definition _deleteRecord (slot_id : Z) : M unit :=
  let* header0 := _getPageHeader in
  let* slot := _getSlotInfo slot_id in
  if (SlotInfo.offset slot =? INVALID_SLOT_OFFSET) || (capacity header0 <=? slot_id)
  then throw (InvalidSlotIdHeapPage slot_id)
  else
    let offset := SlotInfo.offset slot in
    let length := SlotInfo.length slot in
    write_slot slot_id (SlotInfo.mk INVALID_SLOT_OFFSET 0) then*
    modify_header (fun h => set_size (wrap32 (size h - 1)) h) then*
    let* h := _getPageHeader in
    if wrap32 (offset + length) =? free_space_end h then
      modify_header (set_free_space_end (wrap32 (free_space_end h + length)))
    else
      let size0 := wrap32 (offset - free_space_end h) in
      memmove (free_space_end h + length) (free_space_end h) size0 then*
      (fun p => Return tt
         (mkPage (header p)
            (_deleteRecord_shift (Z.to_nat (capacity h)) 0 offset length (slot_directory p))
            (data p))) then*
      modify_header (fun h => set_free_space_end (wrap32 (free_space_end h + length)) h).

(** The [while] loop of [deleteRecord]; it counts the local [capacity] down. *)
Fixpoint deleteRecord_shrink (capacity0 : nat) (dir : list SlotInfo.t) : nat :=
  match capacity0 with
  | O => O
  | S c =>
      if negb (SlotInfo.offset (dir !!! c) =? INVALID_SLOT_OFFSET) then S c
      else deleteRecord_shrink c dir
  end.

(** [HeapPage::deleteRecord], lines 275-304. *)
Definition deleteRecord (slot_id : Z) : M unit :=
  let* header0 := _getPageHeader in
  let* slot := _getSlotInfo slot_id in
  if (SlotInfo.offset slot =? INVALID_SLOT_OFFSET) || (capacity header0 <=? slot_id)
  then throw (InvalidSlotIdHeapPage slot_id)
  else
    _deleteRecord slot_id then*
    let* h := _getPageHeader in
    let* capacity0 := (fun p => Return (Z.of_nat (deleteRecord_shrink (Z.to_nat (capacity h))
                                               (slot_directory p))) p) in
    if capacity0 <? capacity h then
      let size0 := wrap32 ((capacity h - capacity0) * sizeof_SlotInfo) in
      modify_header (set_capacity capacity0) then*
      modify_header (fun h => set_free_space_begin (wrap32 (free_space_begin h - size0)) h)
    else ret tt.

(** [HeapPage::updateRecord], lines 326-345. *)
Definition updateRecord (slot_id : Z) (record_data : Data) : M unit :=
  let* header0 := _getPageHeader in
  let* slot := _getSlotInfo slot_id in
  if (SlotInfo.offset slot =? INVALID_SLOT_OFFSET) || (capacity header0 <=? slot_id)
  then throw (InvalidSlotIdHeapPage slot_id)
  else if getSize record_data =? 0 then throw EmptyDataHeapPage
  else
    let* free := getFreeSpace in
    if wrap32 (free + SlotInfo.length slot) <? getSize record_data
    then throw InsufficientSpaceHeapPage
    else
      _deleteRecord slot_id then*
      _insertRecord slot_id record_data.

(** [HeapPage::getHeader] and [HeapPage::getSlotInfo], lines 359-376: copies
    of the header and of a directory entry, for debugging. *)
Definition getHeader : M HeapPageHeader :=
  let* page_header := _getPageHeader in ret page_header.


(** [HeapPage::getInvalidNum], lines 382-393; [n] is the number of
    iterations of its loop that are left, [capacity - i]. *)
Fixpoint getInvalidNum_loop (n : nat) (i : Z) (invalid : Z) : M Z :=
  match n with
  | O => ret invalid
  | S n' =>
      let* slot := _getSlotInfo i in
      getInvalidNum_loop n' (i + 1)
        (if SlotInfo.offset slot =? INVALID_SLOT_OFFSET then wrap32 (invalid + 1)
         else invalid)
  end.

Definition getInvalidNum : M Z :=
  let* tmp := _getPageHeader in
  getInvalidNum_loop (Z.to_nat (capacity tmp)) 0 0.

(** ** The data-model invariants *)

(** The buffer handed over by the allocator: [PAGE_SIZE] bytes, of which the
    directory view covers what lies behind the header. *)
Definition Page_buffer (p : HeapPage) : Prop :=
  Z.of_nat (length (data p)) = PAGE_SIZE /\
  Z.of_nat (length (slot_directory p)) = (PAGE_SIZE - sizeof_HeapPageHeader) / sizeof_SlotInfo.

Definition is_free (s : SlotInfo.t) : bool := SlotInfo.offset s =? INVALID_SLOT_OFFSET.

(** Slot [i] is in the directory and holds a record. *)
Definition live (p : HeapPage) (i : Z) : Prop :=
  0 <= i < capacity (header p) /\ is_free (slot_at p i) = false.

(** Number of entries among the first [n] whose offset is not
    [INVALID_SLOT_OFFSET]. *)
Definition live_bit (s : SlotInfo.t) : Z := if is_free s then 0 else 1.

Fixpoint live_count (dir : list SlotInfo.t) (n : nat) : Z :=
  match n with
  | O => 0
  | S n' => live_count dir n' + live_bit (dir !!! n')
  end.

Definition slot_begin (p : HeapPage) (i : Z) : Z := SlotInfo.offset (slot_at p i).
Definition slot_end (p : HeapPage) (i : Z) : Z :=
  SlotInfo.offset (slot_at p i) + SlotInfo.length (slot_at p i).

Definition inv_bounds (p : HeapPage) : Prop :=
  sizeof_HeapPageHeader <= free_space_begin (header p) /\
  free_space_begin (header p) <= free_space_end (header p) /\
  free_space_end (header p) <= PAGE_SIZE.

Definition inv_begin (p : HeapPage) : Prop :=
  free_space_begin (header p)
  = sizeof_HeapPageHeader + capacity (header p) * sizeof_SlotInfo.

Definition inv_size (p : HeapPage) : Prop :=
  size (header p) = live_count (slot_directory p) (Z.to_nat (capacity (header p))) /\
  size (header p) <= capacity (header p).

Definition inv_disjoint (p : HeapPage) : Prop :=
  forall i j, live p i -> live p j -> i <> j ->
    slot_end p i <= slot_begin p j \/ slot_end p j <= slot_begin p i.

Definition inv_tiling (p : HeapPage) : Prop :=
  (forall i, live p i ->
     free_space_end (header p) <= slot_begin p i /\ slot_end p i <= PAGE_SIZE) /\
  (forall a, free_space_end (header p) <= a < PAGE_SIZE ->
     exists i, live p i /\ slot_begin p i <= a < slot_end p i).

Definition inv_last (p : HeapPage) : Prop :=
  capacity (header p) > 0 -> live p (capacity (header p) - 1).

Definition inv_nonempty (p : HeapPage) : Prop :=
  forall i, live p i -> 1 <= SlotInfo.length (slot_at p i).

(** What every operation of the page maintains, except that between the two
    halves of an update the last directory entry may be the free one. *)
Record page_core (p : HeapPage) : Prop := {
  core_buffer : Page_buffer p;
  core_bounds : inv_bounds p;
  core_begin : inv_begin p;
  core_size : inv_size p;
  core_disjoint : inv_disjoint p;
  core_tiling : inv_tiling p;
  core_nonempty : inv_nonempty p
}.

Definition page_inv (p : HeapPage) : Prop := page_core p /\ inv_last p.

(** ** Net effect of the two private helpers

    [insert_at] and [delete_at] are the pages that [_insertRecord] and
    [_deleteRecord] leave behind when no 32-bit operation wraps
    ([_insertRecord_run], [_deleteRecord_run]). *)

Definition insert_at (k : Z) (d : Data) (p : HeapPage) : HeapPage :=
  let fe := free_space_end (header p) - getSize d in
  mkPage (set_size (size (header p) + 1) (set_free_space_end fe (header p)))
         (<[Z.to_nat k := SlotInfo.mk fe (getSize d)]> (slot_directory p))
         (list_inserts (Z.to_nat fe) (record_bytes d) (data p)).

Definition shift_slot (offset length : Z) (s : SlotInfo.t) : SlotInfo.t :=
  if negb (is_free s) && (SlotInfo.offset s <? offset)
  then SlotInfo.mk (SlotInfo.offset s + length) (SlotInfo.length s)
  else s.

Definition delete_at (k : Z) (p : HeapPage) : HeapPage :=
  let offset := SlotInfo.offset (slot_at p k) in
  let length := SlotInfo.length (slot_at p k) in
  let fe := free_space_end (header p) in
  mkPage (set_free_space_end (fe + length) (set_size (size (header p) - 1) (header p)))
         (_deleteRecord_shift (Z.to_nat (capacity (header p))) 0 offset length
            (<[Z.to_nat k := SlotInfo.mk INVALID_SLOT_OFFSET 0]> (slot_directory p)))
         (list_inserts (Z.to_nat (fe + length))
            (take (Z.to_nat (offset - fe)) (drop (Z.to_nat fe) (data p)))
            (data p)).

(** The directory grown by one entry ([insertRecord]), an entry marked free,
    and the directory cut back to its last live entry ([deleteRecord]). *)
Definition grow (p : HeapPage) : HeapPage :=
  mkPage (set_free_space_begin (free_space_begin (header p) + sizeof_SlotInfo)
            (set_capacity (capacity (header p) + 1) (header p)))
         (slot_directory p) (data p).

Definition clear_slot (k : Z) (p : HeapPage) : HeapPage :=
  mkPage (header p) (<[Z.to_nat k := SlotInfo.mk INVALID_SLOT_OFFSET 0]> (slot_directory p))
         (data p).

Definition shrunk_capacity (p : HeapPage) : Z :=
  Z.of_nat (deleteRecord_shrink (Z.to_nat (capacity (header p))) (slot_directory p)).

Definition shrink (p : HeapPage) : HeapPage :=
  mkPage (set_free_space_begin
            (free_space_begin (header p)
             - (capacity (header p) - shrunk_capacity p) * sizeof_SlotInfo)
            (set_capacity (shrunk_capacity p) (header p)))
         (slot_directory p) (data p).

(** ** Free space, in the words of the specification *)

Definition raw_free (p : HeapPage) : Z :=
  free_space_end (header p) - free_space_begin (header p).

Definition free_space (p : HeapPage) : Z :=
  if size (header p) <? capacity (header p) then raw_free p
  else if sizeof_SlotInfo <=? raw_free p then raw_free p - sizeof_SlotInfo
  else 0.

(** [k] is the smallest index of a free directory entry. *)
Definition first_free (p : HeapPage) (k : Z) : Prop :=
  0 <= k < capacity (header p) /\ is_free (slot_at p k) = true /\
  forall j, 0 <= j < k -> is_free (slot_at p j) = false.

Definition no_free (p : HeapPage) : Prop :=
  forall j, 0 <= j < capacity (header p) -> is_free (slot_at p j) = false.

(** Two pages with the same live slots, holding the same records. *)
Definition same_records (p q : HeapPage) : Prop :=
  free_space_end (header q) = free_space_end (header p) /\
  (forall i, live q i <-> live p i) /\
  (forall i, live p i -> slot_at q i = slot_at p i).

(** The bytes of the record in slot [i]: what [getRecord] copies out. *)
Definition record_at (p : HeapPage) (i : Z) : list byte :=
  take (Z.to_nat (SlotInfo.length (slot_at p i)))
       (drop (Z.to_nat (SlotInfo.offset (slot_at p i))) (data p)).

(** Total length of the records in the first [n] directory entries. *)
Fixpoint live_bytes (dir : list SlotInfo.t) (n : nat) : Z :=
  match n with
  | O => 0
  | S n' => live_bytes dir n'
            + (if is_free (dir !!! n') then 0 else SlotInfo.length (dir !!! n'))
  end.

(** The ids of the live slots from [cur] on, in ascending order. *)
Definition live_ids (p : HeapPage) (cur : Z) : list Z :=
  filter (fun j => is_free (slot_at p j) = false)
         (seqZ cur (capacity (header p) - cur)).

(** The six invariants of the data model, side by side. *)
Definition data_model_invariants (p : HeapPage) : Prop :=
  inv_bounds p /\ inv_begin p /\ inv_size p /\
  (inv_disjoint p /\ inv_tiling p) /\ inv_last p /\
  (forall i, live p i -> SlotInfo.length (slot_at p i) <> 0).

(** ** Reachable pages *)

Inductive Call :=
| CallInsert (record_data : Data)
| CallGet (slot_id : Z) (record_data : Data)
| CallUpdate (slot_id : Z) (record_data : Data)
| CallDelete (slot_id : Z)
| CallSetPrev (page_num : Z)
| CallSetNext (page_num : Z).

(** Arguments as their C++ types have them: slot ids are unsigned, a [Data]
    keeps its size within its capacity. *)
Definition Call_ok (c : Call) : Prop :=
  match c with
  | CallInsert d => Data_ok d
  | CallGet slot_id d => 0 <= slot_id
  | CallUpdate slot_id d => 0 <= slot_id /\ Data_ok d
  | CallDelete slot_id => 0 <= slot_id
  | CallSetPrev _ | CallSetNext _ => True
  end.

(** The page after a call, whether the call returned or threw. *)
Definition call (c : Call) (p : HeapPage) : HeapPage :=
  match c with
  | CallInsert d => page_after (insertRecord d p)
  | CallGet slot_id d => page_after (getRecord slot_id d p)
  | CallUpdate slot_id d => page_after (updateRecord slot_id d p)
  | CallDelete slot_id => page_after (deleteRecord slot_id p)
  | CallSetPrev n => page_after (setPrev n p)
  | CallSetNext n => page_after (setNext n p)
  end.

Inductive reachable : HeapPage -> Prop :=
| reachable_init p0 :
    Page_buffer p0 -> reachable (page_after (initializeHeader p0))
| reachable_call p c :
    reachable p -> Call_ok c -> reachable (call c p).

End HeapPage.

(** ** heappagescanner.cpp *)

Module HeapPageScanner.

(** [page] is the state of the pinned page that the scanner's pointer
    refers to at the call. *)
Record t := mk { page : HeapPage; cur_slot : Z }.

Inductive Outcome :=
| Returns (sid : Z) (s : t)
| Throws (e : Exn) (s : t).

Section Scanner.

Variable INVALID_SLOT_OFFSET : Z.
Variable INVALID_SLOT_ID : Z.

Definition new (page : HeapPage) : t := mk page 0.

(** The [while] loop of [getNext]; [None] when [fuel] iterations did not
    reach the exit of the loop. *)
Fixpoint getNext_loop (fuel : nat) (to_return : Z) (found : bool) (s : t)
    : option Outcome :=
  match _getPageHeader (page s) with
  | Throw e p' => Some (Throws e (mk p' (cur_slot s)))
  | Return page_header p0 =>
      if negb found && (cur_slot s <? capacity page_header) then
        match fuel with
        | O => None
        | S fuel' =>
            match _getSlotInfo (cur_slot s) p0 with
            | Throw e p' => Some (Throws e (mk p' (cur_slot s)))
            | Return info p' =>
                let hit := negb (SlotInfo.offset info =? INVALID_SLOT_OFFSET) in
                let to_return' := if hit then cur_slot s else to_return in
                let found' := if hit then true else found in
                getNext_loop fuel' to_return' found' (mk p' (wrap32 (cur_slot s + 1)))
            end
        end
      else Some (Returns to_return (mk p0 (cur_slot s)))
  end.

Definition getNext (fuel : nat) (s : t) : option Outcome :=
  getNext_loop fuel INVALID_SLOT_ID false s.

Definition reset (page : HeapPage) (s : t) : t := mk page 0.

(** A sequential scan as the callers write it ([unittests.cpp], lines
    407-411): [getNext] until it returns [INVALID_SLOT_ID], the ids pushed
    on a vector.  [None] when [calls] calls did not reach the end of the scan
    or a call ran out of [fuel]. *)
Fixpoint collect (calls fuel : nat) (s : t) : option (list Z) :=
  match calls with
  | O => None
  | S calls' =>
      match getNext fuel s with
      | Some (Returns nextSid s') =>
          if nextSid =? INVALID_SLOT_ID then Some []
          else match collect calls' fuel s' with
               | Some validSlots => Some (nextSid :: validSlots)
               | None => None
               end
      | _ => None
      end
  end.

End Scanner.

End HeapPageScanner.

(** ** A concrete page *)

(** Modelled from the spec: the constants of [swatdb_types.h], with the
    values of its end-to-end scenarios ([PAGE_SIZE = 4096],
    [sizeof(Header) = 24]) and all-ones 32-bit sentinels. *)
Module Example.

Definition PAGE_SIZE : Z := 4096.
Definition sizeof_HeapPageHeader : Z := 24.
Definition INVALID_PAGE_NUM : Z := 4294967295.
Definition INVALID_SLOT_OFFSET : Z := 4294967295.
Definition INVALID_SLOT_ID : Z := 4294967295.

(** The buffer as the allocator hands it over: nothing initialized. *)
Definition buffer : HeapPage :=
  mkPage (mkHeader 0 0 0 0 0 0)
         (replicate 509 (SlotInfo.mk 0 0))
         (replicate 4096 "000"%byte).

(** A record of [n] bytes [b], in a [Data] of that capacity. *)
Definition record (n : nat) (b : byte) : Data := mkData (replicate n b) (Z.of_nat n).

Definition run (c : Call) (p : HeapPage) : HeapPage := call INVALID_SLOT_OFFSET c p.

Definition fresh : HeapPage :=
  page_after (initializeHeader PAGE_SIZE sizeof_HeapPageHeader INVALID_PAGE_NUM buffer).

(** One record of 10 bytes. *)
Definition one : HeapPage := run (CallInsert (record 10 "001"%byte)) fresh.

(** Records of 10, 15 and 20 bytes in slots 0, 1 and 2. *)
Definition three : HeapPage :=
  run (CallInsert (record 20 "003"%byte))
    (run (CallInsert (record 15 "002"%byte)) one).

(** The same with slot 0 deleted: slot 0 free, slots 1 and 2 live. *)
Definition hole : HeapPage := run (CallDelete 0) three.

(** Five records, then slots 1 and 3 deleted. *)
Definition holes : HeapPage :=
  run (CallDelete 3)
    (run (CallDelete 1)
       (run (CallInsert (record 2 "005"%byte))
          (run (CallInsert (record 2 "004"%byte)) three))).

End Example.

(** * Properties *)

Lemma wrap32_small x : 0 <= x < 2 ^ 32 -> wrap32 x = x.
Proof. intros Hx. unfold wrap32. by apply Z.mod_small. Qed.

Lemma bind_Return {A B} (c : M A) (k : A -> M B) p a p' :
  c p = Return a p' -> bind c k p = k a p'.
Proof. intros Hc. unfold bind. by rewrite Hc. Qed.

Lemma bind_Throw {A B} (c : M A) (k : A -> M B) p e p' :
  c p = Throw e p' -> bind c k p = Throw e p'.
Proof. intros Hc. unfold bind. by rewrite Hc. Qed.

(** ** Bytes copied into a buffer *)

Lemma take_drop_inserts {A} (a : nat) (bs l : list A) :
  (a + length bs <= length l)%nat ->
  take (length bs) (drop a (list_inserts a bs l)) = bs.
Proof.
  intros Hlen. apply list_eq. intros i.
  rewrite lookup_take. case_decide as Hi.
  - rewrite lookup_drop, list_lookup_inserts by lia. f_equal. lia.
  - symmetry. apply lookup_ge_None. lia.
Qed.

Lemma take_inserts_0 {A} (bs l : list A) :
  (length bs <= length l)%nat -> take (length bs) (list_inserts 0 bs l) = bs.
Proof. intros Hlen. by apply (take_drop_inserts 0). Qed.

Lemma take_drop_inserts_above {A} (a b n : nat) (bs l : list A) :
  (a + length bs <= b)%nat ->
  take n (drop b (list_inserts a bs l)) = take n (drop b l).
Proof.
  intros Hab. apply list_eq. intros i.
  rewrite !lookup_take. case_decide; [|done].
  rewrite !lookup_drop. apply list_lookup_inserts_ge. lia.
Qed.

(** A block moved up by [k] inside a buffer carries its bytes along. *)
Lemma take_drop_moved {A} (src n k b m : nat) (l : list A) :
  (src <= b)%nat -> (b + m <= src + n)%nat -> (src + k + n <= length l)%nat ->
  take m (drop (b + k) (list_inserts (src + k) (take n (drop src l)) l))
  = take m (drop b l).
Proof.
  intros Hb Hm Hlen. apply list_eq. intros i.
  rewrite !lookup_take. case_decide; [|done].
  rewrite !lookup_drop. rewrite list_lookup_inserts.
  - rewrite lookup_take_lt by lia. rewrite lookup_drop. f_equal. lia.
  - rewrite length_take, length_drop. lia.
  - lia.
Qed.

Lemma drop_inserts_0 {A} (n : nat) (bs l : list A) :
  (length bs <= n)%nat -> drop n (list_inserts 0 bs l) = drop n l.
Proof.
  intros Hn. apply list_eq. intros i.
  rewrite !lookup_drop. apply list_lookup_inserts_ge. lia.
Qed.

(** ** Counting live slots *)

Section LiveCount.

Variable INVALID_SLOT_OFFSET : Z.
Local Abbreviation is_free := (is_free INVALID_SLOT_OFFSET).
Local Abbreviation live_bit := (live_bit INVALID_SLOT_OFFSET).
Local Abbreviation live_count := (live_count INVALID_SLOT_OFFSET).

Lemma live_count_S dir n :
  live_count dir (S n) = live_count dir n + live_bit (dir !!! n).
Proof. reflexivity. Qed.

Lemma live_count_bounds dir n : 0 <= live_count dir n <= Z.of_nat n.
Proof.
  induction n as [|n IH]; [simpl; lia|].
  rewrite live_count_S. unfold live_bit. destruct (is_free _); lia.
Qed.

Lemma live_count_ext dir dir' n :
  (forall i, (i < n)%nat -> is_free (dir !!! i) = is_free (dir' !!! i)) ->
  live_count dir n = live_count dir' n.
Proof.
  induction n as [|n IH]; intros Hext; [done|].
  rewrite !live_count_S, IH by (intros; apply Hext; lia).
  unfold live_bit. rewrite Hext by lia. done.
Qed.

Lemma live_count_insert_ge dir n k v :
  (n <= k)%nat -> live_count (<[k := v]> dir) n = live_count dir n.
Proof.
  intros Hk. apply live_count_ext. intros i Hi.
  rewrite list_lookup_total_insert_ne by lia. done.
Qed.

Lemma live_count_insert_lt dir n k v :
  (k < n)%nat -> (k < length dir)%nat ->
  live_count (<[k := v]> dir) n = live_count dir n - live_bit (dir !!! k) + live_bit v.
Proof.
  intros Hk Hlen. induction n as [|n IH]; [lia|].
  rewrite !live_count_S. destruct (decide (k = n)) as [->|Hne].
  - rewrite live_count_insert_ge by lia.
    rewrite list_lookup_total_insert_eq by done. lia.
  - rewrite IH by lia. rewrite list_lookup_total_insert_ne by done. lia.
Qed.

Lemma live_count_full dir n :
  live_count dir n = Z.of_nat n ->
  forall i, (i < n)%nat -> is_free (dir !!! i) = false.
Proof.
  induction n as [|n IH]; intros Hc i Hi; [lia|].
  rewrite live_count_S in Hc.
  pose proof (live_count_bounds dir n) as Hb.
  unfold live_bit in Hc. destruct (is_free (dir !!! n)) eqn:Hn; [lia|].
  destruct (decide (i = n)) as [->|Hne]; [done|]. apply IH; lia.
Qed.

Lemma live_count_all_live dir n :
  (forall i, (i < n)%nat -> is_free (dir !!! i) = false) ->
  live_count dir n = Z.of_nat n.
Proof.
  induction n as [|n IH]; intros Hall; [done|].
  rewrite live_count_S, IH by (intros; apply Hall; lia).
  unfold live_bit. rewrite Hall by lia. lia.
Qed.

Lemma live_count_ge_bit dir n i :
  (i < n)%nat -> live_bit (dir !!! i) <= live_count dir n.
Proof.
  induction n as [|n IH]; intros Hi; [lia|].
  rewrite live_count_S.
  pose proof (live_count_bounds dir n) as Hb.
  destruct (decide (i = n)) as [->|Hne]; [lia|].
  specialize (IH ltac:(lia)). unfold live_bit at 2. destruct (is_free _); lia.
Qed.

Lemma live_count_none dir n :
  (forall i, (i < n)%nat -> is_free (dir !!! i) = true) -> live_count dir n = 0.
Proof.
  induction n as [|n IH]; intros Hall; [done|].
  rewrite live_count_S, IH by (intros; apply Hall; lia).
  unfold live_bit. rewrite Hall by lia. lia.
Qed.

Lemma live_count_cut dir n m :
  (n <= m)%nat ->
  (forall j, (n <= j < m)%nat -> is_free (dir !!! j) = true) ->
  live_count dir m = live_count dir n.
Proof.
  intros Hnm Hfree. induction m as [|m IH].
  - by replace n with O by lia.
  - destruct (decide (n = S m)) as [->|Hne]; [done|].
    rewrite live_count_S, IH by (try lia; intros; apply Hfree; lia).
    unfold live_bit. rewrite Hfree by lia. lia.
Qed.

(** *** Counting the bytes of the live records *)

Local Abbreviation live_bytes := (live_bytes INVALID_SLOT_OFFSET).

Lemma live_bytes_ext dir dir' n :
  (forall i, (i < n)%nat ->
     is_free (dir !!! i) = is_free (dir' !!! i) /\
     (is_free (dir !!! i) = false ->
        SlotInfo.length (dir !!! i) = SlotInfo.length (dir' !!! i))) ->
  live_bytes dir n = live_bytes dir' n.
Proof.
  induction n as [|n IH]; intros Hext; [done|].
  simpl. rewrite IH by (intros; apply Hext; lia).
  destruct (Hext n ltac:(lia)) as [Hf Hl]. rewrite <- Hf.
  destruct (is_free (dir !!! n)); [done|]. by rewrite Hl.
Qed.

Lemma live_bytes_insert_ge dir n k v :
  (n <= k)%nat -> live_bytes (<[k := v]> dir) n = live_bytes dir n.
Proof.
  intros Hk. apply live_bytes_ext. intros i Hi.
  rewrite list_lookup_total_insert_ne by lia. done.
Qed.

Lemma live_bytes_insert_lt dir n k v :
  (k < n)%nat -> (k < length dir)%nat ->
  live_bytes (<[k := v]> dir) n
  = live_bytes dir n
    - (if is_free (dir !!! k) then 0 else SlotInfo.length (dir !!! k))
    + (if is_free v then 0 else SlotInfo.length v).
Proof.
  intros Hk Hlen. induction n as [|n IH]; [lia|].
  simpl. destruct (decide (k = n)) as [->|Hne].
  - rewrite live_bytes_insert_ge by lia.
    rewrite list_lookup_total_insert_eq by done. lia.
  - rewrite IH by lia. rewrite list_lookup_total_insert_ne by done. lia.
Qed.

Lemma live_bytes_cut dir n m :
  (n <= m)%nat ->
  (forall j, (n <= j < m)%nat -> is_free (dir !!! j) = true) ->
  live_bytes dir m = live_bytes dir n.
Proof.
  intros Hnm Hfree. induction m as [|m IH].
  - by replace n with O by lia.
  - destruct (decide (n = S m)) as [->|Hne]; [done|].
    simpl. rewrite IH by (try lia; intros; apply Hfree; lia).
    rewrite Hfree by lia. lia.
Qed.

End LiveCount.

(** ** The loops *)

Section Loops.

Variable INVALID_SLOT_OFFSET : Z.
Local Abbreviation is_free := (is_free INVALID_SLOT_OFFSET).
Local Abbreviation insertRecord_scan := (insertRecord_scan INVALID_SLOT_OFFSET).
Local Abbreviation _deleteRecord_shift := (_deleteRecord_shift INVALID_SLOT_OFFSET).
Local Abbreviation deleteRecord_shrink := (deleteRecord_shrink INVALID_SLOT_OFFSET).
Local Abbreviation shift_slot := (shift_slot INVALID_SLOT_OFFSET).

Lemma _getSlotInfo_run slot_id p :
  slot_id < capacity (header p) ->
  _getSlotInfo slot_id p = Return (slot_at p slot_id) p.
Proof.
  intros Hlt. unfold _getSlotInfo, bind, _getPageHeader.
  destruct (Z.leb_spec (capacity (header p)) slot_id); [lia|done].
Qed.

Lemma _getSlotInfo_throw slot_id p :
  capacity (header p) <= slot_id ->
  _getSlotInfo slot_id p = Throw (InvalidSlotIdHeapPage slot_id) p.
Proof.
  intros Hge. unfold _getSlotInfo, bind, _getPageHeader.
  destruct (Z.leb_spec (capacity (header p)) slot_id); [done|lia].
Qed.

(** The scan stops at the first free entry, or runs through the directory. *)
Lemma insertRecord_scan_spec n i p :
  0 <= i -> i + Z.of_nat n = capacity (header p) ->
  exists r, insertRecord_scan n i p = Return r p /\
    ((r = INVALID_SLOT_OFFSET /\
      forall j, i <= j < capacity (header p) -> is_free (slot_at p j) = false)
     \/ (i <= r < capacity (header p) /\ is_free (slot_at p r) = true /\
         forall j, i <= j < r -> is_free (slot_at p j) = false)).
Proof.
  revert i. induction n as [|n IH]; intros i Hi Hn.
  - exists INVALID_SLOT_OFFSET. split; [done|]. left. split; [done|]. intros; lia.
  - simpl. unfold bind at 1. rewrite _getSlotInfo_run by lia.
    destruct (SlotInfo.offset (slot_at p i) =? INVALID_SLOT_OFFSET) eqn:Hfree.
    + exists i. split; [done|]. right. split; [lia|]. split; [done|]. intros; lia.
    + destruct (IH (i + 1)) as (r & Hrun & Hr); [lia|lia|].
      exists r. split; [done|].
      destruct Hr as [[-> Hall]|(Hr & Hfr & Hall)].
      * left. split; [done|]. intros j Hj.
        destruct (decide (j = i)) as [->|]; [done|]. apply Hall; lia.
      * right. split; [lia|]. split; [done|]. intros j Hj.
        destruct (decide (j = i)) as [->|]; [done|]. apply Hall; lia.
Qed.

Lemma _deleteRecord_shift_length n i offset length dir :
  Datatypes.length (_deleteRecord_shift n i offset length dir) = Datatypes.length dir.
Proof.
  revert i dir. induction n as [|n IH]; intros i dir; [done|].
  simpl. rewrite IH. destruct (_ && _); [by rewrite length_insert|done].
Qed.

(** The compaction loop moves the live entries below [offset], when their
    new offsets need no wrap, and leaves every other entry alone. *)
Lemma _deleteRecord_shift_lookup n i offset length dir j :
  (i + n <= Datatypes.length dir)%nat ->
  (forall k, (i <= k < i + n)%nat ->
     0 <= SlotInfo.offset (shift_slot offset length (dir !!! k)) < 2 ^ 32) ->
  _deleteRecord_shift n i offset length dir !!! j
  = if decide (i <= j < i + n)%nat then shift_slot offset length (dir !!! j)
    else dir !!! j.
Proof.
  revert i dir. induction n as [|n IH]; intros i dir Hlen Hrange.
  - simpl. case_decide; [lia|done].
  - simpl.
    set (dir' := if _ && _ then _ else dir).
    assert (Hdir' : dir' = <[i := shift_slot offset length (dir !!! i)]> dir).
    { subst dir'. pose proof (Hrange i ltac:(lia)) as Hr. revert Hr.
      unfold shift_slot, is_free.
      destruct (_ && _); simpl; intros Hr.
      - by rewrite wrap32_small.
      - symmetry. apply list_insert_id. apply list_lookup_lookup_total_lt. lia. }
    rewrite Hdir'. rewrite IH.
    + destruct (decide (j = i)) as [->|Hne].
      * rewrite list_lookup_total_insert_eq by lia.
        repeat case_decide; try lia; done.
      * rewrite list_lookup_total_insert_ne by done.
        repeat case_decide; try lia; done.
    + rewrite length_insert. lia.
    + intros k Hk. rewrite list_lookup_total_insert_ne by lia. apply Hrange. lia.
Qed.

Lemma deleteRecord_shrink_spec c dir :
  (deleteRecord_shrink c dir <= c)%nat /\
  (forall j, (deleteRecord_shrink c dir <= j < c)%nat -> is_free (dir !!! j) = true) /\
  (forall c', deleteRecord_shrink c dir = S c' -> is_free (dir !!! c') = false).
Proof.
  induction c as [|c (IH1 & IH2 & IH3)]; simpl.
  - split; [lia|]. split; [intros; lia|]. intros; lia.
  - destruct (SlotInfo.offset (dir !!! c) =? INVALID_SLOT_OFFSET) eqn:Hc; simpl.
    + split; [lia|]. split; [|done]. intros j Hj.
      destruct (decide (j = c)) as [->|]; [done|]. apply IH2. lia.
    + split; [lia|]. split; [intros; lia|]. intros c' [= <-]. done.
Qed.

End Loops.

(** ** The page operations *)

Section PageProperties.

Variable PAGE_SIZE : Z.
Variable sizeof_HeapPageHeader : Z.
Variable INVALID_PAGE_NUM : Z.
Variable INVALID_SLOT_OFFSET : Z.

(** The header fits the page, and [INVALID_SLOT_OFFSET] is a 32-bit value
    that is no offset into the page. *)
Hypothesis header_fits : 0 <= sizeof_HeapPageHeader <= PAGE_SIZE.
Hypothesis sentinel_outside : PAGE_SIZE <= INVALID_SLOT_OFFSET < 2 ^ 32.

Local Abbreviation is_free := (is_free INVALID_SLOT_OFFSET).
Local Abbreviation live := (live INVALID_SLOT_OFFSET).
Local Abbreviation live_bit := (live_bit INVALID_SLOT_OFFSET).
Local Abbreviation live_count := (live_count INVALID_SLOT_OFFSET).
Local Abbreviation shift_slot := (shift_slot INVALID_SLOT_OFFSET).
Local Abbreviation delete_at := (delete_at INVALID_SLOT_OFFSET).
Local Abbreviation Page_buffer := (Page_buffer PAGE_SIZE sizeof_HeapPageHeader).
Local Abbreviation inv_bounds := (inv_bounds PAGE_SIZE sizeof_HeapPageHeader).
Local Abbreviation inv_begin := (inv_begin sizeof_HeapPageHeader).
Local Abbreviation inv_size := (inv_size INVALID_SLOT_OFFSET).
Local Abbreviation inv_disjoint := (inv_disjoint INVALID_SLOT_OFFSET).
Local Abbreviation inv_tiling := (inv_tiling PAGE_SIZE INVALID_SLOT_OFFSET).
Local Abbreviation inv_last := (inv_last INVALID_SLOT_OFFSET).
Local Abbreviation inv_nonempty := (inv_nonempty INVALID_SLOT_OFFSET).
Local Abbreviation page_core := (page_core PAGE_SIZE sizeof_HeapPageHeader INVALID_SLOT_OFFSET).
Local Abbreviation page_inv := (page_inv PAGE_SIZE sizeof_HeapPageHeader INVALID_SLOT_OFFSET).
Local Abbreviation initializeHeader :=
  (initializeHeader PAGE_SIZE sizeof_HeapPageHeader INVALID_PAGE_NUM).
Local Abbreviation insertRecord := (insertRecord INVALID_SLOT_OFFSET).
Local Abbreviation getRecord := (getRecord INVALID_SLOT_OFFSET).
Local Abbreviation _deleteRecord := (_deleteRecord INVALID_SLOT_OFFSET).
Local Abbreviation deleteRecord := (deleteRecord INVALID_SLOT_OFFSET).
Local Abbreviation updateRecord := (updateRecord INVALID_SLOT_OFFSET).
Local Abbreviation call := (call INVALID_SLOT_OFFSET).
Local Abbreviation reachable :=
  (reachable PAGE_SIZE sizeof_HeapPageHeader INVALID_PAGE_NUM INVALID_SLOT_OFFSET).

Lemma _insertRecord_run k d p :
  k < capacity (header p) ->
  0 <= free_space_end (header p) - getSize d < 2 ^ 32 ->
  0 <= size (header p) + 1 < 2 ^ 32 ->
  _insertRecord k d p = Return tt (insert_at k d p).
Proof.
  intros Hk Hfe Hsize. unfold _insertRecord, bind at 1, _getPageHeader at 1.
  destruct (Z.leb_spec (capacity (header p)) k); [lia|].
  unfold bind at 1. rewrite _getSlotInfo_run by done.
  unfold bind, modify_header, _getPageHeader, memcpy, write_slot; simpl.
  rewrite !wrap32_small by done. done.
Qed.

Lemma _deleteRecord_run k p :
  let offset := SlotInfo.offset (slot_at p k) in
  let length := SlotInfo.length (slot_at p k) in
  let fe := free_space_end (header p) in
  k < capacity (header p) ->
  is_free (slot_at p k) = false ->
  0 <= size (header p) - 1 < 2 ^ 32 ->
  0 <= offset + length < 2 ^ 32 ->
  offset + length <> fe ->
  0 <= offset - fe < 2 ^ 32 ->
  0 <= fe + length < 2 ^ 32 ->
  _deleteRecord k p = Return tt (delete_at k p).
Proof.
  intros offset length fe Hk Hlive Hsize Hend Hne Hshift Hfe.
  unfold _deleteRecord, bind at 1, _getPageHeader at 1.
  unfold bind at 1. rewrite _getSlotInfo_run by done.
  unfold is_free in Hlive. rewrite Hlive.
  destruct (Z.leb_spec (capacity (header p)) k); [lia|]. simpl.
  unfold bind, modify_header, _getPageHeader, memmove, write_slot; simpl.
  fold offset length fe.
  rewrite (wrap32_small (offset + length)) by done.
  destruct (Z.eqb_spec (offset + length) fe); [done|].
  rewrite !wrap32_small by done. done.
Qed.

(** *** Facts read off the invariants *)

Lemma core_capacity p :
  page_core p ->
  0 <= capacity (header p) /\
  (Z.to_nat (capacity (header p)) <= Datatypes.length (slot_directory p))%nat.
Proof.
  intros [[_ Hdir] (Hb1 & Hb2 & Hb3) Hbeg _ _ _ _].
  unfold inv_begin, sizeof_SlotInfo in *.
  assert (0 <= capacity (header p)) by lia. split; [done|].
  assert (capacity (header p) <= (PAGE_SIZE - sizeof_HeapPageHeader) / 8).
  { apply Z.div_le_lower_bound; lia. }
  lia.
Qed.

Lemma live_in_range p i : live p i -> 0 <= i < capacity (header p).
Proof. by intros [? _]. Qed.

Lemma live_offset p i :
  page_core p -> live p i ->
  free_space_end (header p) <= SlotInfo.offset (slot_at p i) /\
  SlotInfo.offset (slot_at p i) + 1 <= SlotInfo.offset (slot_at p i) + SlotInfo.length (slot_at p i) /\
  SlotInfo.offset (slot_at p i) + SlotInfo.length (slot_at p i) <= PAGE_SIZE.
Proof.
  intros Hcore Hlive.
  destruct (core_tiling _ _ _ _ Hcore) as [Hin _].
  pose proof (Hin i Hlive) as [? ?].
  pose proof (core_nonempty _ _ _ _ Hcore i Hlive).
  unfold slot_begin, slot_end in *. lia.
Qed.

Lemma slot_at_eq h dir dat i : slot_at (mkPage h dir dat) i = dir !!! Z.to_nat i.
Proof. reflexivity. Qed.

Lemma slot_at_insert h dir dat k v i :
  0 <= k -> 0 <= i -> (Z.to_nat k < Datatypes.length dir)%nat ->
  slot_at (mkPage h (<[Z.to_nat k := v]> dir) dat) i
  = if decide (i = k) then v else dir !!! Z.to_nat i.
Proof.
  intros Hk Hi Hlen. rewrite slot_at_eq. case_decide as Heq.
  - subst. by rewrite list_lookup_total_insert_eq.
  - rewrite list_lookup_total_insert_ne by lia. done.
Qed.

Lemma is_free_false_ne s : is_free s = false <-> SlotInfo.offset s <> INVALID_SLOT_OFFSET.
Proof. unfold is_free. destruct (Z.eqb_spec (SlotInfo.offset s) INVALID_SLOT_OFFSET); split; congruence. Qed.

Lemma is_free_true_eq s : is_free s = true <-> SlotInfo.offset s = INVALID_SLOT_OFFSET.
Proof. unfold is_free. destruct (Z.eqb_spec (SlotInfo.offset s) INVALID_SLOT_OFFSET); split; congruence. Qed.

(** *** [_insertRecord] into a free slot *)

Section InsertAt.

Variables (k : Z) (d : Data) (p : HeapPage).
Hypothesis Hcore : page_core p.
Hypothesis Hk : 0 <= k < capacity (header p).
Hypothesis Hfree : is_free (slot_at p k) = true.
Hypothesis Hlen : 1 <= getSize d.
Hypothesis Hfits : getSize d <= free_space_end (header p) - free_space_begin (header p).

Lemma insert_at_slot i :
  0 <= i ->
  slot_at (insert_at k d p) i
  = if decide (i = k)
    then SlotInfo.mk (free_space_end (header p) - getSize d) (getSize d)
    else slot_at p i.
Proof.
  intros Hi. unfold insert_at. apply slot_at_insert; [lia|lia|].
  pose proof (core_capacity p Hcore). lia.
Qed.

Lemma insert_at_live i : live (insert_at k d p) i <-> live p i \/ i = k.
Proof.
  destruct Hcore as [_ (Hb1 & Hb2 & Hb3) _ _ _ _ _].
  unfold live. simpl. split.
  - intros [Hi Hl]. rewrite insert_at_slot in Hl by lia.
    case_decide; [by right|by left].
  - intros [[Hi Hl]| ->].
    + split; [done|]. rewrite insert_at_slot by lia.
      case_decide; [subst; congruence|done].
    + split; [done|]. rewrite insert_at_slot by lia.
      case_decide; [|done]. apply is_free_false_ne. simpl. lia.
Qed.

Lemma insert_at_old_live i : live p i -> i <> k.
Proof. intros [_ Hl] ->. congruence. Qed.

Lemma insert_at_core : page_core (insert_at k d p).
Proof.
  pose proof (core_capacity p Hcore) as [Hc0 Hcdir].
  pose proof Hcore as [Hbuf (Hb1 & Hb2 & Hb3) Hbeg [Hsz1 Hsz2] Hdis [Hin Hcov] Hne].
  split.
  - destruct Hbuf. split; simpl; [by rewrite length_inserts|by rewrite length_insert].
  - repeat split; simpl; lia.
  - done.
  - assert (Hcount : live_count (<[Z.to_nat k := SlotInfo.mk (free_space_end (header p) - getSize d) (getSize d)]> (slot_directory p)) (Z.to_nat (capacity (header p))) = size (header p) + 1).
    { rewrite live_count_insert_lt by lia. rewrite Hsz1.
      unfold live_bit. fold (slot_at p k). rewrite Hfree.
      replace (is_free _) with false; [lia|].
      symmetry. apply is_free_false_ne. simpl. lia. }
    split; simpl; [by rewrite Hcount|].
    rewrite <- Hcount.
    pose proof (live_count_bounds INVALID_SLOT_OFFSET
      (<[Z.to_nat k := SlotInfo.mk (free_space_end (header p) - getSize d) (getSize d)]> (slot_directory p))
      (Z.to_nat (capacity (header p)))). lia.
  - intros i j Hi Hj Hij. unfold slot_begin, slot_end.
    pose proof (live_in_range _ _ Hi). pose proof (live_in_range _ _ Hj).
    simpl in *. rewrite !insert_at_slot by lia.
    apply insert_at_live in Hi, Hj.
    repeat case_decide; subst; simpl; try lia.
    + destruct Hj as [Hj|]; [|done]. pose proof (live_offset p j Hcore Hj). lia.
    + destruct Hi as [Hi|]; [|done]. pose proof (live_offset p i Hcore Hi). lia.
    + destruct Hi as [Hi|]; [|done]. destruct Hj as [Hj|]; [|done].
      specialize (Hdis i j Hi Hj Hij). unfold slot_begin, slot_end in Hdis. lia.
  - split.
    + intros i Hi. unfold slot_begin, slot_end.
      pose proof (live_in_range _ _ Hi). simpl in *.
      rewrite !insert_at_slot by lia. apply insert_at_live in Hi.
      case_decide; subst; simpl; [lia|].
      destruct Hi as [Hi|]; [|done]. pose proof (live_offset p i Hcore Hi). lia.
    + intros a Ha. simpl in Ha.
      destruct (decide (a < free_space_end (header p))) as [Hlow|Hhigh].
      * exists k. split; [apply insert_at_live; by right|].
        unfold slot_begin, slot_end. rewrite insert_at_slot by lia.
        case_decide; [simpl; lia|done].
      * destruct (Hcov a ltac:(lia)) as (i & Hi & Hai).
        exists i. split; [apply insert_at_live; by left|].
        pose proof (live_in_range _ _ Hi). pose proof (insert_at_old_live i Hi).
        unfold slot_begin, slot_end in *. rewrite insert_at_slot by lia.
        case_decide; [done|lia].
  - intros i Hi. pose proof (live_in_range _ _ Hi). simpl in *.
    rewrite insert_at_slot by lia. apply insert_at_live in Hi.
    case_decide; subst; simpl; [lia|].
    destruct Hi as [Hi|]; [|done]. by apply Hne.
Qed.

(** The records that were there keep their bytes. *)
Lemma insert_at_record i :
  live p i -> record_at (insert_at k d p) i = record_at p i.
Proof.
  intros Hi. pose proof (live_in_range _ _ Hi). pose proof (insert_at_old_live i Hi).
  pose proof (live_offset p i Hcore Hi) as (Ho1 & Ho2 & Ho3).
  pose proof (core_bounds _ _ _ _ Hcore) as (Hb1 & Hb2 & Hb3).
  unfold record_at. rewrite insert_at_slot by lia. case_decide; [done|].
  unfold insert_at. simpl. apply take_drop_inserts_above.
  unfold record_bytes. rewrite length_take. lia.
Qed.

End InsertAt.

(** *** [_deleteRecord] of a live slot *)

Section DeleteAt.

Variables (k : Z) (p : HeapPage).
Hypothesis Hcore : page_core p.
Hypothesis Hlive : live p k.

Local Abbreviation offset := (SlotInfo.offset (slot_at p k)).
Local Abbreviation length := (SlotInfo.length (slot_at p k)).

(** Every other live record lies entirely below or entirely above the one
    that is deleted. *)
Lemma delete_at_sides i :
  live p i -> i <> k ->
  (SlotInfo.offset (slot_at p i) < offset /\
   SlotInfo.offset (slot_at p i) + SlotInfo.length (slot_at p i) <= offset /\
   shift_slot offset length (slot_at p i)
   = SlotInfo.mk (SlotInfo.offset (slot_at p i) + length) (SlotInfo.length (slot_at p i)))
  \/ (offset + length <= SlotInfo.offset (slot_at p i) /\
      shift_slot offset length (slot_at p i) = slot_at p i).
Proof.
  intros Hi Hik.
  pose proof (core_disjoint _ _ _ _ Hcore i k Hi Hlive Hik) as Hdis.
  pose proof (live_offset p i Hcore Hi). pose proof (live_offset p k Hcore Hlive).
  destruct Hi as [_ Hfi].
  unfold slot_begin, slot_end in Hdis.
  unfold shift_slot. fold is_free. rewrite Hfi. simpl.
  destruct (Z.ltb_spec (SlotInfo.offset (slot_at p i)) offset).
  - left. repeat split; [done|lia].
  - right. split; [lia|done].
Qed.

Lemma shift_slot_free s : is_free s = true -> shift_slot offset length s = s.
Proof.
  intros Hs. unfold shift_slot. fold is_free. by rewrite Hs.
Qed.

Lemma delete_at_slot i :
  0 <= i < capacity (header p) ->
  slot_at (delete_at k p) i
  = if decide (i = k) then SlotInfo.mk INVALID_SLOT_OFFSET 0
    else shift_slot offset length (slot_at p i).
Proof.
  intros Hi.
  pose proof (core_capacity p Hcore) as [Hc0 Hcdir].
  pose proof (live_in_range _ _ Hlive) as Hk.
  pose proof (live_offset p k Hcore Hlive) as Hko.
  pose proof (core_bounds _ _ _ _ Hcore) as (Hb1 & Hb2 & Hb3).
  assert (Hfreed : is_free (SlotInfo.mk INVALID_SLOT_OFFSET 0) = true).
  { by apply is_free_true_eq. }
  unfold delete_at. rewrite slot_at_eq.
  rewrite _deleteRecord_shift_lookup.
  - case_decide; [|lia].
    fold (shift_slot offset length
            (<[Z.to_nat k:=SlotInfo.mk INVALID_SLOT_OFFSET 0]> (slot_directory p) !!! Z.to_nat i)).
    case_decide as Heq.
    + subst i. rewrite list_lookup_total_insert_eq by lia. by apply shift_slot_free.
    + rewrite list_lookup_total_insert_ne by lia. done.
  - rewrite length_insert. lia.
  - intros j Hj.
    fold (shift_slot offset length
            (<[Z.to_nat k:=SlotInfo.mk INVALID_SLOT_OFFSET 0]> (slot_directory p) !!! j)).
    destruct (decide (j = Z.to_nat k)) as [->|Hjk].
    + rewrite list_lookup_total_insert_eq by lia.
      rewrite shift_slot_free by done. simpl. lia.
    + rewrite list_lookup_total_insert_ne by lia.
      replace j with (Z.to_nat (Z.of_nat j)) by lia.
      fold (slot_at p (Z.of_nat j)).
      destruct (is_free (slot_at p (Z.of_nat j))) eqn:Hfj.
      * rewrite shift_slot_free by done. apply is_free_true_eq in Hfj. lia.
      * assert (Hlj : live p (Z.of_nat j)) by (split; [lia|done]).
        pose proof (live_offset p _ Hcore Hlj).
        destruct (delete_at_sides (Z.of_nat j) Hlj ltac:(lia)) as [(? & ? & ->)|[? ->]];
          simpl; lia.
Qed.

Lemma delete_at_live i : live (delete_at k p) i <-> live p i /\ i <> k.
Proof.
  pose proof (live_offset p k Hcore Hlive) as Hko.
  unfold live at 1, live at 1. simpl. split.
  - intros [Hi Hl]. rewrite delete_at_slot in Hl by done.
    case_decide as Heq; [by apply is_free_false_ne in Hl|].
    split; [|done]. split; [done|].
    destruct (is_free (slot_at p i)) eqn:Hfi; [|done].
    rewrite shift_slot_free in Hl by done. congruence.
  - intros [Hi Hik]. pose proof (live_in_range _ _ Hi). split; [done|].
    rewrite delete_at_slot by done. case_decide; [done|].
    pose proof (live_offset p i Hcore Hi).
    destruct (delete_at_sides i Hi Hik) as [(? & ? & ->)|[? ->]].
    + apply is_free_false_ne. simpl. lia.
    + by destruct Hi.
Qed.

Lemma delete_at_core : page_core (delete_at k p).
Proof.
  pose proof (core_capacity p Hcore) as [Hc0 Hcdir].
  pose proof (live_in_range _ _ Hlive) as Hk.
  pose proof (live_offset p k Hcore Hlive) as Hko.
  pose proof Hcore as [Hbuf (Hb1 & Hb2 & Hb3) Hbeg [Hsz1 Hsz2] Hdis [Hin Hcov] Hne].
  assert (Hslots : forall i, live (delete_at k p) i ->
            live p i /\ i <> k /\ 0 <= i < capacity (header p) /\
            slot_at (delete_at k p) i = shift_slot offset length (slot_at p i)).
  { intros i Hi. apply delete_at_live in Hi as [Hi Hik].
    pose proof (live_in_range _ _ Hi).
    split; [done|]. split; [done|]. split; [done|].
    rewrite delete_at_slot by done. by case_decide. }
  split.
  - destruct Hbuf. split; simpl.
    + by rewrite length_inserts.
    + by rewrite _deleteRecord_shift_length, length_insert.
  - repeat split; simpl; lia.
  - done.
  - assert (Hcount : live_count (slot_directory (delete_at k p)) (Z.to_nat (capacity (header p)))
                     = size (header p) - 1).
    { transitivity (live_count (<[Z.to_nat k := SlotInfo.mk INVALID_SLOT_OFFSET 0]> (slot_directory p))
                      (Z.to_nat (capacity (header p)))).
      - apply live_count_ext. intros j Hj.
        replace j with (Z.to_nat (Z.of_nat j)) by lia.
        fold (slot_at (delete_at k p) (Z.of_nat j)).
        rewrite delete_at_slot by lia.
        destruct (decide (Z.of_nat j = k)) as [<-|Hjk].
        + by rewrite list_lookup_total_insert_eq by lia.
        + rewrite list_lookup_total_insert_ne by lia.
          fold (slot_at p (Z.of_nat j)).
          destruct (is_free (slot_at p (Z.of_nat j))) eqn:Hfj.
          * by rewrite shift_slot_free.
          * assert (Hlj : live p (Z.of_nat j)) by (split; [lia|done]).
            pose proof (live_offset p _ Hcore Hlj).
            destruct (delete_at_sides _ Hlj Hjk) as [(? & ? & ->)|[? ->]]; [|done].
            apply is_free_false_ne. simpl. lia.
      - rewrite live_count_insert_lt by lia. rewrite <- Hsz1.
        unfold live_bit. fold is_free. fold (slot_at p k).
        destruct Hlive as [_ ->].
        replace (is_free _) with true; [lia|].
        symmetry. by apply is_free_true_eq. }
    split; simpl; [by rewrite <- Hcount|lia].
  - intros i j Hi Hj Hij. unfold slot_begin, slot_end.
    apply Hslots in Hi as (Hi & Hik & _ & ->), Hj as (Hj & Hjk & _ & ->).
    specialize (Hdis i j Hi Hj Hij). unfold slot_begin, slot_end in Hdis.
    pose proof (live_offset p i Hcore Hi). pose proof (live_offset p j Hcore Hj).
    destruct (delete_at_sides i Hi Hik) as [(? & ? & ->)|[? ->]];
      destruct (delete_at_sides j Hj Hjk) as [(? & ? & ->)|[? ->]]; simpl; lia.
  - split.
    + intros i Hi. unfold slot_begin, slot_end.
      apply Hslots in Hi as (Hi & Hik & _ & ->).
      pose proof (live_offset p i Hcore Hi).
      simpl.
      destruct (delete_at_sides i Hi Hik) as [(? & ? & ->)|[? ->]]; simpl; lia.
    + intros a Ha. simpl in Ha. 
      destruct (decide (a < offset + length)) as [Hlow|Hhigh].
      * destruct (Hcov (a - length) ltac:(lia)) as (i & Hi & Hai).
        unfold slot_begin, slot_end in Hai.
        assert (Hik : i <> k) by (intros ->;  lia).
        pose proof (live_in_range _ _ Hi).
        exists i. split; [by apply delete_at_live|].
        unfold slot_begin, slot_end. rewrite delete_at_slot by done.
        case_decide; [done|].
        destruct (delete_at_sides i Hi Hik) as [(? & ? & ->)|[? ->]]; simpl; lia.
      * destruct (Hcov a ltac:(lia)) as (i & Hi & Hai).
        unfold slot_begin, slot_end in Hai.
        assert (Hik : i <> k) by (intros ->;  lia).
        pose proof (live_in_range _ _ Hi).
        exists i. split; [by apply delete_at_live|].
        unfold slot_begin, slot_end. rewrite delete_at_slot by done.
        case_decide; [done|].
        destruct (delete_at_sides i Hi Hik) as [(? & ? & ->)|[? ->]]; simpl; lia.
  - intros i Hi. apply Hslots in Hi as (Hi & Hik & _ & ->).
    specialize (Hne i Hi).
    destruct (delete_at_sides i Hi Hik) as [(? & ? & ->)|[? ->]]; simpl; lia.
Qed.

(** Compaction moves the records below the deleted one with their bytes
    and leaves the others where they are. *)
Lemma delete_at_record i :
  live p i -> i <> k ->
  SlotInfo.length (slot_at (delete_at k p) i) = SlotInfo.length (slot_at p i) /\
  record_at (delete_at k p) i = record_at p i.
Proof.
  intros Hi Hik. pose proof (live_in_range _ _ Hi).
  pose proof (live_offset p i Hcore Hi) as (Ho1 & Ho2 & Ho3).
  pose proof (live_offset p k Hcore Hlive) as (Hk1 & Hk2 & Hk3).
  pose proof (core_bounds _ _ _ _ Hcore) as (Hb1 & Hb2 & Hb3).
  destruct (core_buffer _ _ _ _ Hcore) as [Hdat _].
  unfold record_at. rewrite delete_at_slot by done. case_decide; [done|].
  destruct (delete_at_sides i Hi Hik) as [(Hlt & Hend & ->)|[Hge ->]];
    (split; [done|]); unfold delete_at; simpl.
  - replace (Z.to_nat (SlotInfo.offset (slot_at p i) + length))
      with (Z.to_nat (SlotInfo.offset (slot_at p i)) + Z.to_nat length)%nat by lia.
    replace (Z.to_nat (free_space_end (header p) + length))
      with (Z.to_nat (free_space_end (header p)) + Z.to_nat length)%nat by lia.
    apply take_drop_moved; lia.
  - apply take_drop_inserts_above. rewrite length_take, length_drop. lia.
Qed.

End DeleteAt.

(** *** Pages that agree on their live slots *)

Local Abbreviation same_records := (same_records INVALID_SLOT_OFFSET).

Lemma same_records_inv p q :
  same_records p q ->
  inv_disjoint p /\ inv_tiling p /\ inv_nonempty p ->
  inv_disjoint q /\ inv_tiling q /\ inv_nonempty q.
Proof.
  intros (Hfe & Hlive & Hslot) (Hdis & [Hin Hcov] & Hne).
  split; [|split; [split|]].
  - intros i j Hi Hj Hij. apply Hlive in Hi, Hj.
    unfold slot_begin, slot_end. rewrite !Hslot by done. by apply Hdis.
  - intros i Hi. apply Hlive in Hi.
    unfold slot_begin, slot_end. rewrite Hfe, !Hslot by done. by apply Hin.
  - intros a Ha. rewrite Hfe in Ha. destruct (Hcov a Ha) as (i & Hi & Hai).
    exists i. split; [by apply Hlive|].
    unfold slot_begin, slot_end in *. by rewrite !Hslot.
  - intros i Hi. apply Hlive in Hi. rewrite Hslot by done. by apply Hne.
Qed.

(** *** Growing the directory *)

Local Abbreviation clear_slot := (clear_slot INVALID_SLOT_OFFSET).

Lemma insert_at_clear_slot k d p :
  insert_at k d (clear_slot k p) = insert_at k d p.
Proof.
  unfold insert_at, clear_slot. simpl.
  by rewrite list_insert_insert_eq.
Qed.

Lemma grow_core p :
  page_core p ->
  sizeof_SlotInfo <= free_space_end (header p) - free_space_begin (header p) ->
  page_core (clear_slot (capacity (header p)) (grow p)) /\
  same_records p (clear_slot (capacity (header p)) (grow p)) /\
  is_free (slot_at (clear_slot (capacity (header p)) (grow p)) (capacity (header p))) = true.
Proof.
  intros Hcore Hroom.
  pose proof (core_capacity p Hcore) as [Hc0 _].
  pose proof Hcore as [Hbuf (Hb1 & Hb2 & Hb3) Hbeg [Hsz1 Hsz2] Hdis Htil Hne].
  set (c := capacity (header p)) in *.
  unfold sizeof_SlotInfo in *.
  assert (Hclen : (Z.to_nat c < Datatypes.length (slot_directory p))%nat).
  { destruct Hbuf as [_ Hdir]. unfold inv_begin, sizeof_SlotInfo in *. fold c in Hbeg.
    assert (c + 1 <= (PAGE_SIZE - sizeof_HeapPageHeader) / 8).
    { apply Z.div_le_lower_bound; lia. }
    lia. }
  assert (Hslot : forall i, 0 <= i ->
            slot_at (clear_slot c (grow p)) i
            = if decide (i = c) then SlotInfo.mk INVALID_SLOT_OFFSET 0 else slot_at p i).
  { intros i Hi. unfold clear_slot. apply slot_at_insert; [lia|done|done]. }
  assert (Hfreed : is_free (SlotInfo.mk INVALID_SLOT_OFFSET 0) = true).
  { by apply is_free_true_eq. }
  assert (Hsame : same_records p (clear_slot c (grow p))).
  { split; [done|]. split.
    - intros i. unfold live. simpl. fold c. split.
      + intros [Hi Hl]. rewrite Hslot in Hl by lia.
        case_decide; [congruence|]. split; [lia|done].
      + intros [Hi Hl]. split; [lia|]. rewrite Hslot by lia. case_decide; [lia|done].
    - intros i Hi. pose proof (live_in_range _ _ Hi). fold c in H.
      rewrite Hslot by lia. case_decide; [lia|done]. }
  split; [|split; [done|]].
  - destruct (same_records_inv _ _ Hsame (conj Hdis (conj Htil Hne))) as (? & ? & ?).
    split; try done.
    + destruct Hbuf. split; simpl; [done|by rewrite length_insert].
    + repeat split; simpl; unfold sizeof_SlotInfo; lia.
    + unfold inv_begin in *. simpl. unfold sizeof_SlotInfo in *. fold c in Hbeg. lia.
    + split; simpl; fold c; [|lia].
      replace (Z.to_nat (c + 1)) with (S (Z.to_nat c)) by lia.
      rewrite live_count_S, live_count_insert_ge by lia.
      rewrite list_lookup_total_insert_eq by done.
      unfold live_bit. fold is_free. rewrite Hfreed. lia.
  - rewrite Hslot by lia. case_decide; done.
Qed.

(** *** Cutting the directory back *)

Local Abbreviation shrunk_capacity := (shrunk_capacity INVALID_SLOT_OFFSET).
Local Abbreviation shrink := (shrink INVALID_SLOT_OFFSET).

Lemma shrunk_capacity_spec p :
  0 <= capacity (header p) ->
  0 <= shrunk_capacity p <= capacity (header p) /\
  (forall j, shrunk_capacity p <= j < capacity (header p) -> is_free (slot_at p j) = true) /\
  (0 < shrunk_capacity p -> is_free (slot_at p (shrunk_capacity p - 1)) = false).
Proof.
  intros Hc0. unfold shrunk_capacity.
  destruct (deleteRecord_shrink_spec INVALID_SLOT_OFFSET
              (Z.to_nat (capacity (header p))) (slot_directory p)) as (H1 & H2 & H3).
  split; [lia|]. split.
  - intros j Hj. unfold slot_at. apply H2. lia.
  - intros Hpos.
    destruct (deleteRecord_shrink INVALID_SLOT_OFFSET _ _) as [|c'] eqn:Hc'; [lia|].
    unfold slot_at. replace (Z.to_nat (Z.of_nat (S c') - 1)) with c' by lia.
    by apply H3.
Qed.

Lemma shrink_inv p :
  page_core p -> page_inv (shrink p) /\ same_records p (shrink p).
Proof.
  intros Hcore.
  pose proof (core_capacity p Hcore) as [Hc0 Hcdir].
  pose proof Hcore as [Hbuf (Hb1 & Hb2 & Hb3) Hbeg [Hsz1 Hsz2] Hdis Htil Hne].
  destruct (shrunk_capacity_spec p Hc0) as (Hc' & Htail & Hlast).
  assert (Hsame : same_records p (shrink p)).
  { split; [done|]. split; [|done].
    intros i. unfold live. simpl. fold (shrunk_capacity p).
    change (slot_at (shrink p) i) with (slot_at p i).
    split; [intros [? ?]; split; [lia|done]|].
    intros [Hi Hl]. split; [|done].
    destruct (decide (i < shrunk_capacity p)); [lia|].
    rewrite Htail in Hl by lia. done. }
  split; [|done]. split.
  - destruct (same_records_inv _ _ Hsame (conj Hdis (conj Htil Hne))) as (? & ? & ?).
    split; try done.
    + repeat split; simpl; fold (shrunk_capacity p); unfold sizeof_SlotInfo; try lia.
      unfold inv_begin, sizeof_SlotInfo in Hbeg. lia.
    + unfold inv_begin in *. simpl. fold (shrunk_capacity p).
      unfold sizeof_SlotInfo in *. lia.
    + assert (Hcount : live_count (slot_directory p) (Z.to_nat (shrunk_capacity p))
                       = live_count (slot_directory p) (Z.to_nat (capacity (header p)))).
      { clear -Hc' Htail.
        assert (Hgen : forall n, (Z.to_nat (shrunk_capacity p) <= n)%nat ->
                  (n <= Z.to_nat (capacity (header p)))%nat ->
                  live_count (slot_directory p) n
                  = live_count (slot_directory p) (Z.to_nat (shrunk_capacity p))).
        { induction n as [|n IH]; intros H1 H2.
          - by replace (Z.to_nat (shrunk_capacity p)) with O by lia.
          - destruct (decide (Z.to_nat (shrunk_capacity p) = S n)) as [->|Hne]; [done|].
            rewrite live_count_S, IH by lia.
            specialize (Htail (Z.of_nat n) ltac:(lia)).
            unfold slot_at in Htail. rewrite Nat2Z.id in Htail.
            unfold live_bit. fold is_free. rewrite Htail. lia. }
        symmetry. apply Hgen; lia. }
      pose proof (live_count_bounds INVALID_SLOT_OFFSET (slot_directory p)
                    (Z.to_nat (shrunk_capacity p))).
      split; simpl; fold (shrunk_capacity p); [by rewrite Hcount|lia].
  - intros Hpos. simpl in Hpos. fold (shrunk_capacity p) in Hpos.
    split; simpl; fold (shrunk_capacity p); [lia|].
    apply Hlast. lia.
Qed.

(** *** The public operations, call by call *)

Local Abbreviation first_free := (first_free INVALID_SLOT_OFFSET).
Local Abbreviation no_free := (no_free INVALID_SLOT_OFFSET).

Lemma initializeHeader_inv p0 :
  Page_buffer p0 -> page_inv (page_after (initializeHeader p0)).
Proof.
  intros Hbuf. unfold initializeHeader, bind, modify_header. simpl.
  assert (Hdead : forall i, ~ live (mkPage (mkHeader INVALID_PAGE_NUM INVALID_PAGE_NUM
                     sizeof_HeapPageHeader PAGE_SIZE 0 0) (slot_directory p0) (data p0)) i).
  { intros i [Hi _]. simpl in Hi. lia. }
  split; [split|].
  - done.
  - repeat split; simpl; lia.
  - unfold inv_begin. simpl. lia.
  - split; simpl; [done|lia].
  - intros i j Hi. by apply Hdead in Hi.
  - split; [intros i Hi; by apply Hdead in Hi|]. simpl. intros a Ha. lia.
  - intros i Hi. by apply Hdead in Hi.
  - intros Hpos. simpl in Hpos. lia.
Qed.

Lemma getFreeSpace_run p :
  page_core p -> getFreeSpace p = Return (free_space p) p.
Proof.
  intros [_ (Hb1 & Hb2 & Hb3) _ [_ Hsz] _ _ _].
  unfold getFreeSpace, bind, _getPageHeader, free_space, raw_free, ret.
  rewrite (wrap32_small (free_space_end (header p) - free_space_begin (header p))) by lia.
  destruct (Z.eqb_spec (size (header p)) (capacity (header p))),
           (Z.ltb_spec (size (header p)) (capacity (header p))); try lia; try done.
  unfold sizeof_SlotInfo in *.
  destruct (Z.leb_spec 8 (free_space_end (header p) - free_space_begin (header p))); [|done].
  rewrite wrap32_small by lia. done.
Qed.

Lemma free_space_le_raw p : free_space p <= raw_free p \/ free_space p = 0.
Proof.
  unfold free_space, sizeof_SlotInfo.
  destruct (_ <? _); [lia|]. destruct (_ <=? _); lia.
Qed.

Lemma first_free_size p k :
  page_core p -> first_free p k -> size (header p) < capacity (header p).
Proof.
  intros Hcore (Hk & Hf & _).
  destruct (core_size _ _ _ _ Hcore) as [Hsz1 Hsz2].
  destruct (decide (size (header p) = capacity (header p))) as [Heq|]; [|lia].
  pose proof (live_count_full INVALID_SLOT_OFFSET (slot_directory p)
                (Z.to_nat (capacity (header p))) ltac:(lia) (Z.to_nat k) ltac:(lia)) as Hl.
  fold (slot_at p k) in Hl. congruence.
Qed.

Lemma no_free_size p :
  page_core p -> no_free p -> size (header p) = capacity (header p).
Proof.
  intros Hcore Hall.
  pose proof (core_capacity p Hcore) as [Hc0 _].
  destruct (core_size _ _ _ _ Hcore) as [-> _].
  rewrite live_count_all_live; [lia|].
  intros i Hi. specialize (Hall (Z.of_nat i) ltac:(lia)).
  unfold slot_at in Hall. by rewrite Nat2Z.id in Hall.
Qed.

Lemma insertRecord_throw_empty d p :
  getSize d = 0 -> insertRecord d p = Throw EmptyDataHeapPage p.
Proof. intros Hd. unfold insertRecord. by rewrite Hd. Qed.

Lemma insertRecord_throw_space d p :
  page_core p -> getSize d <> 0 -> free_space p < getSize d ->
  insertRecord d p = Throw InsufficientSpaceHeapPage p.
Proof.
  intros Hcore Hd Hfs. unfold insertRecord.
  destruct (Z.eqb_spec (getSize d) 0); [done|].
  rewrite (bind_Return _ _ _ _ _ (getFreeSpace_run p Hcore)).
  destruct (Z.ltb_spec (free_space p) (getSize d)); [done|lia].
Qed.

Lemma insertRecord_accept d p :
  page_core p -> 1 <= getSize d <= free_space p ->
  insertRecord d p
  = (let* found := insertRecord_scan INVALID_SLOT_OFFSET
                     (Z.to_nat (capacity (header p))) 0 in
     let* free_slot_id :=
       (if found =? INVALID_SLOT_OFFSET then
          modify_header (fun h => set_capacity (wrap32 (capacity h + 1)) h) then*
          modify_header (fun h => set_free_space_begin
                                    (wrap32 (free_space_begin h + sizeof_SlotInfo)) h) then*
          ret (capacity (header p))
        else ret found) in
     _insertRecord free_slot_id d then*
     ret free_slot_id) p.
Proof.
  intros Hcore Hd. unfold insertRecord.
  destruct (Z.eqb_spec (getSize d) 0); [lia|].
  rewrite (bind_Return _ _ _ _ _ (getFreeSpace_run p Hcore)).
  destruct (Z.ltb_spec (free_space p) (getSize d)); [lia|].
  reflexivity.
Qed.

(** A record that fits goes to the first free entry, or to a new last
    entry when the directory has none. *)
Lemma insertRecord_run d p :
  page_core p -> 1 <= getSize d <= free_space p ->
  (exists k, first_free p k /\
             insertRecord d p = Return k (insert_at k d p) /\
             page_core (insert_at k d p) /\
             forall i, live (insert_at k d p) i <-> live p i \/ i = k)
  \/ (no_free p /\
      insertRecord d p = Return (capacity (header p))
                           (insert_at (capacity (header p)) d (grow p)) /\
      page_core (insert_at (capacity (header p)) d (grow p)) /\
      forall i, live (insert_at (capacity (header p)) d (grow p)) i
                <-> live p i \/ i = capacity (header p)).
Proof.
  intros Hcore Hd.
  pose proof (core_capacity p Hcore) as [Hc0 Hcdir].
  pose proof Hcore as [Hbuf (Hb1 & Hb2 & Hb3) Hbeg [Hsz1 Hsz2] _ _ _].
  assert (Hcap : capacity (header p) <= PAGE_SIZE).
  { unfold inv_begin, sizeof_SlotInfo in Hbeg. lia. }
  pose proof (live_count_bounds INVALID_SLOT_OFFSET (slot_directory p)
                (Z.to_nat (capacity (header p)))) as Hcnt.
  rewrite (insertRecord_accept d p Hcore Hd).
  destruct (insertRecord_scan_spec INVALID_SLOT_OFFSET
              (Z.to_nat (capacity (header p))) 0 p ltac:(lia) ltac:(lia))
    as (r & Hscan & [[-> Hall]|(Hr & Hfr & Hbefore)]).
  - right.
    assert (Hnone : no_free p) by (intros j Hj; apply Hall; lia).
    pose proof (no_free_size p Hcore Hnone) as Hfull.
    assert (Hroom : sizeof_SlotInfo + getSize d
                    <= free_space_end (header p) - free_space_begin (header p)).
    { revert Hd. unfold free_space, raw_free, sizeof_SlotInfo.
      destruct (Z.ltb_spec (size (header p)) (capacity (header p))); [lia|].
      destruct (Z.leb_spec 8 (free_space_end (header p) - free_space_begin (header p))); lia. }
    unfold sizeof_SlotInfo in Hroom.
    destruct (grow_core p Hcore ltac:(unfold sizeof_SlotInfo; lia)) as (Hgcore & Hgsame & Hgfree).
    split; [done|].
    rewrite (bind_Return _ _ _ _ _ Hscan). rewrite Z.eqb_refl.
    unfold inv_begin, sizeof_SlotInfo in Hbeg.
    unfold bind, modify_header at 1 2, ret at 1. simpl.
    rewrite !wrap32_small by (unfold sizeof_SlotInfo; lia).
    fold (grow p).
    rewrite _insertRecord_run by (simpl; lia). unfold ret.
    split; [done|].
    rewrite <- insert_at_clear_slot.
    split.
    + apply insert_at_core; try done; simpl; unfold sizeof_SlotInfo; lia.
    + intros i. rewrite insert_at_live; try done; simpl; try lia.
      destruct Hgsame as (_ & Hl & _). by rewrite Hl.
  - left. exists r.
    assert (Hfirst : first_free p r).
    { split; [lia|]. split; [done|]. intros j Hj. apply Hbefore. lia. }
    pose proof (first_free_size p r Hcore Hfirst) as Hlt.
    assert (Hroom : getSize d <= free_space_end (header p) - free_space_begin (header p)).
    { revert Hd. unfold free_space, raw_free.
      destruct (Z.ltb_spec (size (header p)) (capacity (header p))); lia. }
    split; [done|].
    rewrite (bind_Return _ _ _ _ _ Hscan).
    destruct (Z.eqb_spec r INVALID_SLOT_OFFSET); [lia|].
    unfold bind at 1. unfold ret at 1. unfold bind at 1.
    rewrite _insertRecord_run by lia. unfold ret.
    split; [done|]. split.
    + apply insert_at_core; try done; lia.
    + intros i. apply insert_at_live; try done; lia.
Qed.

Lemma not_live_cases p k :
  0 <= k -> ~ live p k ->
  capacity (header p) <= k \/ (k < capacity (header p) /\ is_free (slot_at p k) = true).
Proof.
  intros Hk Hn. destruct (decide (capacity (header p) <= k)); [by left|right].
  split; [lia|]. destruct (is_free (slot_at p k)) eqn:Hf; [done|].
  destruct Hn. split; [lia|done].
Qed.

Lemma live_size_pos p k : page_core p -> live p k -> 1 <= size (header p).
Proof.
  intros Hcore [Hk Hl]. destruct (core_size _ _ _ _ Hcore) as [-> _].
  pose proof (live_count_ge_bit INVALID_SLOT_OFFSET (slot_directory p)
                (Z.to_nat (capacity (header p))) (Z.to_nat k) ltac:(lia)) as Hb.
  unfold live_bit in Hb. fold is_free in Hb. fold (slot_at p k) in Hb.
  rewrite Hl in Hb. done.
Qed.

Lemma _deleteRecord_ok k p :
  page_core p -> live p k -> _deleteRecord k p = Return tt (delete_at k p).
Proof.
  intros Hcore Hlive.
  pose proof (live_offset p k Hcore Hlive) as (Ho1 & Ho2 & Ho3).
  pose proof (live_size_pos p k Hcore Hlive).
  pose proof (core_bounds _ _ _ _ Hcore) as (Hb1 & Hb2 & Hb3).
  destruct (core_size _ _ _ _ Hcore) as [_ Hsz].
  pose proof (core_begin _ _ _ _ Hcore) as Hbeg.
  unfold inv_begin, sizeof_SlotInfo in Hbeg.
  destruct Hlive as [Hk Hl].
  apply _deleteRecord_run; try done; lia.
Qed.

Lemma shrink_id q : shrunk_capacity q = capacity (header q) -> shrink q = q.
Proof.
  intros Heq. unfold shrink. fold (shrunk_capacity q). rewrite Heq.
  destruct q as [[prev next fb fe sz c] dir dat]. simpl.
  unfold set_free_space_begin, set_capacity. simpl. do 2 f_equal. lia.
Qed.

Lemma deleteRecord_throw k p :
  0 <= k -> ~ live p k -> deleteRecord k p = Throw (InvalidSlotIdHeapPage k) p.
Proof.
  intros Hk Hn. unfold deleteRecord.
  unfold bind at 1, _getPageHeader at 1.
  destruct (not_live_cases p k Hk Hn) as [Hout|[Hin Hfree]].
  - by rewrite (bind_Throw _ _ _ _ _ (_getSlotInfo_throw k p Hout)).
  - rewrite (bind_Return _ _ _ _ _ (_getSlotInfo_run k p Hin)).
    unfold is_free in Hfree. by rewrite Hfree.
Qed.

Lemma deleteRecord_run k p :
  page_core p -> live p k ->
  deleteRecord k p = Return tt (shrink (delete_at k p)).
Proof.
  intros Hcore Hlive.
  pose proof (delete_at_core k p Hcore Hlive) as Hdcore.
  pose proof (core_capacity _ Hdcore) as [Hc0 _].
  destruct (shrunk_capacity_spec (delete_at k p) Hc0) as (Hc' & _ & _).
  pose proof (core_bounds _ _ _ _ Hdcore) as (Hb1 & Hb2 & Hb3).
  pose proof (core_begin _ _ _ _ Hdcore) as Hbeg.
  unfold inv_begin, sizeof_SlotInfo in Hbeg.
  unfold deleteRecord.
  unfold bind at 1, _getPageHeader at 1.
  destruct Hlive as [Hk Hl].
  rewrite (bind_Return _ _ _ _ _ (_getSlotInfo_run k p ltac:(lia))).
  unfold is_free in Hl. rewrite Hl.
  destruct (Z.leb_spec (capacity (header p)) k); [lia|]. simpl.
  rewrite (bind_Return _ _ _ _ _ (_deleteRecord_ok k p Hcore ltac:(split; [lia|done]))).
  unfold bind at 1, _getPageHeader at 1. unfold bind at 1.
  fold (shrunk_capacity (delete_at k p)).
  destruct (Z.ltb_spec (shrunk_capacity (delete_at k p)) (capacity (header (delete_at k p)))).
  - unfold bind, modify_header. simpl.
    rewrite (wrap32_small ((capacity (header p) - _) * sizeof_SlotInfo))
      by (simpl in *; unfold sizeof_SlotInfo; lia).
    rewrite wrap32_small by (simpl in *; unfold sizeof_SlotInfo; lia).
    done.
  - unfold ret. rewrite shrink_id by lia. done.
Qed.

Lemma deleteRecord_inv k p :
  page_core p -> live p k -> page_inv (shrink (delete_at k p)).
Proof.
  intros Hcore Hlive. apply shrink_inv. by apply delete_at_core.
Qed.

(** [updateRecord]: the three refusals, and the accepted update. *)
Lemma updateRecord_throw_slot k d p :
  0 <= k -> ~ live p k -> updateRecord k d p = Throw (InvalidSlotIdHeapPage k) p.
Proof.
  intros Hk Hn. unfold updateRecord.
  unfold bind at 1, _getPageHeader at 1.
  destruct (not_live_cases p k Hk Hn) as [Hout|[Hin Hfree]].
  - by rewrite (bind_Throw _ _ _ _ _ (_getSlotInfo_throw k p Hout)).
  - rewrite (bind_Return _ _ _ _ _ (_getSlotInfo_run k p Hin)).
    unfold is_free in Hfree. by rewrite Hfree.
Qed.

Lemma updateRecord_live k d p :
  page_core p -> live p k -> 0 <= getSize d ->
  updateRecord k d p
  = if getSize d =? 0 then Throw EmptyDataHeapPage p
    else if free_space p + SlotInfo.length (slot_at p k) <? getSize d
         then Throw InsufficientSpaceHeapPage p
         else Return tt (insert_at k d (delete_at k p)).
Proof.
  intros Hcore Hlive Hd0.
  pose proof (live_offset p k Hcore Hlive) as (Ho1 & Ho2 & Ho3).
  pose proof (core_bounds _ _ _ _ Hcore) as (Hb1 & Hb2 & Hb3).
  pose proof (live_size_pos p k Hcore Hlive) as Hpos.
  destruct (core_size _ _ _ _ Hcore) as [_ Hsz].
  pose proof (core_begin _ _ _ _ Hcore) as Hbeg.
  unfold inv_begin, sizeof_SlotInfo in Hbeg.
  assert (Hfs : 0 <= free_space p <= raw_free p).
  { unfold free_space, raw_free, sizeof_SlotInfo.
    destruct (_ <? _); [lia|]. destruct (Z.leb_spec 8 (free_space_end (header p) - free_space_begin (header p))); lia. }
  unfold raw_free in Hfs.
  unfold updateRecord.
  unfold bind at 1, _getPageHeader at 1.
  pose proof Hlive as [Hk Hl].
  rewrite (bind_Return _ _ _ _ _ (_getSlotInfo_run k p ltac:(lia))).
  unfold is_free in Hl. rewrite Hl.
  destruct (Z.leb_spec (capacity (header p)) k); [lia|]. simpl.
  destruct (Z.eqb_spec (getSize d) 0); [done|].
  rewrite (bind_Return _ _ _ _ _ (getFreeSpace_run p Hcore)).
  rewrite wrap32_small by lia.
  destruct (Z.ltb_spec (free_space p + SlotInfo.length (slot_at p k)) (getSize d)); [done|].
  rewrite (bind_Return _ _ _ _ _ (_deleteRecord_ok k p Hcore Hlive)).
  apply _insertRecord_run; simpl; lia.
Qed.

Lemma updateRecord_inv k d p :
  page_inv p -> live p k -> 1 <= getSize d ->
  getSize d <= free_space p + SlotInfo.length (slot_at p k) ->
  page_inv (insert_at k d (delete_at k p)) /\
  forall i, live (insert_at k d (delete_at k p)) i <-> live p i.
Proof.
  intros [Hcore Hlast] Hlive Hd Hfits.
  pose proof (delete_at_core k p Hcore Hlive) as Hdcore.
  pose proof (live_in_range _ _ Hlive) as Hk.
  assert (Hfs : free_space p <= raw_free p).
  { pose proof (core_bounds _ _ _ _ Hcore) as (Hb1 & Hb2 & Hb3).
    destruct (free_space_le_raw p); unfold raw_free in *; lia. }
  unfold raw_free in Hfs.
  assert (Hfreed : is_free (slot_at (delete_at k p) k) = true).
  { rewrite delete_at_slot by done. case_decide; [|done]. by apply is_free_true_eq. }
  assert (Hl : forall i, live (insert_at k d (delete_at k p)) i <-> live p i).
  { intros i. rewrite insert_at_live; try done; simpl; try lia.
    rewrite delete_at_live by done.
    destruct (decide (i = k)) as [->|]; [tauto|tauto]. }
  split; [|done]. split.
  - apply insert_at_core; try done; simpl; lia.
  - intros Hpos. simpl in Hpos. apply Hl. by apply Hlast.
Qed.

Lemma getRecord_page k buf p : page_after (getRecord k buf p) = p.
Proof.
  unfold getRecord, bind, _getPageHeader, throw.
  destruct (_ <=? _); [done|].
  unfold _getSlotInfo, bind, _getPageHeader, throw.
  destruct (_ <=? _); [done|]. destruct (_ =? _); [done|]. destruct (_ <? _); done.
Qed.

Lemma getRecord_run k buf p :
  live p k -> SlotInfo.length (slot_at p k) <= getCapacity buf ->
  getRecord k buf p
  = Return (mkData (list_inserts 0
                      (take (Z.to_nat (SlotInfo.length (slot_at p k)))
                         (drop (Z.to_nat (SlotInfo.offset (slot_at p k))) (data p)))
                      (getData buf))
                   (SlotInfo.length (slot_at p k))) p.
Proof.
  intros [Hk Hl] Hcap. unfold getRecord.
  unfold bind at 1, _getPageHeader at 1.
  destruct (Z.leb_spec (capacity (header p)) k); [lia|].
  rewrite (bind_Return _ _ _ _ _ (_getSlotInfo_run k p ltac:(lia))).
  unfold is_free in Hl. rewrite Hl.
  destruct (Z.ltb_spec (getCapacity buf) (SlotInfo.length (slot_at p k))); [lia|done].
Qed.

Lemma getRecord_live k buf p :
  live p k ->
  getRecord k buf p
  = if getCapacity buf <? SlotInfo.length (slot_at p k) then Throw InvalidSizeData p
    else Return (mkData (list_inserts 0 (record_at p k) (getData buf))
                        (SlotInfo.length (slot_at p k))) p.
Proof.
  intros [Hk Hl]. unfold getRecord.
  unfold bind at 1, _getPageHeader at 1.
  destruct (Z.leb_spec (capacity (header p)) k); [lia|].
  rewrite (bind_Return _ _ _ _ _ (_getSlotInfo_run k p ltac:(lia))).
  unfold is_free in Hl. rewrite Hl.
  by destruct (getCapacity buf <? SlotInfo.length (slot_at p k)).
Qed.

Lemma getRecord_throw_slot k buf p :
  0 <= k -> ~ live p k -> getRecord k buf p = Throw (InvalidSlotIdHeapPage k) p.
Proof.
  intros Hk Hn. unfold getRecord.
  unfold bind at 1, _getPageHeader at 1.
  destruct (not_live_cases p k Hk Hn) as [Hout|[Hin Hfree]].
  - destruct (Z.leb_spec (capacity (header p)) k); [done|lia].
  - destruct (Z.leb_spec (capacity (header p)) k); [done|].
    rewrite (bind_Return _ _ _ _ _ (_getSlotInfo_run k p Hin)).
    unfold is_free in Hfree. by rewrite Hfree.
Qed.

(** Two pages that hold the same record in slot [i] answer [getRecord]
    alike. *)
Lemma getRecord_stable p p' i :
  live p i -> live p' i ->
  SlotInfo.length (slot_at p' i) = SlotInfo.length (slot_at p i) ->
  record_at p' i = record_at p i ->
  forall buf, getRecord i buf p' = on_page (getRecord i buf p) p'.
Proof.
  intros Hi Hi' Hlen Hrec buf. rewrite !getRecord_live by done.
  rewrite Hlen, Hrec. by destruct (_ <? _).
Qed.

Lemma set_links_inv f p :
  (forall h, free_space_begin (f h) = free_space_begin h /\
             free_space_end (f h) = free_space_end h /\
             size (f h) = size h /\ capacity (f h) = capacity h) ->
  page_inv p -> page_inv (page_after (modify_header f p)).
Proof.
  intros Hf [Hcore Hlast]. simpl.
  destruct (Hf (header p)) as (Hfb & Hfe & Hsz & Hc).
  pose proof Hcore as [Hbuf (Hb1 & Hb2 & Hb3) Hbeg [Hsz1 Hsz2] Hdis Htil Hne].
  set (q := mkPage (f (header p)) (slot_directory p) (data p)).
  assert (Hsame : same_records p q).
  { split; [done|]. split; [|done].
    intros i. unfold live. simpl. by rewrite Hc. }
  destruct (same_records_inv _ _ Hsame (conj Hdis (conj Htil Hne))) as (? & ? & ?).
  split; [split; try done|].
  - repeat split; simpl; lia.
  - unfold inv_begin in *. simpl. lia.
  - split; simpl; [by rewrite Hsz, Hc|lia].
  - destruct Hsame as (_ & Hl & _).
    unfold inv_last. simpl. rewrite Hc. intros Hpos.
    apply Hl. by apply Hlast.
Qed.

(** *** Every call keeps the invariants *)

Lemma live_dec p k : {live p k} + {~ live p k}.
Proof.
  unfold live.
  destruct (decide (0 <= k < capacity (header p))) as [Hk|Hk];
    [|right; tauto].
  destruct (is_free (slot_at p k)); [right|left]; [intros [_ ?]; done|done].
Qed.

Lemma insertRecord_inv d p :
  page_inv p -> 0 <= getSize d -> page_inv (page_after (insertRecord d p)).
Proof.
  intros [Hcore Hlast] Hd.
  destruct (decide (getSize d = 0)) as [Hz|Hnz].
  { by rewrite insertRecord_throw_empty. }
  destruct (decide (free_space p < getSize d)) as [Hbig|Hfit].
  { by rewrite insertRecord_throw_space. }
  destruct (insertRecord_run d p Hcore ltac:(lia))
    as [(k & Hfirst & -> & Hc & Hl)|(Hnone & -> & Hc & Hl)]; simpl.
  - split; [done|]. intros Hpos. simpl in Hpos. apply Hl. left. by apply Hlast.
  - split; [done|]. intros _. simpl. apply Hl. right. lia.
Qed.

Lemma call_inv c p : page_inv p -> Call_ok c -> page_inv (call c p).
Proof.
  intros Hinv Hok. destruct c as [d|k buf|k d|k|n|n]; simpl in *.
  - apply insertRecord_inv; [done|]. unfold Data_ok in Hok. lia.
  - by rewrite getRecord_page.
  - destruct Hok as [Hk [Hd0 Hd1]]. destruct (live_dec p k) as [Hl|Hn].
    + rewrite updateRecord_live by (try apply Hinv; done).
      destruct (Z.eqb_spec (getSize d) 0); [done|].
      destruct (Z.ltb_spec (free_space p + SlotInfo.length (slot_at p k)) (getSize d)); [done|].
      simpl. apply updateRecord_inv; try done; lia.
    + by rewrite updateRecord_throw_slot.
  - destruct (live_dec p k) as [Hl|Hn].
    + rewrite deleteRecord_run by (try apply Hinv; done).
      simpl. apply deleteRecord_inv; [apply Hinv|done].
    + by rewrite deleteRecord_throw.
  - by apply set_links_inv.
  - by apply set_links_inv.
Qed.

Lemma reachable_inv p : reachable p -> page_inv p.
Proof.
  induction 1 as [p0 Hbuf|p c _ IH Hok].
  - by apply initializeHeader_inv.
  - by apply call_inv.
Qed.

Local Abbreviation data_model_invariants :=
  (data_model_invariants PAGE_SIZE sizeof_HeapPageHeader INVALID_SLOT_OFFSET).

Lemma page_inv_data_model p : page_inv p -> data_model_invariants p.
Proof.
  intros [[Hbuf Hb Hbeg Hsz Hdis Htil Hne] Hlast].
  repeat (split; [done|]). intros i Hi. specialize (Hne i Hi). lia.
Qed.

Lemma record_bytes_length d :
  Data_ok d -> Datatypes.length (record_bytes d) = Z.to_nat (getSize d).
Proof.
  intros [Hd0 Hd1]. unfold record_bytes, getCapacity in *.
  rewrite length_take. lia.
Qed.

Lemma insert_at_bytes k d q :
  Data_ok d ->
  0 <= free_space_end (header q) - getSize d ->
  free_space_end (header q) <= Z.of_nat (Datatypes.length (data q)) ->
  take (Z.to_nat (getSize d))
       (drop (Z.to_nat (free_space_end (header q) - getSize d)) (data (insert_at k d q)))
  = record_bytes d.
Proof.
  intros Hd Hlo Hhi. pose proof (record_bytes_length d Hd) as Hlen.
  destruct Hd as [Hd0 _]. unfold insert_at. simpl.
  rewrite <- Hlen. apply take_drop_inserts. lia.
Qed.

(** ** The claims about the page *)

(** C1. Every page reachable from [initializeHeader] through calls of the
    public operations satisfies the six invariants of the data model, before
    a call and after it: the bounds of the free space, the directory end at
    [free_space_begin], [size] as the count of live slots and at most
    [capacity], live records pairwise disjoint and tiling
    [[free_space_end, PAGE_SIZE)], a live last directory entry, and no live
    record of length 0. *)
Theorem invariants_hold p c :
  reachable p -> Call_ok c ->
  data_model_invariants p /\ data_model_invariants (call c p).
Proof.
  intros Hreach Hok. pose proof (reachable_inv p Hreach) as Hinv.
  split; apply page_inv_data_model; [done|by apply call_inv].
Qed.

(** C3. [getFreeSpace] returns [free_space_end - free_space_begin] when
    [size < capacity]; when [size = capacity] it returns that difference
    less [sizeof(SlotInfo)] if the difference is at least
    [sizeof(SlotInfo)], and 0 otherwise. *)
Theorem getFreeSpace_value p :
  reachable p ->
  let raw := free_space_end (header p) - free_space_begin (header p) in
  (size (header p) < capacity (header p) -> getFreeSpace p = Return raw p) /\
  (size (header p) = capacity (header p) -> sizeof_SlotInfo <= raw ->
     getFreeSpace p = Return (raw - sizeof_SlotInfo) p) /\
  (size (header p) = capacity (header p) -> raw < sizeof_SlotInfo ->
     getFreeSpace p = Return 0 p).
Proof.
  intros Hreach raw. destruct (reachable_inv p Hreach) as [Hcore _].
  rewrite (getFreeSpace_run p Hcore).
  unfold free_space, raw_free. fold raw.
  repeat split; intros.
  - destruct (Z.ltb_spec (size (header p)) (capacity (header p))); [done|lia].
  - destruct (Z.ltb_spec (size (header p)) (capacity (header p))); [lia|].
    destruct (Z.leb_spec sizeof_SlotInfo raw); [done|lia].
  - destruct (Z.ltb_spec (size (header p)) (capacity (header p))); [lia|].
    destruct (Z.leb_spec sizeof_SlotInfo raw); [lia|done].
Qed.

(** C2. [insertRecord] returns a slot id exactly when the record has at
    least one byte and [getFreeSpace] is at least its length; a record of
    length 0 is refused with [EmptyDataHeapPage], one longer than the free
    space with [InsufficientSpaceHeapPage], and a refusal leaves the page as
    it was. *)
Theorem insertRecord_accepts_iff p d :
  reachable p -> 0 <= getSize d ->
  exists free,
    getFreeSpace p = Return free p /\
    ((exists slot_id p', insertRecord d p = Return slot_id p')
       <-> 1 <= getSize d /\ getSize d <= free) /\
    (getSize d = 0 -> insertRecord d p = Throw EmptyDataHeapPage p) /\
    (1 <= getSize d -> free < getSize d ->
       insertRecord d p = Throw InsufficientSpaceHeapPage p).
Proof.
  intros Hreach Hd0. destruct (reachable_inv p Hreach) as [Hcore _].
  exists (free_space p). split; [by apply getFreeSpace_run|].
  split; [|split].
  - split.
    + intros (slot_id & p' & Hrun).
      destruct (decide (getSize d = 0)) as [Hz|Hnz].
      { rewrite insertRecord_throw_empty in Hrun by done. done. }
      destruct (decide (free_space p < getSize d)) as [Hbig|Hfit].
      { rewrite insertRecord_throw_space in Hrun by done. done. }
      lia.
    + intros Hfit.
      destruct (insertRecord_run d p Hcore Hfit)
        as [(k & _ & -> & _)|(_ & -> & _)]; eauto.
  - by apply insertRecord_throw_empty.
  - intros. apply insertRecord_throw_space; [done|lia|done].
Qed.

(** C4. An accepted [insertRecord] returns the smallest index of a free
    directory entry; without one it returns the old [capacity], adds 1 to
    [capacity] and [sizeof(SlotInfo)] to [free_space_begin].  Either way
    [free_space_end] goes down by the length [L] of the record, the [L] bytes
    of the record stand at the new [free_space_end], the chosen slot holds
    that offset and [L], and [size] goes up by 1. *)
Theorem insertRecord_effect p d free :
  reachable p -> Data_ok d ->
  getFreeSpace p = Return free p -> 1 <= getSize d <= free ->
  exists slot_id p',
    insertRecord d p = Return slot_id p' /\
    ((first_free p slot_id /\
      capacity (header p') = capacity (header p) /\
      free_space_begin (header p') = free_space_begin (header p))
     \/ (no_free p /\ slot_id = capacity (header p) /\
         capacity (header p') = capacity (header p) + 1 /\
         free_space_begin (header p') = free_space_begin (header p) + sizeof_SlotInfo)) /\
    free_space_end (header p') = free_space_end (header p) - getSize d /\
    take (Z.to_nat (getSize d)) (drop (Z.to_nat (free_space_end (header p'))) (data p'))
      = record_bytes d /\
    slot_at p' slot_id = SlotInfo.mk (free_space_end (header p')) (getSize d) /\
    size (header p') = size (header p) + 1.
Proof.
  intros Hreach Hd Hfree Hfit. destruct (reachable_inv p Hreach) as [Hcore _].
  rewrite (getFreeSpace_run p Hcore) in Hfree. injection Hfree as <-.
  pose proof (core_capacity p Hcore) as [Hc0 Hcdir].
  pose proof (core_bounds _ _ _ _ Hcore) as (Hb1 & Hb2 & Hb3).
  destruct (core_buffer _ _ _ _ Hcore) as [Hdat Hdir].
  destruct (insertRecord_run d p Hcore Hfit)
    as [(k & Hfirst & Hrun & Hc & Hl)|(Hnone & Hrun & Hc & Hl)].
  - exists k, (insert_at k d p). split; [done|].
    pose proof (first_free_size p k Hcore Hfirst) as Hlt.
    assert (Hroom : getSize d <= free_space_end (header p) - free_space_begin (header p)).
    { revert Hfit. unfold free_space, raw_free.
      destruct (Z.ltb_spec (size (header p)) (capacity (header p))); lia. }
    split; [left; done|]. split; [done|]. split.
    { apply insert_at_bytes; [done|lia|lia]. }
    split; [|done].
    destruct Hfirst as (Hk & Hf & _).
    rewrite insert_at_slot by (try done; lia). by case_decide.
  - exists (capacity (header p)), (insert_at (capacity (header p)) d (grow p)).
    split; [done|].
    pose proof (no_free_size p Hcore Hnone) as Hfull.
    assert (Hroom : sizeof_SlotInfo + getSize d
                    <= free_space_end (header p) - free_space_begin (header p)).
    { revert Hfit. unfold free_space, raw_free, sizeof_SlotInfo.
      destruct (Z.ltb_spec (size (header p)) (capacity (header p))); [lia|].
      destruct (Z.leb_spec 8 (free_space_end (header p) - free_space_begin (header p))); lia. }
    split; [right; done|]. split; [done|]. split.
    { apply insert_at_bytes; [done|simpl; unfold sizeof_SlotInfo in *; lia|simpl; lia]. }
    split; [|done].
    destruct (grow_core p Hcore ltac:(lia)) as (Hgcore & _ & Hgfree).
    rewrite <- insert_at_clear_slot.
    rewrite insert_at_slot; try done; simpl; try lia.
    by case_decide.
Qed.

Lemma delete_at_bytes k p a :
  page_core p -> live p k ->
  free_space_end (header p) <= a < SlotInfo.offset (slot_at p k) ->
  data (delete_at k p) !! Z.to_nat (a + SlotInfo.length (slot_at p k))
  = data p !! Z.to_nat a.
Proof.
  intros Hcore Hlive Ha.
  pose proof (live_offset p k Hcore Hlive) as (Ho1 & Ho2 & Ho3).
  pose proof (core_bounds _ _ _ _ Hcore) as (Hb1 & Hb2 & Hb3).
  destruct (core_buffer _ _ _ _ Hcore) as [Hdat _].
  unfold delete_at. simpl.
  rewrite list_lookup_inserts.
  - rewrite lookup_take_lt by lia. rewrite lookup_drop. f_equal. lia.
  - rewrite length_take, length_drop. lia.
  - lia.
Qed.

(** C5. [deleteRecord] of a live slot holding [(off, len)] returns, with
    the slot marked free, [size] one less, [free_space_end] raised by [len],
    the bytes of [[free_space_end, off)] moved up by [len], [len] added to the
    offset of each live slot below [off] and the slots above [off] as they
    were, and the directory cut back over its trailing free entries:
    [free_space_begin] is lowered by [sizeof(SlotInfo)] for each entry cut,
    and the new [capacity] is 0 or has a live slot just below it.  For a slot
    id out of range or already free it throws [InvalidSlotIdHeapPage]. *)
Theorem deleteRecord_effect p s :
  reachable p -> 0 <= s ->
  (live p s ->
   let off := SlotInfo.offset (slot_at p s) in
   let len := SlotInfo.length (slot_at p s) in
   exists p',
     deleteRecord s p = Return tt p' /\
     slot_at p' s = SlotInfo.mk INVALID_SLOT_OFFSET 0 /\
     size (header p') = size (header p) - 1 /\
     free_space_end (header p') = free_space_end (header p) + len /\
     (forall a, free_space_end (header p) <= a < off ->
        data p' !! Z.to_nat (a + len) = data p !! Z.to_nat a) /\
     (forall i, live p i -> i <> s ->
        (SlotInfo.offset (slot_at p i) < off ->
           slot_at p' i = SlotInfo.mk (SlotInfo.offset (slot_at p i) + len)
                                      (SlotInfo.length (slot_at p i))) /\
        (off < SlotInfo.offset (slot_at p i) -> slot_at p' i = slot_at p i)) /\
     capacity (header p') <= capacity (header p) /\
     free_space_begin (header p')
       = free_space_begin (header p)
         - (capacity (header p) - capacity (header p')) * sizeof_SlotInfo /\
     (forall j, capacity (header p') <= j < capacity (header p) ->
        is_free (slot_at p' j) = true) /\
     (capacity (header p') = 0 \/ live p' (capacity (header p') - 1))) /\
  (capacity (header p) <= s \/ is_free (slot_at p s) = true ->
   deleteRecord s p = Throw (InvalidSlotIdHeapPage s) p).
Proof.
  intros Hreach Hs. destruct (reachable_inv p Hreach) as [Hcore _]. split.
  - intros Hlive off len.
    pose proof (delete_at_core s p Hcore Hlive) as Hdcore.
    pose proof (core_capacity _ Hdcore) as [Hc0 _].
    destruct (shrunk_capacity_spec (delete_at s p) Hc0) as (Hc' & Htail & _).
    destruct (shrink_inv _ Hdcore) as [[_ Hlast] _].
    pose proof (live_in_range _ _ Hlive) as Hrange.
    exists (shrink (delete_at s p)).
    split; [by apply deleteRecord_run|].
    change (slot_at (shrink (delete_at s p))) with (slot_at (delete_at s p)).
    split; [rewrite delete_at_slot by done; by case_decide|].
    split; [done|]. split; [done|]. split.
    { intros a Ha. by apply delete_at_bytes. }
    split.
    { intros i Hi His. pose proof (live_in_range _ _ Hi).
      pose proof (live_offset p s Hcore Hlive).
      rewrite delete_at_slot by done. case_decide; [done|].
      destruct (delete_at_sides s p Hcore Hlive i Hi His) as [(? & ? & ->)|[? ->]];
        unfold off, len in *; split; intros; try done; lia. }
    split; [simpl in *; fold (shrunk_capacity (delete_at s p)); lia|].
    split; [done|]. split.
    { intros j Hj. simpl in Hj. fold (shrunk_capacity (delete_at s p)) in Hj.
      apply Htail. simpl. lia. }
    destruct (decide (capacity (header (shrink (delete_at s p))) = 0)) as [|Hpos];
      [by left|right].
    apply Hlast. simpl in *. fold (shrunk_capacity (delete_at s p)) in *. lia.
  - intros Hbad. apply deleteRecord_throw; [done|].
    intros [Hk Hl]. destruct Hbad as [Hout|Hfree]; [lia|congruence].
Qed.

(** What [updateRecord] tests before it touches the page: the space that
    [getFreeSpace] reports for a new record, plus the bytes of the old one.
    A refusal leaves the page as it was. *)
Lemma updateRecord_refuses_iff p s d :
  reachable p -> live p s -> 1 <= getSize d ->
  (updateRecord s d p = Throw InsufficientSpaceHeapPage p
     <-> free_space p + SlotInfo.length (slot_at p s) < getSize d) /\
  (forall e p', updateRecord s d p = Throw e p' -> p' = p).
Proof.
  intros Hreach Hlive Hd. destruct (reachable_inv p Hreach) as [Hcore _].
  rewrite updateRecord_live by (try done; lia).
  destruct (Z.eqb_spec (getSize d) 0); [lia|].
  destruct (Z.ltb_spec (free_space p + SlotInfo.length (slot_at p s)) (getSize d)).
  - split; [done|]. by intros e p' [= _ <-].
  - split; [split; [done|lia]|done].
Qed.

(** C7. After an accepted [updateRecord] of a live slot, [getRecord] of
    the same slot id into a buffer of at least the new length returns the
    bytes of the new record and its length; the slot id still names the
    record. *)
Theorem update_then_get p slot_id d p' buf :
  reachable p -> live p slot_id -> Data_ok d ->
  updateRecord slot_id d p = Return tt p' ->
  getSize d <= getCapacity buf ->
  live p' slot_id /\
  exists out,
    getRecord slot_id buf p' = Return out p' /\
    getSize out = getSize d /\
    record_bytes out = record_bytes d.
Proof.
  intros Hreach Hlive Hd Hrun Hbuf.
  pose proof (reachable_inv p Hreach) as Hinv. pose proof Hinv as [Hcore _].
  pose proof Hd as [Hd0 Hd1].
  rewrite updateRecord_live in Hrun by done.
  destruct (Z.eqb_spec (getSize d) 0); [done|].
  destruct (Z.ltb_spec (free_space p + SlotInfo.length (slot_at p slot_id)) (getSize d));
    [done|].
  injection Hrun as <-.
  destruct (updateRecord_inv slot_id d p Hinv Hlive ltac:(lia) ltac:(lia)) as [[Hcore' _] Hl].
  pose proof (live_in_range _ _ Hlive) as Hrange.
  pose proof (delete_at_core slot_id p Hcore Hlive) as Hdcore.
  pose proof (live_offset p slot_id Hcore Hlive) as (Ho1 & Ho2 & Ho3).
  pose proof (core_bounds _ _ _ _ Hcore) as (Hb1 & Hb2 & Hb3).
  destruct (core_buffer _ _ _ _ Hdcore) as [Hdat _].
  assert (Hfs : free_space p <= raw_free p).
  { destruct (free_space_le_raw p); unfold raw_free in *; lia. }
  unfold raw_free in Hfs.
  assert (Hfreed : is_free (slot_at (delete_at slot_id p) slot_id) = true).
  { rewrite delete_at_slot by done. case_decide; [|done]. by apply is_free_true_eq. }
  assert (Hslot : slot_at (insert_at slot_id d (delete_at slot_id p)) slot_id
                  = SlotInfo.mk (free_space_end (header (delete_at slot_id p)) - getSize d)
                                (getSize d)).
  { rewrite insert_at_slot; try done; simpl; try lia. by case_decide. }
  assert (Hlive' : live (insert_at slot_id d (delete_at slot_id p)) slot_id) by (by apply Hl).
  split; [done|].
  assert (Hq : 0 <= free_space_end (header (delete_at slot_id p)) - getSize d /\
               free_space_end (header (delete_at slot_id p))
               <= Z.of_nat (Datatypes.length (data (delete_at slot_id p)))).
  { simpl free_space_end. lia. }
  revert Hlive' Hslot Hq. generalize (delete_at slot_id p). intros q Hlive' Hslot [Hq1 Hq2].
  eexists. split.
  { rewrite getRecord_run; [reflexivity|done|]. rewrite Hslot. simpl. lia. }
  rewrite Hslot. cbn [SlotInfo.length SlotInfo.offset].
  split; [done|].
  unfold record_bytes at 1. cbn [getSize getData].
  rewrite insert_at_bytes by done.
  pose proof (record_bytes_length d Hd) as Hlen. rewrite <- Hlen.
  apply take_inserts_0. unfold getCapacity in Hbuf. lia.
Qed.

Lemma first_free_unique p k k' : first_free p k -> first_free p k' -> k = k'.
Proof.
  intros (Hk & Hf & Hb) (Hk' & Hf' & Hb').
  destruct (Z.lt_trichotomy k k') as [Hlt|[->|Hgt]]; [|done|].
  - rewrite Hb' in Hf by lia. done.
  - rewrite Hb in Hf' by lia. done.
Qed.

(** C8 as amended. After [deleteRecord] of a live slot [s] that is not the
    last directory entry, and with no free directory entry below [s], the
    next [insertRecord] of a record that fits returns [s]. *)
Theorem reuse_after_delete p s d p' free :
  reachable p -> live p s -> s < capacity (header p) - 1 ->
  (forall j, 0 <= j < s -> is_free (slot_at p j) = false) ->
  deleteRecord s p = Return tt p' ->
  getFreeSpace p' = Return free p' -> 1 <= getSize d <= free ->
  exists p'', insertRecord d p' = Return s p''.
Proof.
  intros Hreach Hlive Hnotlast Hbelow Hdel Hfree Hfit.
  destruct (reachable_inv p Hreach) as [Hcore Hlast].
  rewrite deleteRecord_run in Hdel by done. injection Hdel as <-.
  pose proof (delete_at_core s p Hcore Hlive) as Hdcore.
  destruct (shrink_inv _ Hdcore) as [[Hscore _] _].
  pose proof (core_capacity _ Hdcore) as [Hc0 _].
  destruct (shrunk_capacity_spec (delete_at s p) Hc0) as (Hc' & Htail & _).
  pose proof (live_in_range _ _ Hlive) as Hrange.
  rewrite (getFreeSpace_run _ Hscore) in Hfree. injection Hfree as <-.
  assert (Hkeep : shrunk_capacity (delete_at s p) = capacity (header p)).
  { destruct (decide (shrunk_capacity (delete_at s p) = capacity (header p))) as [|Hne];
      [done|].
    assert (Hl : live (delete_at s p) (capacity (header p) - 1)).
    { apply delete_at_live; [done|done|]. split; [apply Hlast; lia|lia]. }
    destruct Hl as [_ Hl]. rewrite Htail in Hl by (simpl in *; lia). done. }
  assert (Hfirst : first_free (shrink (delete_at s p)) s).
  { split; [simpl; fold (shrunk_capacity (delete_at s p)); lia|].
    change (slot_at (shrink (delete_at s p))) with (slot_at (delete_at s p)).
    split.
    - rewrite delete_at_slot by done. case_decide; [|done]. by apply is_free_true_eq.
    - intros j Hj.
      assert (Hlj : live (delete_at s p) j).
      { apply delete_at_live; [done|done|]. split; [|lia]. split; [lia|]. by apply Hbelow. }
      by destruct Hlj. }
  destruct (insertRecord_run d _ Hscore Hfit)
    as [(k & Hfirst' & Hrun & _)|(Hnone & _)].
  - assert (k = s) as -> by (by apply (first_free_unique _ _ _ Hfirst' Hfirst)). eauto.
  - destruct Hfirst as (Hk & Hf & _). rewrite Hnone in Hf by done. done.
Qed.

(** C10. On a reachable page every live slot lies in
    [[free_space_end, PAGE_SIZE]] and has at least one byte.  So in
    [_deleteRecord] of a live slot the shift size [offset - free_space_end]
    does not wrap, the bytes moved and the place they move to are inside the
    page and above [free_space_begin], the test
    [offset + length == free_space_end] of the early return is false, and
    the general path deletes the lowest-addressed record with a move of zero
    bytes that changes no byte and no other slot. *)
Theorem delete_compaction_safe p :
  reachable p ->
  (forall i, live p i ->
     free_space_end (header p) <= SlotInfo.offset (slot_at p i) /\
     SlotInfo.offset (slot_at p i) + SlotInfo.length (slot_at p i) <= PAGE_SIZE /\
     1 <= SlotInfo.length (slot_at p i)) /\
  (forall s, live p s ->
     let off := SlotInfo.offset (slot_at p s) in
     let len := SlotInfo.length (slot_at p s) in
     let fe := free_space_end (header p) in
     wrap32 (off - fe) = off - fe /\ 0 <= off - fe /\
     (free_space_begin (header p) <= fe /\
      fe + len + (off - fe) <= PAGE_SIZE /\
      Z.of_nat (Datatypes.length (data p)) = PAGE_SIZE) /\
     (wrap32 (off + len) =? fe) = false /\
     _deleteRecord s p = Return tt (delete_at s p) /\
     (off = fe ->
        data (delete_at s p) = data p /\
        free_space_end (header (delete_at s p)) = fe + len /\
        forall i, live p i -> i <> s -> slot_at (delete_at s p) i = slot_at p i)).
Proof.
  intros Hreach. destruct (reachable_inv p Hreach) as [Hcore _].
  pose proof (core_bounds _ _ _ _ Hcore) as (Hb1 & Hb2 & Hb3).
  destruct (core_buffer _ _ _ _ Hcore) as [Hdat _].
  split.
  - intros i Hi. pose proof (live_offset p i Hcore Hi). lia.
  - intros s Hlive off len fe.
    pose proof (live_offset p s Hcore Hlive) as (Ho1 & Ho2 & Ho3).
    fold off len fe in Ho1, Ho2, Ho3.
    split; [apply wrap32_small; lia|]. split; [lia|]. split; [lia|]. split.
    { rewrite wrap32_small by lia. apply Z.eqb_neq. lia. }
    split; [by apply _deleteRecord_ok|].
    intros Hlow. split; [|split; [done|]].
    + unfold delete_at. simpl. fold off fe.
      replace (Z.to_nat (off - fe)) with O by lia. by rewrite take_0.
    + intros i Hi His. pose proof (live_in_range _ _ Hi).
      pose proof (live_offset p i Hcore Hi).
      rewrite delete_at_slot by done. case_decide; [done|].
      destruct (delete_at_sides s p Hcore Hlive i Hi His) as [(? & ? & ->)|[? ->]];
        [unfold off, fe in *; lia|done].
Qed.

(** The byte copies of the code land in the free space: at or above the
    end of the slot directory, and inside the page. *)
Lemma write_ranges_in_free_space p :
  reachable p ->
  (forall d, 1 <= getSize d <= free_space p ->
     free_space_begin (header (page_after (insertRecord d p)))
       <= free_space_end (header p) - getSize d /\
     free_space_end (header p) <= PAGE_SIZE) /\
  (forall s, live p s ->
     free_space_begin (header p)
       <= free_space_end (header p) + SlotInfo.length (slot_at p s) /\
     SlotInfo.offset (slot_at p s) + SlotInfo.length (slot_at p s) <= PAGE_SIZE) /\
  (forall s d, live p s ->
     1 <= getSize d <= free_space p + SlotInfo.length (slot_at p s) ->
     free_space_begin (header p)
       <= free_space_end (header p) + SlotInfo.length (slot_at p s) - getSize d /\
     free_space_end (header p) + SlotInfo.length (slot_at p s) <= PAGE_SIZE).
Proof.
  intros Hreach. destruct (reachable_inv p Hreach) as [Hcore _].
  pose proof (core_bounds _ _ _ _ Hcore) as (Hb1 & Hb2 & Hb3).
  assert (Hfs : free_space p <= raw_free p).
  { destruct (free_space_le_raw p); unfold raw_free in *; lia. }
  unfold raw_free in Hfs.
  split; [|split].
  - intros d Hd. split; [|done].
    destruct (insertRecord_run d p Hcore Hd)
      as [(k & _ & -> & Hc & _)|(_ & -> & Hc & _)]; simpl.
    + lia.
    + pose proof (core_bounds _ _ _ _ Hc) as (? & ? & ?). simpl in *. lia.
  - intros s Hlive. pose proof (live_offset p s Hcore Hlive). lia.
  - intros s d Hlive Hd. pose proof (live_offset p s Hcore Hlive). lia.
Qed.

(** ** More about the page operations *)

(** What a returned [insertRecord] has done. *)
Lemma insertRecord_returned d p sid p' :
  page_core p -> 0 <= getSize d -> insertRecord d p = Return sid p' ->
  1 <= getSize d <= free_space p /\
  ((first_free p sid /\ p' = insert_at sid d p)
   \/ (no_free p /\ sid = capacity (header p) /\
       p' = insert_at (capacity (header p)) d (grow p))).
Proof.
  intros Hcore Hd0 Hrun.
  destruct (decide (getSize d = 0)) as [Hz|Hnz].
  { rewrite insertRecord_throw_empty in Hrun by done. done. }
  destruct (decide (free_space p < getSize d)) as [Hbig|Hfit].
  { rewrite insertRecord_throw_space in Hrun by done. done. }
  split; [lia|].
  destruct (insertRecord_run d p Hcore ltac:(lia))
    as [(k & Hfirst & Hrun' & _)|(Hnone & Hrun' & _)];
    rewrite Hrun' in Hrun; injection Hrun as <- <-; [left|right]; done.
Qed.

Lemma insertRecord_keeps d p sid p' :
  page_core p -> 0 <= getSize d -> insertRecord d p = Return sid p' ->
  page_core p' /\
  (forall i, live p' i <-> live p i \/ i = sid) /\
  ~ live p sid /\
  slot_at p' sid = SlotInfo.mk (free_space_end (header p) - getSize d) (getSize d) /\
  data p' = list_inserts (Z.to_nat (free_space_end (header p) - getSize d))
              (record_bytes d) (data p) /\
  forall i, live p i -> slot_at p' i = slot_at p i /\ record_at p' i = record_at p i.
Proof.
  intros Hcore Hd0 Hrun.
  destruct (insertRecord_returned d p sid p' Hcore Hd0 Hrun)
    as (Hfit & [(Hfirst & ->)|(Hnone & -> & ->)]).
  - pose proof (first_free_size p sid Hcore Hfirst) as Hlt.
    assert (Hroom : getSize d <= free_space_end (header p) - free_space_begin (header p)).
    { revert Hfit. unfold free_space, raw_free.
      destruct (Z.ltb_spec (size (header p)) (capacity (header p))); lia. }
    destruct Hfirst as (Hk & Hf & _).
    split; [apply insert_at_core; try done; lia|].
    split; [intros i; apply insert_at_live; try done; lia|].
    split; [intros [_ Hl]; congruence|].
    split; [rewrite insert_at_slot by (try done; lia); by case_decide|].
    split; [done|].
    intros i Hi. pose proof (live_in_range _ _ Hi).
    split; [|apply insert_at_record; try done; lia].
    rewrite insert_at_slot by (try done; lia).
    case_decide; [|done]. subst i. destruct Hi as [_ Hl]. congruence.
  - pose proof (no_free_size p Hcore Hnone) as Hfull.
    pose proof (core_capacity p Hcore) as [Hc0 _].
    assert (Hroom : sizeof_SlotInfo + getSize d
                    <= free_space_end (header p) - free_space_begin (header p)).
    { revert Hfit. unfold free_space, raw_free, sizeof_SlotInfo.
      destruct (Z.ltb_spec (size (header p)) (capacity (header p))); [lia|].
      destruct (Z.leb_spec 8 (free_space_end (header p) - free_space_begin (header p))); lia. }
    destruct (grow_core p Hcore ltac:(lia)) as (Hgcore & (_ & Hgl & Hgs) & Hgfree).
    rewrite <- insert_at_clear_slot.
    set (q := clear_slot (capacity (header p)) (grow p)) in *.
    assert (Hq1 : 0 <= capacity (header p) < capacity (header q)) by (simpl; lia).
    assert (Hq2 : getSize d <= free_space_end (header q) - free_space_begin (header q)).
    { simpl. unfold sizeof_SlotInfo in *. lia. }
    split; [apply insert_at_core; try done; lia|].
    split; [intros i; rewrite insert_at_live by (try done; lia); by rewrite Hgl|].
    split; [intros [Hr _]; lia|].
    split; [rewrite insert_at_slot by (try done; lia); by case_decide|].
    split; [done|].
    intros i Hi. pose proof (live_in_range _ _ Hi).
    assert (Hqi : live q i) by (by apply Hgl).
    split.
    + rewrite insert_at_slot by (try done; lia). case_decide; [lia|]. by apply Hgs.
    + rewrite insert_at_record by (try done; lia).
      unfold record_at. rewrite (Hgs i Hi). done.
Qed.

Lemma deleteRecord_returned s p p' :
  page_core p -> 0 <= s -> deleteRecord s p = Return tt p' ->
  live p s /\ p' = shrink (delete_at s p).
Proof.
  intros Hcore Hs Hrun. destruct (live_dec p s) as [Hl|Hn].
  - split; [done|]. rewrite deleteRecord_run in Hrun by done. by injection Hrun.
  - rewrite deleteRecord_throw in Hrun by done. done.
Qed.

Lemma deleteRecord_keeps s p :
  page_core p -> live p s ->
  page_core (shrink (delete_at s p)) /\
  (forall i, live (shrink (delete_at s p)) i <-> live p i /\ i <> s) /\
  forall i, live p i -> i <> s ->
    SlotInfo.length (slot_at (shrink (delete_at s p)) i) = SlotInfo.length (slot_at p i) /\
    record_at (shrink (delete_at s p)) i = record_at p i.
Proof.
  intros Hcore Hlive.
  pose proof (delete_at_core s p Hcore Hlive) as Hdcore.
  destruct (shrink_inv _ Hdcore) as [[Hscore _] (_ & Hsl & _)].
  split; [done|]. split.
  - intros i. rewrite Hsl. by apply delete_at_live.
  - intros i Hi His.
    change (slot_at (shrink (delete_at s p)) i) with (slot_at (delete_at s p) i).
    change (record_at (shrink (delete_at s p)) i) with (record_at (delete_at s p) i).
    by apply delete_at_record.
Qed.

Lemma updateRecord_returned s d p p' :
  page_core p -> 0 <= s -> 0 <= getSize d -> updateRecord s d p = Return tt p' ->
  live p s /\ 1 <= getSize d <= free_space p + SlotInfo.length (slot_at p s) /\
  p' = insert_at s d (delete_at s p).
Proof.
  intros Hcore Hs Hd0 Hrun. destruct (live_dec p s) as [Hl|Hn].
  - split; [done|]. rewrite updateRecord_live in Hrun by done.
    destruct (Z.eqb_spec (getSize d) 0); [done|].
    destruct (Z.ltb_spec (free_space p + SlotInfo.length (slot_at p s)) (getSize d));
      [done|].
    split; [lia|]. by injection Hrun.
  - rewrite updateRecord_throw_slot in Hrun by done. done.
Qed.

Lemma updateRecord_keeps s d p :
  page_inv p -> live p s ->
  1 <= getSize d <= free_space p + SlotInfo.length (slot_at p s) ->
  forall i, live p i -> i <> s ->
    SlotInfo.length (slot_at (insert_at s d (delete_at s p)) i)
      = SlotInfo.length (slot_at p i) /\
    record_at (insert_at s d (delete_at s p)) i = record_at p i.
Proof.
  intros [Hcore Hlast] Hlive Hfit i Hi His.
  pose proof (delete_at_core s p Hcore Hlive) as Hdcore.
  pose proof (live_in_range _ _ Hlive) as Hrange.
  pose proof (live_in_range _ _ Hi) as Hirange.
  pose proof (live_offset p s Hcore Hlive) as (Ho1 & Ho2 & Ho3).
  pose proof (core_bounds _ _ _ _ Hcore) as (Hb1 & Hb2 & Hb3).
  assert (Hfs : free_space p <= raw_free p).
  { destruct (free_space_le_raw p); unfold raw_free in *; lia. }
  unfold raw_free in Hfs.
  assert (Hfreed : is_free (slot_at (delete_at s p) s) = true).
  { rewrite delete_at_slot by done. case_decide; [|done]. by apply is_free_true_eq. }
  assert (Hdi : live (delete_at s p) i) by (by apply delete_at_live).
  destruct (delete_at_record s p Hcore Hlive i Hi His) as [Hlen Hrec].
  rewrite insert_at_slot by (try done; simpl; lia). case_decide; [done|].
  split; [done|].
  rewrite insert_at_record by (try done; simpl; lia). done.
Qed.

(** X1. A record that [insertRecord] has stored is what [getRecord]
    returns for the slot id that [insertRecord] gave, with its length, into
    any buffer that can take it. *)
Theorem insert_then_get p d slot_id p' buf :
  reachable p -> Data_ok d ->
  insertRecord d p = Return slot_id p' ->
  getSize d <= getCapacity buf ->
  exists out,
    getRecord slot_id buf p' = Return out p' /\
    getSize out = getSize d /\
    record_bytes out = record_bytes d.
Proof.
  intros Hreach Hd Hrun Hbuf. destruct (reachable_inv p Hreach) as [Hcore _].
  pose proof Hd as [Hd0 Hd1].
  destruct (insertRecord_returned d p slot_id p' Hcore Hd0 Hrun) as (Hfit & _).
  destruct (insertRecord_keeps d p slot_id p' Hcore Hd0 Hrun)
    as (Hcore' & Hl & _ & Hslot & Hdata & _).
  pose proof (core_bounds _ _ _ _ Hcore) as (Hb1 & Hb2 & Hb3).
  destruct (core_buffer _ _ _ _ Hcore) as [Hdat _].
  assert (Hfs : free_space p <= raw_free p).
  { destruct (free_space_le_raw p); unfold raw_free in *; lia. }
  unfold raw_free in Hfs.
  pose proof (record_bytes_length d Hd) as Hlen.
  assert (Hrec : record_at p' slot_id = record_bytes d).
  { unfold record_at. rewrite Hslot, Hdata. simpl. rewrite <- Hlen.
    apply take_drop_inserts. lia. }
  rewrite getRecord_live by (apply Hl; by right).
  rewrite Hslot, Hrec. simpl.
  destruct (Z.ltb_spec (getCapacity buf) (getSize d)); [lia|].
  eexists. split; [done|]. split; [done|].
  unfold record_bytes at 1. simpl. rewrite <- Hlen.
  apply take_inserts_0. unfold getCapacity in Hbuf. lia.
Qed.

(** X2. [insertRecord] leaves every record that was on the page under its
    slot id, with its directory entry, and [getRecord] answers for it as
    before; the new record gets a slot id that was not in use. *)
Theorem insert_keeps_records p d slot_id p' :
  reachable p -> 0 <= getSize d ->
  insertRecord d p = Return slot_id p' ->
  ~ live p slot_id /\ live p' slot_id /\
  forall i, live p i ->
    live p' i /\ slot_at p' i = slot_at p i /\
    forall buf, getRecord i buf p' = on_page (getRecord i buf p) p'.
Proof.
  intros Hreach Hd0 Hrun. destruct (reachable_inv p Hreach) as [Hcore _].
  destruct (insertRecord_keeps d p slot_id p' Hcore Hd0 Hrun)
    as (Hcore' & Hl & Hnew & _ & _ & Hkeep).
  split; [done|]. split; [apply Hl; by right|].
  intros i Hi. destruct (Hkeep i Hi) as [Hslot Hrec].
  assert (Hi' : live p' i) by (apply Hl; by left).
  split; [done|]. split; [done|].
  apply getRecord_stable; try done. by rewrite Hslot.
Qed.

(** X3. [deleteRecord] removes one record only: every other record stays
    under its slot id with its length, and [getRecord] answers for it as
    before, though compaction may have moved its bytes. *)
Theorem delete_keeps_records p s p' :
  reachable p -> 0 <= s ->
  deleteRecord s p = Return tt p' ->
  forall i, live p i -> i <> s ->
    live p' i /\
    SlotInfo.length (slot_at p' i) = SlotInfo.length (slot_at p i) /\
    forall buf, getRecord i buf p' = on_page (getRecord i buf p) p'.
Proof.
  intros Hreach Hs Hrun i Hi His. destruct (reachable_inv p Hreach) as [Hcore _].
  destruct (deleteRecord_returned s p p' Hcore Hs Hrun) as [Hlive ->].
  destruct (deleteRecord_keeps s p Hcore Hlive) as (_ & Hl & Hkeep).
  destruct (Hkeep i Hi His) as [Hlen Hrec].
  assert (Hi' : live (shrink (delete_at s p)) i) by (by apply Hl).
  split; [done|]. split; [done|]. by apply getRecord_stable.
Qed.

(** X4. [updateRecord] changes one record only: every other record stays
    under its slot id with its length, and [getRecord] answers for it as
    before. *)
Theorem update_keeps_records p s d p' :
  reachable p -> 0 <= s -> 0 <= getSize d ->
  updateRecord s d p = Return tt p' ->
  forall i, live p i -> i <> s ->
    live p' i /\
    SlotInfo.length (slot_at p' i) = SlotInfo.length (slot_at p i) /\
    forall buf, getRecord i buf p' = on_page (getRecord i buf p) p'.
Proof.
  intros Hreach Hs Hd0 Hrun i Hi His.
  pose proof (reachable_inv p Hreach) as Hinv. pose proof Hinv as [Hcore _].
  destruct (updateRecord_returned s d p p' Hcore Hs Hd0 Hrun) as (Hlive & Hfit & ->).
  destruct (updateRecord_inv s d p Hinv Hlive ltac:(lia) ltac:(lia)) as [_ Hl].
  destruct (updateRecord_keeps s d p Hinv Hlive Hfit i Hi His) as [Hlen Hrec].
  assert (Hi' : live (insert_at s d (delete_at s p)) i) by (by apply Hl).
  split; [done|]. split; [done|]. by apply getRecord_stable.
Qed.

(** X5. A deleted slot id is dead: after [deleteRecord] has returned,
    [getRecord], [updateRecord] and a second [deleteRecord] of that slot id
    throw [InvalidSlotIdHeapPage] and leave the page as it is. *)
Theorem delete_invalidates p s p' :
  reachable p -> 0 <= s ->
  deleteRecord s p = Return tt p' ->
  (forall buf, getRecord s buf p' = Throw (InvalidSlotIdHeapPage s) p') /\
  (forall d, updateRecord s d p' = Throw (InvalidSlotIdHeapPage s) p') /\
  deleteRecord s p' = Throw (InvalidSlotIdHeapPage s) p'.
Proof.
  intros Hreach Hs Hrun. destruct (reachable_inv p Hreach) as [Hcore _].
  destruct (deleteRecord_returned s p p' Hcore Hs Hrun) as [Hlive ->].
  destruct (deleteRecord_keeps s p Hcore Hlive) as (_ & Hl & _).
  assert (Hdead : ~ live (shrink (delete_at s p)) s).
  { intros Hx. apply Hl in Hx as [_ Hx]. done. }
  split; [intros buf; by apply getRecord_throw_slot|].
  split; [intros d; by apply updateRecord_throw_slot|].
  by apply deleteRecord_throw.
Qed.

(** X6. [getRecord] on any page: it never changes the page; a slot id out
    of range or free gives [InvalidSlotIdHeapPage], also when the buffer is
    too small; a live slot and a buffer smaller than the record give
    [InvalidSizeData]; otherwise the [Data] comes back with the length of
    the record as its size, its capacity as before, and its bytes behind
    the record untouched. *)
Theorem getRecord_outcome p k buf :
  0 <= k ->
  page_after (getRecord k buf p) = p /\
  (~ live p k -> getRecord k buf p = Throw (InvalidSlotIdHeapPage k) p) /\
  (live p k -> getCapacity buf < SlotInfo.length (slot_at p k) ->
     getRecord k buf p = Throw InvalidSizeData p) /\
  (live p k -> SlotInfo.length (slot_at p k) <= getCapacity buf ->
     exists out,
       getRecord k buf p = Return out p /\
       getSize out = SlotInfo.length (slot_at p k) /\
       getCapacity out = getCapacity buf /\
       drop (Z.to_nat (SlotInfo.length (slot_at p k))) (getData out)
       = drop (Z.to_nat (SlotInfo.length (slot_at p k))) (getData buf)).
Proof.
  intros Hk. split; [apply getRecord_page|].
  split; [by apply getRecord_throw_slot|]. split.
  - intros Hl Hsmall. rewrite getRecord_live by done.
    destruct (Z.ltb_spec (getCapacity buf) (SlotInfo.length (slot_at p k))); [done|lia].
  - intros Hl Hfits. rewrite getRecord_live by done.
    destruct (Z.ltb_spec (getCapacity buf) (SlotInfo.length (slot_at p k))); [lia|].
    eexists. split; [done|]. split; [done|]. split.
    + unfold getCapacity. simpl. by rewrite length_inserts.
    + simpl. apply drop_inserts_0. unfold record_at. rewrite length_take. lia.
Qed.

(** X7. A call that throws has changed nothing, and throws one of the
    exceptions of its documentation: [insertRecord] only
    [EmptyDataHeapPage] or [InsufficientSpaceHeapPage], [deleteRecord] only
    [InvalidSlotIdHeapPage], [updateRecord] one of the three, [getRecord]
    [InvalidSlotIdHeapPage] or [InvalidSizeData]. *)
Theorem failures_leave_page p :
  reachable p ->
  (forall d e p', 0 <= getSize d -> insertRecord d p = Throw e p' ->
     p' = p /\ (e = EmptyDataHeapPage \/ e = InsufficientSpaceHeapPage)) /\
  (forall k e p', 0 <= k -> deleteRecord k p = Throw e p' ->
     p' = p /\ e = InvalidSlotIdHeapPage k) /\
  (forall k d e p', 0 <= k -> 0 <= getSize d -> updateRecord k d p = Throw e p' ->
     p' = p /\ (e = InvalidSlotIdHeapPage k \/ e = EmptyDataHeapPage
                \/ e = InsufficientSpaceHeapPage)) /\
  (forall k buf e p', 0 <= k -> getRecord k buf p = Throw e p' ->
     p' = p /\ (e = InvalidSlotIdHeapPage k \/ e = InvalidSizeData)).
Proof.
  intros Hreach. destruct (reachable_inv p Hreach) as [Hcore _].
  split; [|split; [|split]].
  - intros d e p' Hd0 Hrun.
    destruct (decide (getSize d = 0)) as [Hz|Hnz].
    { rewrite insertRecord_throw_empty in Hrun by done.
      injection Hrun as <- <-. split; [done|by left]. }
    destruct (decide (free_space p < getSize d)) as [Hbig|Hfit].
    { rewrite insertRecord_throw_space in Hrun by done.
      injection Hrun as <- <-. split; [done|by right]. }
    destruct (insertRecord_run d p Hcore ltac:(lia))
      as [(k & _ & Hrun' & _)|(_ & Hrun' & _)]; rewrite Hrun' in Hrun; done.
  - intros k e p' Hk Hrun. destruct (live_dec p k) as [Hl|Hn].
    + rewrite deleteRecord_run in Hrun by done. done.
    + rewrite deleteRecord_throw in Hrun by done. by injection Hrun as <- <-.
  - intros k d e p' Hk Hd0 Hrun. destruct (live_dec p k) as [Hl|Hn].
    + rewrite updateRecord_live in Hrun by done.
      destruct (Z.eqb_spec (getSize d) 0).
      { injection Hrun as <- <-. split; [done|right; by left]. }
      destruct (Z.ltb_spec (free_space p + SlotInfo.length (slot_at p k)) (getSize d));
        [|done].
      injection Hrun as <- <-. split; [done|right; by right].
    + rewrite updateRecord_throw_slot in Hrun by done.
      injection Hrun as <- <-. split; [done|by left].
  - intros k buf e p' Hk Hrun. destruct (live_dec p k) as [Hl|Hn].
    + rewrite getRecord_live in Hrun by done.
      destruct (_ <? _); [|done]. injection Hrun as <- <-. split; [done|by right].
    + rewrite getRecord_throw_slot in Hrun by done.
      injection Hrun as <- <-. split; [done|by left].
Qed.

Local Abbreviation getInvalidNum_loop := (getInvalidNum_loop INVALID_SLOT_OFFSET).
Local Abbreviation getInvalidNum := (getInvalidNum INVALID_SLOT_OFFSET).

(** The loop of [getInvalidNum] adds the free entries it passes. *)
Lemma getInvalidNum_loop_run n i invalid p :
  Z.of_nat (i + n) <= capacity (header p) ->
  0 <= invalid -> invalid + Z.of_nat n < 2 ^ 32 ->
  getInvalidNum_loop n (Z.of_nat i) invalid p
  = Return (invalid + Z.of_nat n
            - (live_count (slot_directory p) (i + n) - live_count (slot_directory p) i)) p.
Proof.
  revert i invalid. induction n as [|n IH]; intros i invalid Hcap Hlo Hhi.
  - simpl. unfold ret. rewrite Nat.add_0_r. f_equal; lia.
  - simpl. rewrite (bind_Return _ _ _ _ _ (_getSlotInfo_run (Z.of_nat i) p ltac:(lia))).
    replace (Z.of_nat i + 1) with (Z.of_nat (S i)) by lia.
    unfold slot_at. rewrite Nat2Z.id.
    replace (i + S n)%nat with (S i + n)%nat by lia.
    destruct (SlotInfo.offset (slot_directory p !!! i) =? INVALID_SLOT_OFFSET) eqn:Hfree.
    + rewrite wrap32_small by lia. rewrite IH by lia.
      rewrite (live_count_S _ _ i). unfold live_bit, is_free. rewrite Hfree.
      f_equal; lia.
    + rewrite IH by lia.
      rewrite (live_count_S _ _ i). unfold live_bit, is_free. rewrite Hfree.
      f_equal; lia.
Qed.

(** X8. What the counters of a page tell: [getNumRecs] is the number of
    live slots and [getInvalidNum] the number of free directory entries, so
    the two add up to [capacity]; [isEmpty] says that no slot is live;
    [isFull] says that the directory is not empty and has no free entry
    (whatever free space is left). *)
Theorem page_counters p :
  reachable p ->
  getNumRecs p
    = Return (live_count (slot_directory p) (Z.to_nat (capacity (header p)))) p /\
  getInvalidNum p
    = Return (capacity (header p)
              - live_count (slot_directory p) (Z.to_nat (capacity (header p)))) p /\
  ((isEmpty p = Return true p /\ forall i, ~ live p i)
   \/ (isEmpty p = Return false p /\ exists i, live p i)) /\
  ((isFull p = Return true p /\ 0 < capacity (header p) /\ no_free p)
   \/ (isFull p = Return false p /\
       (capacity (header p) = 0 \/ exists k, first_free p k))).
Proof.
  intros Hreach. destruct (reachable_inv p Hreach) as [Hcore Hlast].
  pose proof (core_capacity p Hcore) as [Hc0 Hcdir].
  pose proof (core_size _ _ _ _ Hcore) as [Hsz1 Hsz2].
  pose proof (core_bounds _ _ _ _ Hcore) as (Hb1 & Hb2 & Hb3).
  pose proof (core_begin _ _ _ _ Hcore) as Hbeg.
  unfold inv_begin, sizeof_SlotInfo in Hbeg.
  pose proof (live_count_bounds INVALID_SLOT_OFFSET (slot_directory p)
                (Z.to_nat (capacity (header p)))) as Hcnt.
  split; [unfold getNumRecs, bind, _getPageHeader, ret; by rewrite Hsz1|].
  split.
  { unfold getInvalidNum, bind at 1, _getPageHeader at 1.
    rewrite (getInvalidNum_loop_run _ 0 0 p) by lia.
    simpl. f_equal. lia. }
  split.
  - unfold isEmpty, bind, _getPageHeader, ret.
    destruct (Z.eqb_spec (size (header p)) 0) as [Hz|Hnz]; [left|right]; (split; [done|]).
    + intros i [Hi Hl].
      pose proof (live_count_ge_bit INVALID_SLOT_OFFSET (slot_directory p)
                    (Z.to_nat (capacity (header p))) (Z.to_nat i) ltac:(lia)) as Hbit.
      unfold live_bit in Hbit. fold (slot_at p i) in Hbit. rewrite Hl in Hbit. lia.
    + exists (capacity (header p) - 1). apply Hlast. lia.
  - unfold isFull, bind, _getPageHeader, ret.
    destruct (Z.eqb_spec (size (header p)) (capacity (header p))) as [Heq|Hne];
      destruct (Z.eqb_spec (size (header p)) 0) as [Hz|Hnz]; simpl.
    + right. split; [done|]. left. lia.
    + left. split; [done|]. split; [lia|].
      intros j Hj. unfold slot_at.
      apply (live_count_full INVALID_SLOT_OFFSET (slot_directory p)
               (Z.to_nat (capacity (header p)))); lia.
    + right. split; [done|]. right.
      destruct (insertRecord_scan_spec INVALID_SLOT_OFFSET
                  (Z.to_nat (capacity (header p))) 0 p ltac:(lia) ltac:(lia))
        as (r & _ & [[_ Hall]|(Hr & Hfr & Hbefore)]).
      * pose proof (no_free_size p Hcore Hall). lia.
      * exists r. split; [lia|]. split; [done|]. intros j Hj. apply Hbefore. lia.
    + right. split; [done|]. right.
      destruct (insertRecord_scan_spec INVALID_SLOT_OFFSET
                  (Z.to_nat (capacity (header p))) 0 p ltac:(lia) ltac:(lia))
        as (r & _ & [[_ Hall]|(Hr & Hfr & Hbefore)]).
      * pose proof (no_free_size p Hcore Hall). lia.
      * exists r. split; [lia|]. split; [done|]. intros j Hj. apply Hbefore. lia.
Qed.

Lemma free_space_nonneg p : page_core p -> 0 <= free_space p <= raw_free p.
Proof.
  intros Hcore. pose proof (core_bounds _ _ _ _ Hcore) as (Hb1 & Hb2 & Hb3).
  unfold free_space, raw_free, sizeof_SlotInfo.
  destruct (_ <? _); [lia|].
  destruct (Z.leb_spec 8 (free_space_end (header p) - free_space_begin (header p))); lia.
Qed.

(** X9. [deleteRecord] gives the space of the record back: after it
    [getFreeSpace] is at least what it was plus the length of the deleted
    record. *)
Theorem delete_frees_space p s p' :
  reachable p -> 0 <= s ->
  deleteRecord s p = Return tt p' ->
  exists free free',
    getFreeSpace p = Return free p /\
    getFreeSpace p' = Return free' p' /\
    free + SlotInfo.length (slot_at p s) <= free'.
Proof.
  intros Hreach Hs Hrun. destruct (reachable_inv p Hreach) as [Hcore _].
  destruct (deleteRecord_returned s p p' Hcore Hs Hrun) as [Hlive ->].
  pose proof (delete_at_core s p Hcore Hlive) as Hdcore.
  destruct (shrink_inv _ Hdcore) as [[Hscore _] _].
  pose proof (core_capacity _ Hdcore) as [Hc0 _].
  destruct (shrunk_capacity_spec (delete_at s p) Hc0) as (Hc' & _ & _).
  exists (free_space p), (free_space (shrink (delete_at s p))).
  split; [by apply getFreeSpace_run|]. split; [by apply getFreeSpace_run|].
  pose proof (core_bounds _ _ _ _ Hcore) as (Hb1 & Hb2 & Hb3).
  pose proof (core_size _ _ _ _ Hcore) as [_ Hsz].
  pose proof (core_size _ _ _ _ Hscore) as [_ Hsz'].
  pose proof (live_offset p s Hcore Hlive) as (Ho1 & Ho2 & Ho3).
  pose proof (live_size_pos p s Hcore Hlive) as Hpos.
  revert Hsz'. unfold free_space, raw_free, sizeof_SlotInfo. simpl.
  fold (shrunk_capacity (delete_at s p)). simpl in Hc'. intros Hsz'.
  unfold sizeof_SlotInfo.
  destruct (Z.ltb_spec (size (header p)) (capacity (header p)));
    destruct (Z.ltb_spec (size (header p) - 1) (shrunk_capacity (delete_at s p)));
    repeat match goal with |- context [?a <=? ?b] => destruct (Z.leb_spec a b) end;
    lia.
Qed.

(** X11. A page fresh from [initializeHeader], whatever the buffer held
    before: it is empty, every [getRecord] throws [InvalidSlotIdHeapPage],
    and [insertRecord] takes a record exactly when its length is between 1
    and [PAGE_SIZE - sizeof(HeapPageHeader) - sizeof(SlotInfo)]; the record
    gets slot id 0. *)
Theorem fresh_page p0 d :
  Page_buffer p0 -> 0 <= getSize d ->
  let p := page_after (initializeHeader p0) in
  isEmpty p = Return true p /\
  (forall k buf, 0 <= k -> getRecord k buf p = Throw (InvalidSlotIdHeapPage k) p) /\
  ((exists slot_id p', insertRecord d p = Return slot_id p')
     <-> 1 <= getSize d <= PAGE_SIZE - sizeof_HeapPageHeader - sizeof_SlotInfo) /\
  (forall slot_id p', insertRecord d p = Return slot_id p' -> slot_id = 0).
Proof.
  intros Hbuf Hd0 p.
  destruct (initializeHeader_inv p0 Hbuf) as [Hcore _]. fold p in Hcore.
  assert (Hdead : forall i, ~ live p i) by (intros i [Hi _]; simpl in Hi; lia).
  assert (Hfs : free_space p
                = if sizeof_SlotInfo <=? PAGE_SIZE - sizeof_HeapPageHeader
                  then PAGE_SIZE - sizeof_HeapPageHeader - sizeof_SlotInfo else 0).
  { reflexivity. }
  split; [reflexivity|].
  split; [intros k buf Hk; by apply getRecord_throw_slot|].
  split; [split|].
  - intros (slot_id & p' & Hrun).
    destruct (insertRecord_returned d p slot_id p' Hcore Hd0 Hrun) as [Hfit _].
    rewrite Hfs in Hfit. unfold sizeof_SlotInfo in *.
    destruct (Z.leb_spec 8 (PAGE_SIZE - sizeof_HeapPageHeader)); lia.
  - intros Hfit.
    assert (Hfit' : 1 <= getSize d <= free_space p).
    { rewrite Hfs. unfold sizeof_SlotInfo in *.
      destruct (Z.leb_spec 8 (PAGE_SIZE - sizeof_HeapPageHeader)); lia. }
    destruct (insertRecord_run d p Hcore Hfit')
      as [(k & _ & -> & _)|(_ & -> & _)]; eauto.
  - intros slot_id p' Hrun.
    destruct (insertRecord_returned d p slot_id p' Hcore Hd0 Hrun)
      as (_ & [((Hk & _) & _)|(_ & -> & _)]); [simpl in Hk; lia|done].
Qed.

(** X12. The record operations leave the links of the page alone:
    [insertRecord], [getRecord], [updateRecord] and [deleteRecord], returning
    or throwing, keep [prev_page] and [next_page]. *)
Theorem record_calls_keep_links p c :
  reachable p -> Call_ok c ->
  (forall n, c <> CallSetPrev n) -> (forall n, c <> CallSetNext n) ->
  getPrev (call c p) = on_page (getPrev p) (call c p) /\
  getNext (call c p) = on_page (getNext p) (call c p).
Proof.
  intros Hreach Hok Hnp Hnn.
  pose proof (reachable_inv p Hreach) as Hinv. pose proof Hinv as [Hcore _].
  assert (Hlinks : prev_page (header (call c p)) = prev_page (header p) /\
                   next_page (header (call c p)) = next_page (header p)).
  { destruct c as [d|k buf|k d|k|n|n]; simpl in *.
    - destruct Hok as [Hd0 _].
      destruct (insertRecord d p) as [sid p'|e p'] eqn:Hrun; simpl.
      + destruct (insertRecord_returned d p sid p' Hcore Hd0 Hrun)
          as (_ & [(_ & ->)|(_ & _ & ->)]); done.
      + destruct (decide (getSize d = 0)) as [Hz|Hnz].
        { rewrite insertRecord_throw_empty in Hrun by done. by injection Hrun as <- <-. }
        destruct (decide (free_space p < getSize d)) as [Hbig|Hfit].
        { rewrite insertRecord_throw_space in Hrun by done. by injection Hrun as <- <-. }
        destruct (insertRecord_run d p Hcore ltac:(lia))
          as [(k & _ & Hrun' & _)|(_ & Hrun' & _)]; rewrite Hrun' in Hrun; done.
    - by rewrite getRecord_page.
    - destruct Hok as [Hk [Hd0 _]].
      destruct (live_dec p k) as [Hl|Hn].
      + rewrite updateRecord_live by done.
        destruct (_ =? _); [done|]. destruct (_ <? _); done.
      + by rewrite updateRecord_throw_slot.
    - destruct (live_dec p k) as [Hl|Hn].
      + by rewrite deleteRecord_run.
      + by rewrite deleteRecord_throw.
    - by destruct (Hnp n).
    - by destruct (Hnn n). }
  destruct Hlinks as [Hp Hn].
  unfold getPrev, getNext, bind, _getPageHeader, ret, on_page. by rewrite Hp, Hn.
Qed.

(** X13. An update that does not make the record longer is never refused
    for lack of space: [updateRecord] of a live slot with a record of 1 to
    the old length returns, with [size], [capacity] and [free_space_begin]
    as they were, [free_space_end] raised by the bytes saved, and the slot
    at the new [free_space_end]. *)
Theorem update_shrink_succeeds p s d :
  reachable p -> live p s ->
  1 <= getSize d <= SlotInfo.length (slot_at p s) ->
  exists p',
    updateRecord s d p = Return tt p' /\
    size (header p') = size (header p) /\
    capacity (header p') = capacity (header p) /\
    free_space_begin (header p') = free_space_begin (header p) /\
    free_space_end (header p')
      = free_space_end (header p) + SlotInfo.length (slot_at p s) - getSize d /\
    slot_at p' s = SlotInfo.mk (free_space_end (header p')) (getSize d).
Proof.
  intros Hreach Hlive Hd. destruct (reachable_inv p Hreach) as [Hcore _].
  pose proof (free_space_nonneg p Hcore) as Hfs. unfold raw_free in Hfs.
  pose proof (delete_at_core s p Hcore Hlive) as Hdcore.
  pose proof (live_in_range _ _ Hlive) as Hrange.
  pose proof (live_offset p s Hcore Hlive) as (Ho1 & Ho2 & Ho3).
  pose proof (core_bounds _ _ _ _ Hcore) as (Hb1 & Hb2 & Hb3).
  exists (insert_at s d (delete_at s p)). split.
  { rewrite updateRecord_live by (try done; lia).
    destruct (Z.eqb_spec (getSize d) 0); [lia|].
    destruct (Z.ltb_spec (free_space p + SlotInfo.length (slot_at p s)) (getSize d));
      [lia|done]. }
  split; [simpl; lia|]. split; [done|]. split; [done|]. split; [done|].
  assert (Hfreed : is_free (slot_at (delete_at s p) s) = true).
  { rewrite delete_at_slot by done. case_decide; [|done]. by apply is_free_true_eq. }
  rewrite insert_at_slot by (try done; simpl; lia). by case_decide.
Qed.

Lemma shrunk_capacity_eq q c :
  0 <= c <= capacity (header q) ->
  (forall j, c <= j < capacity (header q) -> is_free (slot_at q j) = true) ->
  (0 < c -> is_free (slot_at q (c - 1)) = false) ->
  shrunk_capacity q = c.
Proof.
  intros Hc Htail Hlast.
  destruct (shrunk_capacity_spec q ltac:(lia)) as (Hc' & Htail' & Hlast').
  destruct (Z.lt_trichotomy (shrunk_capacity q) c) as [Hlt|[Heq|Hgt]]; [|done|].
  - rewrite Htail' in Hlast by lia. specialize (Hlast ltac:(lia)). done.
  - rewrite Htail in Hlast' by lia. specialize (Hlast' ltac:(lia)). done.
Qed.

Lemma header_ext h h' :
  prev_page h = prev_page h' -> next_page h = next_page h' ->
  free_space_begin h = free_space_begin h' -> free_space_end h = free_space_end h' ->
  size h = size h' -> capacity h = capacity h' -> h = h'.
Proof. destruct h, h'. simpl. by intros -> -> -> -> -> ->. Qed.

(** X10. [deleteRecord] undoes [insertRecord]: deleting the record just
    inserted returns, and gives back the header as it was before the insert
    (free space, size and capacity), the same live slots with the same
    directory entries, and the same answers of [getRecord]. *)
Theorem insert_then_delete p d slot_id p' :
  reachable p -> 0 <= getSize d ->
  insertRecord d p = Return slot_id p' ->
  exists p'',
    deleteRecord slot_id p' = Return tt p'' /\
    header p'' = header p /\
    (forall i, live p'' i <-> live p i) /\
    forall i, live p i ->
      slot_at p'' i = slot_at p i /\
      forall buf, getRecord i buf p'' = on_page (getRecord i buf p) p''.
Proof.
  intros Hreach Hd0 Hrun. destruct (reachable_inv p Hreach) as [Hcore Hlast].
  destruct (insertRecord_keeps d p slot_id p' Hcore Hd0 Hrun)
    as (Hcore' & Hl & Hnew & Hslot & _ & Hkeep).
  destruct (insertRecord_returned d p slot_id p' Hcore Hd0 Hrun) as (Hfit & Hcases).
  pose proof (core_capacity p Hcore) as [Hc0 _].
  pose proof (core_bounds _ _ _ _ Hcore) as (Hb1 & Hb2 & Hb3).
  assert (Hhdr : prev_page (header p') = prev_page (header p) /\
                 next_page (header p') = next_page (header p) /\
                 free_space_end (header p') = free_space_end (header p) - getSize d /\
                 size (header p') = size (header p) + 1 /\
                 ((capacity (header p') = capacity (header p) /\
                   free_space_begin (header p') = free_space_begin (header p))
                  \/ (capacity (header p') = capacity (header p) + 1 /\
                      free_space_begin (header p')
                      = free_space_begin (header p) + sizeof_SlotInfo))).
  { destruct Hcases as [(_ & ->)|(_ & _ & ->)]; simpl;
      (repeat (split; [done|])); [left|right]; done. }
  destruct Hhdr as (Hprev & Hnext & Hfe & Hsize & Hcap).
  assert (Hlive' : live p' slot_id) by (apply Hl; by right).
  pose proof (live_in_range _ _ Hlive') as Hrange'.
  destruct (deleteRecord_keeps slot_id p' Hcore' Hlive') as (Hscore & Hl2 & Hkeep2).
  pose proof (delete_at_core slot_id p' Hcore' Hlive') as Hdcore.
  assert (Hl3 : forall i, live (delete_at slot_id p') i <-> live p i).
  { intros i. rewrite delete_at_live by done. rewrite Hl. split.
    - intros [[Hi|Hi] His]; done.
    - intros Hi. split; [by left|]. intros ->. done. }
  assert (Hshrunk : shrunk_capacity (delete_at slot_id p') = capacity (header p)).
  { apply shrunk_capacity_eq.
    - simpl. lia.
    - intros j Hj. destruct (is_free (slot_at (delete_at slot_id p') j)) eqn:Hf; [done|].
      assert (Hlj : live (delete_at slot_id p') j) by (split; [simpl in *; lia|done]).
      apply Hl3 in Hlj. pose proof (live_in_range _ _ Hlj). lia.
    - intros Hpos. assert (Hlj : live p (capacity (header p) - 1)) by (apply Hlast; lia).
      apply Hl3 in Hlj. by destruct Hlj. }
  exists (shrink (delete_at slot_id p')).
  split; [by apply deleteRecord_run|]. split.
  { apply header_ext; simpl; fold (shrunk_capacity (delete_at slot_id p'));
      rewrite ?Hshrunk, ?Hslot; simpl; unfold sizeof_SlotInfo in *; lia. }
  assert (Hl4 : forall i, live (shrink (delete_at slot_id p')) i <-> live p i).
  { intros i. rewrite Hl2, Hl. split.
    - intros [[Hi|Hi] His]; done.
    - intros Hi. split; [by left|]. intros ->. done. }
  split; [done|].
  intros i Hi. destruct (Hkeep i Hi) as [Hs1 Hr1].
  assert (His : i <> slot_id) by (intros ->; done).
  assert (Hi' : live p' i) by (apply Hl; by left).
  destruct (Hkeep2 i Hi' His) as [Hlen2 Hr2].
  pose proof (live_in_range _ _ Hi').
  pose proof (live_offset p i Hcore Hi) as (Ho1 & Ho2 & Ho3).
  assert (Hs2 : slot_at (shrink (delete_at slot_id p')) i = slot_at p i).
  { change (slot_at (shrink (delete_at slot_id p')) i)
      with (slot_at (delete_at slot_id p') i).
    rewrite delete_at_slot by done. case_decide; [done|].
    destruct (delete_at_sides slot_id p' Hcore' Hlive' i Hi' His) as [(Hlt & _)|[_ ->]];
      [|done].
    rewrite Hslot, Hs1 in Hlt. simpl in Hlt. lia. }
  split; [done|].
  apply getRecord_stable; try done.
  - by apply Hl4.
  - by rewrite Hs2.
  - by rewrite Hr2.
Qed.

(** *** The bytes of the records *)

Local Abbreviation live_bytes := (live_bytes INVALID_SLOT_OFFSET).

Lemma stored_insert_at k d q :
  page_core q -> 0 <= k < capacity (header q) -> is_free (slot_at q k) = true ->
  1 <= getSize d <= free_space_end (header q) - free_space_begin (header q) ->
  live_bytes (slot_directory (insert_at k d q))
             (Z.to_nat (capacity (header (insert_at k d q))))
  = live_bytes (slot_directory q) (Z.to_nat (capacity (header q))) + getSize d.
Proof.
  intros Hcore Hk Hfree Hd.
  pose proof (core_capacity q Hcore) as [Hc0 Hcdir].
  pose proof (core_bounds _ _ _ _ Hcore) as (Hb1 & Hb2 & Hb3).
  unfold insert_at. simpl. rewrite live_bytes_insert_lt by lia.
  fold (slot_at q k). rewrite Hfree.
  assert (is_free (SlotInfo.mk (free_space_end (header q) - getSize d) (getSize d)) = false)
    as -> by (apply is_free_false_ne; simpl; lia).
  simpl. lia.
Qed.

Lemma stored_delete_at k p :
  page_core p -> live p k ->
  live_bytes (slot_directory (delete_at k p)) (Z.to_nat (capacity (header p)))
  = live_bytes (slot_directory p) (Z.to_nat (capacity (header p)))
    - SlotInfo.length (slot_at p k).
Proof.
  intros Hcore Hlive.
  pose proof (core_capacity p Hcore) as [Hc0 Hcdir].
  pose proof (live_in_range _ _ Hlive) as Hk.
  transitivity (live_bytes (<[Z.to_nat k := SlotInfo.mk INVALID_SLOT_OFFSET 0]> (slot_directory p))
                  (Z.to_nat (capacity (header p)))).
  - apply live_bytes_ext. intros j Hj.
    replace j with (Z.to_nat (Z.of_nat j)) by lia.
    fold (slot_at (delete_at k p) (Z.of_nat j)).
    rewrite delete_at_slot by (try done; lia).
    destruct (decide (Z.of_nat j = k)) as [<-|Hjk].
    + by rewrite list_lookup_total_insert_eq by lia.
    + rewrite list_lookup_total_insert_ne by lia.
      fold (slot_at p (Z.of_nat j)).
      destruct (is_free (slot_at p (Z.of_nat j))) eqn:Hfj.
      * rewrite shift_slot_free by done. by rewrite Hfj.
      * assert (Hlj : live p (Z.of_nat j)) by (split; [lia|done]).
        pose proof (live_offset p _ Hcore Hlj).
        pose proof (live_offset p k Hcore Hlive).
        destruct (delete_at_sides k p Hcore Hlive _ Hlj Hjk) as [(? & ? & ->)|[? ->]];
          [|by rewrite Hfj].
        split; [|done]. apply is_free_false_ne. simpl. lia.
  - rewrite live_bytes_insert_lt by lia. fold (slot_at p k).
    destruct Hlive as [_ ->].
    assert (is_free (SlotInfo.mk INVALID_SLOT_OFFSET 0) = true) as ->
      by (by apply is_free_true_eq).
    lia.
Qed.

Lemma stored_shrink q :
  page_core q ->
  live_bytes (slot_directory (shrink q)) (Z.to_nat (capacity (header (shrink q))))
  = live_bytes (slot_directory q) (Z.to_nat (capacity (header q))).
Proof.
  intros Hcore. pose proof (core_capacity q Hcore) as [Hc0 _].
  destruct (shrunk_capacity_spec q Hc0) as (Hc' & Htail & _).
  simpl. fold (shrunk_capacity q). symmetry. apply live_bytes_cut; [lia|].
  intros j Hj. specialize (Htail (Z.of_nat j) ltac:(lia)).
  unfold slot_at in Htail. by rewrite Nat2Z.id in Htail.
Qed.

Lemma stored_call c p :
  page_inv p -> Call_ok c ->
  live_bytes (slot_directory p) (Z.to_nat (capacity (header p)))
    = PAGE_SIZE - free_space_end (header p) ->
  live_bytes (slot_directory (call c p)) (Z.to_nat (capacity (header (call c p))))
    = PAGE_SIZE - free_space_end (header (call c p)).
Proof.
  intros Hinv Hok Hbytes. pose proof Hinv as [Hcore _].
  pose proof (core_capacity p Hcore) as [Hc0 Hcdir].
  pose proof (core_bounds _ _ _ _ Hcore) as (Hb1 & Hb2 & Hb3).
  pose proof (free_space_nonneg p Hcore) as Hfs. unfold raw_free in Hfs.
  destruct c as [d|k buf|k d|k|n|n]; simpl in *; try done.
  - destruct Hok as [Hd0 _].
    destruct (decide (getSize d = 0)) as [Hz|Hnz].
    { by rewrite insertRecord_throw_empty. }
    destruct (decide (free_space p < getSize d)) as [Hbig|Hfit].
    { by rewrite insertRecord_throw_space. }
    destruct (insertRecord_run d p Hcore ltac:(lia))
      as [(j & Hfirst & -> & _)|(Hnone & -> & _)]; simpl page_after.
    + pose proof (first_free_size p j Hcore Hfirst) as Hlt.
      assert (Hroom : getSize d <= free_space_end (header p) - free_space_begin (header p)).
      { assert (1 <= getSize d <= free_space p) as Hfit' by lia.
        revert Hfit'. unfold free_space, raw_free.
        destruct (Z.ltb_spec (size (header p)) (capacity (header p))); lia. }
      destruct Hfirst as (Hj & Hf & _).
      rewrite stored_insert_at by (try done; lia). simpl. lia.
    + pose proof (no_free_size p Hcore Hnone) as Hfull.
      assert (Hroom : sizeof_SlotInfo + getSize d
                      <= free_space_end (header p) - free_space_begin (header p)).
      { assert (1 <= getSize d <= free_space p) as Hfit' by lia.
        revert Hfit'. unfold free_space, raw_free, sizeof_SlotInfo.
        destruct (Z.ltb_spec (size (header p)) (capacity (header p))); [lia|].
        destruct (Z.leb_spec 8 (free_space_end (header p) - free_space_begin (header p))); lia. }
      destruct (grow_core p Hcore ltac:(lia)) as (Hgcore & _ & Hgfree).
      rewrite <- insert_at_clear_slot.
      rewrite stored_insert_at; try done; simpl; unfold sizeof_SlotInfo in *; try lia.
      replace (Z.to_nat (capacity (header p) + 1))
        with (S (Z.to_nat (capacity (header p)))) by lia.
      simpl. rewrite live_bytes_insert_ge by lia.
      unfold slot_at in Hgfree. simpl in Hgfree. rewrite Hgfree. lia.
  - by rewrite getRecord_page.
  - destruct Hok as [Hk [Hd0 Hd1]]. destruct (live_dec p k) as [Hl|Hn].
    + rewrite updateRecord_live by done.
      destruct (Z.eqb_spec (getSize d) 0); [done|].
      destruct (Z.ltb_spec (free_space p + SlotInfo.length (slot_at p k)) (getSize d));
        [done|].
      simpl page_after.
      pose proof (delete_at_core k p Hcore Hl) as Hdcore.
      pose proof (live_in_range _ _ Hl) as Hrange.
      pose proof (live_offset p k Hcore Hl) as (Ho1 & Ho2 & Ho3).
      assert (Hfreed : is_free (slot_at (delete_at k p) k) = true).
      { rewrite delete_at_slot by done. case_decide; [|done]. by apply is_free_true_eq. }
      rewrite stored_insert_at by (try done; simpl; lia).
      change (capacity (header (delete_at k p))) with (capacity (header p)).
      rewrite stored_delete_at by done. simpl. lia.
    + by rewrite updateRecord_throw_slot.
  - destruct (live_dec p k) as [Hl|Hn].
    + rewrite deleteRecord_run by done. simpl page_after.
      rewrite stored_shrink by (by apply delete_at_core).
      change (capacity (header (delete_at k p))) with (capacity (header p)).
      rewrite stored_delete_at by done. simpl. lia.
    + by rewrite deleteRecord_throw.
Qed.

(** X15. The record region holds the records and nothing else: on every
    reachable page the lengths of the live records add up to
    [PAGE_SIZE - free_space_end]. *)
Theorem stored_bytes p :
  reachable p ->
  live_bytes (slot_directory p) (Z.to_nat (capacity (header p)))
  = PAGE_SIZE - free_space_end (header p).
Proof.
  induction 1 as [p0 Hbuf|p c Hreach IH Hok].
  - simpl. lia.
  - apply stored_call; [by apply reachable_inv|done|done].
Qed.

(** *** The links *)



End PageProperties.

(** ** The scanner *)

Section ScannerProperties.

Import HeapPageScanner.

Variable INVALID_SLOT_OFFSET : Z.
Variable INVALID_SLOT_ID : Z.

Local Abbreviation is_free := (is_free INVALID_SLOT_OFFSET).
Local Abbreviation live := (live INVALID_SLOT_OFFSET).
Local Abbreviation getNext_loop := (HeapPageScanner.getNext_loop INVALID_SLOT_OFFSET).
Local Abbreviation scanner_getNext :=
  (HeapPageScanner.getNext INVALID_SLOT_OFFSET INVALID_SLOT_ID).

(** Once a slot is found the loop is left at its next test. *)
Lemma getNext_loop_found fuel r s :
  getNext_loop fuel r true s = Some (Returns r s).
Proof. destruct s as [pg cur]. by destruct fuel. Qed.

(** At or past the end of the directory the loop does not run. *)
Lemma getNext_loop_end fuel r s :
  capacity (header (page s)) <= cur_slot s ->
  getNext_loop fuel r false s = Some (Returns r s).
Proof.
  intros Hend. destruct s as [pg cur]. simpl in *.
  destruct fuel; simpl; destruct (Z.ltb_spec cur (capacity (header pg))); (lia || done).
Qed.

(** The loop with enough fuel: it stops on the first live slot from the
    cursor on, or runs to the end of the directory. *)
Lemma getNext_loop_scan fuel r0 s :
  0 <= cur_slot s -> capacity (header (page s)) < 2 ^ 32 ->
  (Z.to_nat (capacity (header (page s)) - cur_slot s) <= fuel)%nat ->
  exists r s',
    getNext_loop fuel r0 false s = Some (Returns r s') /\
    page s' = page s /\
    ((live (page s) r /\ cur_slot s <= r /\
      (forall j, cur_slot s <= j < r -> ~ live (page s) j) /\
      cur_slot s' = r + 1)
     \/ (r = r0 /\ (forall j, cur_slot s <= j -> ~ live (page s) j) /\
         capacity (header (page s)) <= cur_slot s')).
Proof.
  revert r0 s. induction fuel as [|fuel IH]; intros r0 [pg cur] Hcur Hcap Hfuel;
    simpl in *.
  - exists r0, (mk pg cur). split.
    { destruct (Z.ltb_spec cur (capacity (header pg))); [lia|done]. }
    split; [done|]. right. split; [done|]. split; [|simpl; lia].
    intros j Hj [Hr _]. lia.
  - destruct (Z.ltb_spec cur (capacity (header pg))) as [Hlt|Hge].
    + rewrite _getSlotInfo_run by done.
      rewrite (wrap32_small (cur + 1)) by lia.
      destruct (SlotInfo.offset (slot_at pg cur) =? INVALID_SLOT_OFFSET) eqn:Hfree; simpl.
      * destruct (IH r0 (mk pg (cur + 1))) as (r & s' & Hrun & Hpage & Hres);
          [simpl; lia|done|simpl; lia|].
        exists r, s'. split; [done|]. split; [done|]. simpl in *.
        destruct Hres as [(Hl & Hr & Hskip & Hnext)|(-> & Hnone & Hend)].
        -- left. split; [done|]. split; [lia|]. split; [|done].
           intros j Hj. destruct (decide (j = cur)) as [->|Hne].
           ++ intros [_ Hl']. unfold is_free in Hl'. simpl in Hl'. congruence.
           ++ apply Hskip. lia.
        -- right. split; [done|]. split; [|done].
           intros j Hj. destruct (decide (j = cur)) as [->|Hne].
           ++ intros [_ Hl']. unfold is_free in Hl'. simpl in Hl'. congruence.
           ++ apply Hnone. lia.
      * exists cur, (mk pg (cur + 1)). split; [apply getNext_loop_found|].
        split; [done|]. left. simpl. split; [split; [lia|done]|].
        split; [lia|]. split; [intros; lia|done].
    + exists r0, (mk pg cur). split; [done|]. split; [done|].
      right. split; [done|]. split; [|simpl; lia]. intros j Hj [Hr _]. lia.
Qed.

(** C9. A scanner starts with its cursor at 0, and [reset] puts it back
    there.  Each [getNext] returns the smallest live slot id from the cursor
    on and leaves the cursor just behind it; with no live slot from the
    cursor on it returns [INVALID_SLOT_ID], and so does every later call.
    The ids of successive calls go up strictly, free slots are passed over,
    and the page is left as it was. *)
Theorem getNext_scans s :
  0 <= cur_slot s -> capacity (header (page s)) < 2 ^ 32 ->
  cur_slot (new (page s)) = 0 /\
  cur_slot (reset (page s) s) = 0 /\ page (reset (page s) s) = page s /\
  exists r s',
    (forall fuel,
       (Z.to_nat (capacity (header (page s)) - cur_slot s) <= fuel)%nat ->
       scanner_getNext fuel s = Some (Returns r s')) /\
    page s' = page s /\
    ((live (page s) r /\ cur_slot s <= r /\
      (forall j, cur_slot s <= j < r -> ~ live (page s) j) /\
      cur_slot s' = r + 1 /\
      (forall fuel r2 s2,
         (Z.to_nat (capacity (header (page s')) - cur_slot s') <= fuel)%nat ->
         scanner_getNext fuel s' = Some (Returns r2 s2) ->
         r2 = INVALID_SLOT_ID \/ r < r2))
     \/ (r = INVALID_SLOT_ID /\
         (forall j, cur_slot s <= j -> ~ live (page s) j) /\
         (forall fuel, scanner_getNext fuel s' = Some (Returns INVALID_SLOT_ID s')))).
Proof.
  intros Hcur Hcap. split; [done|]. split; [done|]. split; [done|].
  destruct (getNext_loop_scan (Z.to_nat (capacity (header (page s)) - cur_slot s))
              INVALID_SLOT_ID s Hcur Hcap ltac:(lia))
    as (r & s' & Hrun & Hpage & Hres).
  exists r, s'. split.
  { intros fuel Hfuel.
    destruct (getNext_loop_scan fuel INVALID_SLOT_ID s Hcur Hcap Hfuel)
      as (r1 & s1 & Hrun1 & Hpage1 & Hres1).
    unfold scanner_getNext, HeapPageScanner.getNext. rewrite Hrun1.
    assert (Hsame : r1 = r /\ cur_slot s1 = cur_slot s').
    { destruct Hres as [(Hl & Hr & Hskip & Hnext)|(-> & Hnone & Hend)];
        destruct Hres1 as [(Hl1 & Hr1 & Hskip1 & Hnext1)|(-> & Hnone1 & Hend1)].
      - destruct (Z.lt_trichotomy r1 r) as [Hlt|[->|Hgt]].
        + destruct (Hskip r1 ltac:(lia) Hl1).
        + split; [done|lia].
        + destruct (Hskip1 r ltac:(lia) Hl).
      - destruct (Hnone1 r Hr Hl).
      - destruct (Hnone r1 Hr1 Hl1).
      - split; [done|].
        clear -Hrun Hrun1 Hfuel Hcur Hcap.
        revert Hrun Hrun1. generalize INVALID_SLOT_ID. intros r0 Hrun Hrun1.
        assert (Hmono : forall n m r0 s a,
                  getNext_loop n r0 false s = Some a -> (n <= m)%nat ->
                  getNext_loop m r0 false s = Some a).
        { clear. induction n as [|n IH]; intros m r0 [pg cur] a Hn Hm; simpl in *.
          - destruct (Z.ltb_spec cur (capacity (header pg))); [done|].
            destruct m; simpl; destruct (Z.ltb_spec cur (capacity (header pg))); (lia || done).
          - destruct m as [|m]; [lia|]. simpl.
            destruct (Z.ltb_spec cur (capacity (header pg))); [|done].
            destruct (_getSlotInfo cur pg) as [info p'|e p']; [|done].
            destruct (negb (SlotInfo.offset info =? INVALID_SLOT_OFFSET)) eqn:Hhit.
            + rewrite getNext_loop_found in *. done.
            + apply IH; [done|lia]. }
        apply (Hmono _ fuel) in Hrun; [|done]. congruence. }
    destruct Hsame as [-> Hc]. do 2 f_equal.
    destruct s1 as [pg1 c1], s' as [pg' c']. simpl in *. congruence. }
  split; [done|].
  destruct Hres as [(Hl & Hr & Hskip & Hnext)|(-> & Hnone & Hend)].
  - left. split; [done|]. split; [done|]. split; [done|]. split; [done|].
    intros fuel r2 s2 Hfuel Hrun2.
    destruct (getNext_loop_scan fuel INVALID_SLOT_ID s'
                ltac:(lia) ltac:(by rewrite Hpage) Hfuel)
      as (r3 & s3 & Hrun3 & _ & Hres3).
    unfold scanner_getNext, HeapPageScanner.getNext in Hrun2. rewrite Hrun3 in Hrun2.
    injection Hrun2 as <- <-.
    destruct Hres3 as [(_ & Hr3 & _)|(-> & _)]; [right; lia|by left].
  - right. split; [done|]. split; [done|].
    intros fuel. apply getNext_loop_end. by rewrite Hpage.
Qed.

Local Abbreviation live_ids := (live_ids INVALID_SLOT_OFFSET).
Local Abbreviation collect :=
  (HeapPageScanner.collect INVALID_SLOT_OFFSET INVALID_SLOT_ID).

Lemma live_ids_none pg cur :
  0 <= cur -> (forall j, cur <= j -> ~ live pg j) -> live_ids pg cur = [].
Proof.
  intros Hcur Hnone. unfold live_ids.
  assert (Hall : forall j, j ∈ seqZ cur (capacity (header pg) - cur) ->
                           is_free (slot_at pg j) <> false).
  { intros j Hj%elem_of_seqZ Hf. apply (Hnone j); [lia|]. split; [lia|done]. }
  induction (seqZ cur (capacity (header pg) - cur)) as [|x l IH]; [done|].
  rewrite filter_cons_False by (apply Hall; left).
  apply IH. intros j Hj. apply Hall. by right.
Qed.

Lemma live_ids_first pg cur r :
  0 <= cur <= r -> live pg r -> (forall j, cur <= j < r -> ~ live pg j) ->
  live_ids pg cur = r :: live_ids pg (r + 1).
Proof.
  intros Hr [Hrange Hlive] Hskip. unfold live_ids.
  replace (capacity (header pg) - cur)
    with ((r - cur) + (capacity (header pg) - r)) by lia.
  rewrite seqZ_app by lia. rewrite filter_app.
  replace (cur + (r - cur)) with r by lia.
  rewrite (seqZ_cons r) by lia. rewrite filter_cons_True by done.
  replace (Z.succ r) with (r + 1) by lia.
  replace (Z.pred (capacity (header pg) - r))
    with (capacity (header pg) - (r + 1)) by lia.
  assert (Hall : forall j, j ∈ seqZ cur (r - cur) -> is_free (slot_at pg j) <> false).
  { intros j Hj%elem_of_seqZ Hf. apply (Hskip j); [lia|]. split; [lia|done]. }
  induction (seqZ cur (r - cur)) as [|x l IH]; [done|].
  rewrite filter_cons_False by (apply Hall; left).
  apply IH. intros j Hj. apply Hall. by right.
Qed.

(** X14. A sequential scan, as the callers write it (call [getNext] until it
    returns [INVALID_SLOT_ID]), ends and yields every live slot id from the
    cursor on exactly once, in ascending order, and none of the free ones.
    The directory must be shorter than [INVALID_SLOT_ID], which the scan
    reads as its end mark. *)
Theorem scan_collects calls fuel s :
  0 <= cur_slot s -> capacity (header (page s)) < 2 ^ 32 ->
  capacity (header (page s)) <= INVALID_SLOT_ID ->
  (Z.to_nat (capacity (header (page s)) - cur_slot s) <= fuel)%nat ->
  (Z.to_nat (capacity (header (page s)) - cur_slot s) < calls)%nat ->
  collect calls fuel s = Some (live_ids (page s) (cur_slot s)).
Proof.
  revert s. induction calls as [|calls IH]; intros s Hcur Hcap Hend Hfuel Hcalls; [lia|].
  destruct (getNext_loop_scan fuel INVALID_SLOT_ID s Hcur Hcap Hfuel)
    as (r & s' & Hrun & Hpage & Hres).
  simpl. unfold HeapPageScanner.getNext. rewrite Hrun.
  destruct Hres as [(Hl & Hr & Hskip & Hnext)|(-> & Hnone & _)].
  - pose proof Hl as [Hrange _].
    destruct (Z.eqb_spec r INVALID_SLOT_ID) as [->|_]; [lia|].
    rewrite (live_ids_first (page s) (cur_slot s) r) by done.
    rewrite IH; rewrite ?Hpage, ?Hnext; try lia. done.
  - rewrite Z.eqb_refl. by rewrite live_ids_none.
Qed.

End ScannerProperties.

(** ** The claims on a concrete page *)

Section ExampleFacts.

Import Example.

Local Abbreviation reachable :=
  (reachable PAGE_SIZE sizeof_HeapPageHeader INVALID_PAGE_NUM INVALID_SLOT_OFFSET).

Lemma example_header_fits : 0 <= sizeof_HeapPageHeader <= PAGE_SIZE.
Proof. unfold sizeof_HeapPageHeader, PAGE_SIZE. lia. Qed.

Lemma example_sentinel_outside : PAGE_SIZE <= INVALID_SLOT_OFFSET < 2 ^ 32.
Proof. unfold INVALID_SLOT_OFFSET, PAGE_SIZE. lia. Qed.

Lemma example_record_ok n b : Data_ok (record n b).
Proof. unfold Data_ok, getCapacity, record. simpl. rewrite length_replicate. lia. Qed.

Lemma fresh_reachable : reachable fresh.
Proof. apply reachable_init. split; reflexivity. Qed.

Lemma one_reachable : reachable one.
Proof. apply reachable_call; [apply fresh_reachable|apply example_record_ok]. Qed.

Lemma three_reachable : reachable three.
Proof.
  do 2 (apply reachable_call; [|apply example_record_ok]). apply one_reachable.
Qed.

Lemma hole_reachable : reachable hole.
Proof. apply reachable_call; [apply three_reachable|simpl; lia]. Qed.

Lemma holes_reachable : reachable holes.
Proof.
  do 2 (apply reachable_call; [|simpl; lia]).
  do 2 (apply reachable_call; [|apply example_record_ok]). apply three_reachable.
Qed.

Local Abbreviation is_free := (is_free INVALID_SLOT_OFFSET).
Local Abbreviation live := (live INVALID_SLOT_OFFSET).
Local Abbreviation delete_at := (delete_at INVALID_SLOT_OFFSET).
Local Abbreviation first_free := (first_free INVALID_SLOT_OFFSET).
Local Abbreviation no_free := (no_free INVALID_SLOT_OFFSET).
Local Abbreviation data_model_invariants :=
  (data_model_invariants PAGE_SIZE sizeof_HeapPageHeader INVALID_SLOT_OFFSET).
Local Abbreviation insertRecord := (insertRecord INVALID_SLOT_OFFSET).
Local Abbreviation getRecord := (getRecord INVALID_SLOT_OFFSET).
Local Abbreviation _deleteRecord := (_deleteRecord INVALID_SLOT_OFFSET).
Local Abbreviation deleteRecord := (deleteRecord INVALID_SLOT_OFFSET).
Local Abbreviation updateRecord := (updateRecord INVALID_SLOT_OFFSET).
Local Abbreviation call := (call INVALID_SLOT_OFFSET).
Local Abbreviation scanner_getNext :=
  (HeapPageScanner.getNext INVALID_SLOT_OFFSET INVALID_SLOT_ID).

Local Ltac evaluated := vm_compute; repeat split; (reflexivity || discriminate).

Lemma three_live_1 : live three 1.
Proof. evaluated. Qed.

(** [invariants_hold] on the page of three records and a delete of slot 1. *)
Lemma invariants_hold_witness :
  (reachable three /\ Call_ok (CallDelete 1)) /\
  data_model_invariants three /\
  data_model_invariants (call (CallDelete 1) three).
Proof.
  split; [split; [apply three_reachable|simpl; lia]|].
  apply (invariants_hold PAGE_SIZE sizeof_HeapPageHeader INVALID_PAGE_NUM INVALID_SLOT_OFFSET
           example_header_fits example_sentinel_outside three (CallDelete 1)).
  - apply three_reachable.
  - simpl. lia.
Defined.

(** [getFreeSpace_value] on the page of three records. *)
Lemma getFreeSpace_value_witness :
  reachable three /\
  let p := three in
  let raw := free_space_end (header p) - free_space_begin (header p) in
  (size (header p) < capacity (header p) -> getFreeSpace p = Return raw p) /\
  (size (header p) = capacity (header p) -> sizeof_SlotInfo <= raw ->
     getFreeSpace p = Return (raw - sizeof_SlotInfo) p) /\
  (size (header p) = capacity (header p) -> raw < sizeof_SlotInfo ->
     getFreeSpace p = Return 0 p).
Proof.
  split; [apply three_reachable|].
  apply (getFreeSpace_value PAGE_SIZE sizeof_HeapPageHeader INVALID_PAGE_NUM INVALID_SLOT_OFFSET
           example_header_fits example_sentinel_outside three).
  apply three_reachable.
Defined.

(** [insertRecord_accepts_iff] on the page of three records and a record of
    7 bytes. *)
Lemma insertRecord_accepts_iff_witness :
  let p := three in
  let d := record 7 "004"%byte in
  (reachable p /\ 0 <= getSize d) /\
  exists free,
    getFreeSpace p = Return free p /\
    ((exists slot_id p', insertRecord d p = Return slot_id p')
       <-> 1 <= getSize d /\ getSize d <= free) /\
    (getSize d = 0 -> insertRecord d p = Throw EmptyDataHeapPage p) /\
    (1 <= getSize d -> free < getSize d ->
       insertRecord d p = Throw InsufficientSpaceHeapPage p).
Proof.
  intros p d. split; [split; [apply three_reachable|simpl; lia]|].
  apply (insertRecord_accepts_iff PAGE_SIZE sizeof_HeapPageHeader INVALID_PAGE_NUM
           INVALID_SLOT_OFFSET example_header_fits example_sentinel_outside p d).
  - apply three_reachable.
  - simpl. lia.
Defined.

(** [insertRecord_effect] on the page with slot 0 free and a record of 7
    bytes. *)
Lemma insertRecord_effect_witness :
  let p := hole in
  let d := record 7 "004"%byte in
  (reachable p /\ Data_ok d /\ getFreeSpace p = Return 4013 p /\ 1 <= getSize d <= 4013) /\
  exists slot_id p',
    insertRecord d p = Return slot_id p' /\
    ((first_free p slot_id /\
      capacity (header p') = capacity (header p) /\
      free_space_begin (header p') = free_space_begin (header p))
     \/ (no_free p /\ slot_id = capacity (header p) /\
         capacity (header p') = capacity (header p) + 1 /\
         free_space_begin (header p') = free_space_begin (header p) + sizeof_SlotInfo)) /\
    free_space_end (header p') = free_space_end (header p) - getSize d /\
    take (Z.to_nat (getSize d)) (drop (Z.to_nat (free_space_end (header p'))) (data p'))
      = record_bytes d /\
    slot_at p' slot_id = SlotInfo.mk (free_space_end (header p')) (getSize d) /\
    size (header p') = size (header p) + 1.
Proof.
  intros p d.
  split; [split; [apply hole_reachable|split; [apply example_record_ok|]];
          split; [reflexivity|simpl; lia]|].
  apply (insertRecord_effect PAGE_SIZE sizeof_HeapPageHeader INVALID_PAGE_NUM
           INVALID_SLOT_OFFSET example_header_fits example_sentinel_outside p d 4013).
  - apply hole_reachable.
  - apply example_record_ok.
  - reflexivity.
  - simpl. lia.
Defined.

(** [deleteRecord_effect] on the page of three records and slot 1. *)
Lemma deleteRecord_effect_witness :
  let p := three in
  let s := 1 in
  (reachable p /\ 0 <= s) /\
  (live p s ->
   let off := SlotInfo.offset (slot_at p s) in
   let len := SlotInfo.length (slot_at p s) in
   exists p',
     deleteRecord s p = Return tt p' /\
     slot_at p' s = SlotInfo.mk INVALID_SLOT_OFFSET 0 /\
     size (header p') = size (header p) - 1 /\
     free_space_end (header p') = free_space_end (header p) + len /\
     (forall a, free_space_end (header p) <= a < off ->
        data p' !! Z.to_nat (a + len) = data p !! Z.to_nat a) /\
     (forall i, live p i -> i <> s ->
        (SlotInfo.offset (slot_at p i) < off ->
           slot_at p' i = SlotInfo.mk (SlotInfo.offset (slot_at p i) + len)
                                      (SlotInfo.length (slot_at p i))) /\
        (off < SlotInfo.offset (slot_at p i) -> slot_at p' i = slot_at p i)) /\
     capacity (header p') <= capacity (header p) /\
     free_space_begin (header p')
       = free_space_begin (header p)
         - (capacity (header p) - capacity (header p')) * sizeof_SlotInfo /\
     (forall j, capacity (header p') <= j < capacity (header p) ->
        is_free (slot_at p' j) = true) /\
     (capacity (header p') = 0 \/ live p' (capacity (header p') - 1))) /\
  (capacity (header p) <= s \/ is_free (slot_at p s) = true ->
   deleteRecord s p = Throw (InvalidSlotIdHeapPage s) p).
Proof.
  intros p s. split; [split; [apply three_reachable|lia]|].
  apply (deleteRecord_effect PAGE_SIZE sizeof_HeapPageHeader INVALID_PAGE_NUM
           INVALID_SLOT_OFFSET example_header_fits example_sentinel_outside p s).
  - apply three_reachable.
  - lia.
Defined.

(** [update_then_get] on the page of three records: slot 1 updated to 3
    bytes and read back into a buffer of 100 bytes. *)
Lemma update_then_get_witness :
  let p := three in
  let d := record 3 "009"%byte in
  let p' := page_after (updateRecord 1 d p) in
  let buf := record 100 "000"%byte in
  (reachable p /\ live p 1 /\ Data_ok d /\ updateRecord 1 d p = Return tt p' /\
   getSize d <= getCapacity buf) /\
  live p' 1 /\
  exists out,
    getRecord 1 buf p' = Return out p' /\
    getSize out = getSize d /\
    record_bytes out = record_bytes d.
Proof.
  intros p d p' buf.
  assert (Hrun : updateRecord 1 d p = Return tt p') by (vm_compute; reflexivity).
  assert (Hbuf : getSize d <= getCapacity buf) by (vm_compute; discriminate).
  split; [split; [apply three_reachable|split; [apply three_live_1|split;
          [apply example_record_ok|split; [exact Hrun|exact Hbuf]]]]|].
  apply (update_then_get PAGE_SIZE sizeof_HeapPageHeader INVALID_PAGE_NUM
           INVALID_SLOT_OFFSET example_header_fits example_sentinel_outside p 1 d p' buf).
  - apply three_reachable.
  - apply three_live_1.
  - apply example_record_ok.
  - exact Hrun.
  - exact Hbuf.
Defined.

Lemma three_below_1 : forall j, 0 <= j < 1 -> is_free (slot_at three j) = false.
Proof. intros j Hj. assert (j = 0) as -> by lia. vm_compute. reflexivity. Qed.

(** [reuse_after_delete] on the page of three records: slot 1 deleted, then
    a record of 7 bytes inserted. *)
Lemma reuse_after_delete_witness :
  let p := three in
  let d := record 7 "004"%byte in
  let p' := page_after (deleteRecord 1 p) in
  (reachable p /\ live p 1 /\ 1 < capacity (header p) - 1 /\
   (forall j, 0 <= j < 1 -> is_free (slot_at p j) = false) /\
   deleteRecord 1 p = Return tt p' /\
   getFreeSpace p' = Return 4018 p' /\ 1 <= getSize d <= 4018) /\
  exists p'', insertRecord d p' = Return 1 p''.
Proof.
  intros p d p'.
  assert (Hlast : 1 < capacity (header p) - 1) by (vm_compute; reflexivity).
  assert (Hdel : deleteRecord 1 p = Return tt p') by (vm_compute; reflexivity).
  assert (Hfree : getFreeSpace p' = Return 4018 p') by (vm_compute; reflexivity).
  assert (Hfit : 1 <= getSize d <= 4018) by (simpl; lia).
  split; [split; [apply three_reachable|split; [apply three_live_1|split;
          [exact Hlast|split; [apply three_below_1|split;
          [exact Hdel|split; [exact Hfree|exact Hfit]]]]]]|].
  apply (reuse_after_delete PAGE_SIZE sizeof_HeapPageHeader INVALID_PAGE_NUM
           INVALID_SLOT_OFFSET example_header_fits example_sentinel_outside
           p 1 d p' 4018).
  - apply three_reachable.
  - apply three_live_1.
  - exact Hlast.
  - apply three_below_1.
  - exact Hdel.
  - exact Hfree.
  - exact Hfit.
Defined.

(** C8 as stated fails when a lower slot is free already: with slot 0
    free, slot 1 of three is live and not the last entry, yet after
    [deleteRecord 1] the next [insertRecord] of a record that fits returns
    slot 0. *)
Lemma reuse_after_delete_counterexample :
  let p := hole in
  let d := record 7 "004"%byte in
  let p' := page_after (deleteRecord 1 p) in
  reachable p /\ live p 1 /\ 1 < capacity (header p) - 1 /\
  deleteRecord 1 p = Return tt p' /\
  getFreeSpace p' = Return 4028 p' /\ 1 <= getSize d <= 4028 /\
  insertRecord d p' = Return 0 (page_after (insertRecord d p')) /\
  ~ (exists p'', insertRecord d p' = Return 1 p'').
Proof.
  intros p d p'.
  assert (Hins : insertRecord d p' = Return 0 (page_after (insertRecord d p')))
    by (vm_compute; reflexivity).
  split; [apply hole_reachable|].
  split; [evaluated|]. split; [vm_compute; reflexivity|].
  split; [vm_compute; reflexivity|]. split; [vm_compute; reflexivity|].
  split; [simpl; lia|]. split; [exact Hins|].
  intros [p'' Hrun]. rewrite Hins in Hrun. discriminate.
Qed.

(** [delete_compaction_safe] on the page of three records. *)
Lemma delete_compaction_safe_witness :
  let p := three in
  reachable p /\
  (forall i, live p i ->
     free_space_end (header p) <= SlotInfo.offset (slot_at p i) /\
     SlotInfo.offset (slot_at p i) + SlotInfo.length (slot_at p i) <= PAGE_SIZE /\
     1 <= SlotInfo.length (slot_at p i)) /\
  (forall s, live p s ->
     let off := SlotInfo.offset (slot_at p s) in
     let len := SlotInfo.length (slot_at p s) in
     let fe := free_space_end (header p) in
     wrap32 (off - fe) = off - fe /\ 0 <= off - fe /\
     (free_space_begin (header p) <= fe /\
      fe + len + (off - fe) <= PAGE_SIZE /\
      Z.of_nat (Datatypes.length (data p)) = PAGE_SIZE) /\
     (wrap32 (off + len) =? fe) = false /\
     _deleteRecord s p = Return tt (delete_at s p) /\
     (off = fe ->
        data (delete_at s p) = data p /\
        free_space_end (header (delete_at s p)) = fe + len /\
        forall i, live p i -> i <> s -> slot_at (delete_at s p) i = slot_at p i)).
Proof.
  intros p. split; [apply three_reachable|].
  apply (delete_compaction_safe PAGE_SIZE sizeof_HeapPageHeader INVALID_PAGE_NUM
           INVALID_SLOT_OFFSET example_header_fits example_sentinel_outside p).
  apply three_reachable.
Defined.

(** C6. The code refuses an update that the claim accepts.  On the page
    with one record of 10 bytes the directory is full ([size = capacity = 1]),
    so [getFreeSpace] holds back [sizeof(SlotInfo)] for a directory entry that
    an update does not need: an update to 4060 bytes fits
    ([free_space_end - free_space_begin + 10 = 4064]) and is refused with
    [InsufficientSpaceHeapPage]. *)
Theorem updateRecord_refuses_fitting_record :
  let p := one in
  let d := record 4060 "002"%byte in
  reachable p /\ live p 0 /\ Data_ok d /\
  raw_free p + SlotInfo.length (slot_at p 0) = 4064 /\ getSize d = 4060 /\
  ~ (raw_free p + SlotInfo.length (slot_at p 0) < getSize d) /\
  updateRecord 0 d p = Throw InsufficientSpaceHeapPage p.
Proof.
  intros p d.
  assert (Hraw : raw_free p + SlotInfo.length (slot_at p 0) = 4064) by (vm_compute; reflexivity).
  assert (Hd : getSize d = 4060) by (vm_compute; reflexivity).
  split; [apply one_reachable|]. split; [evaluated|].
  split; [apply example_record_ok|]. split; [exact Hraw|]. split; [exact Hd|].
  split; [rewrite Hraw, Hd; lia|]. vm_compute. reflexivity.
Qed.

(** [getNext_scans] on a scanner new on the page with slots 1 and 3 free. *)
Lemma getNext_scans_witness :
  let s := HeapPageScanner.new holes in
  (0 <= HeapPageScanner.cur_slot s /\
   capacity (header (HeapPageScanner.page s)) < 2 ^ 32) /\
  HeapPageScanner.cur_slot (HeapPageScanner.new (HeapPageScanner.page s)) = 0 /\
  HeapPageScanner.cur_slot (HeapPageScanner.reset (HeapPageScanner.page s) s) = 0 /\
  HeapPageScanner.page (HeapPageScanner.reset (HeapPageScanner.page s) s)
    = HeapPageScanner.page s /\
  exists r s',
    (forall fuel,
       (Z.to_nat (capacity (header (HeapPageScanner.page s)) - HeapPageScanner.cur_slot s)
        <= fuel)%nat ->
       scanner_getNext fuel s = Some (HeapPageScanner.Returns r s')) /\
    HeapPageScanner.page s' = HeapPageScanner.page s /\
    ((live (HeapPageScanner.page s) r /\ HeapPageScanner.cur_slot s <= r /\
      (forall j, HeapPageScanner.cur_slot s <= j < r -> ~ live (HeapPageScanner.page s) j) /\
      HeapPageScanner.cur_slot s' = r + 1 /\
      (forall fuel r2 s2,
         (Z.to_nat (capacity (header (HeapPageScanner.page s')) - HeapPageScanner.cur_slot s')
          <= fuel)%nat ->
         scanner_getNext fuel s' = Some (HeapPageScanner.Returns r2 s2) ->
         r2 = INVALID_SLOT_ID \/ r < r2))
     \/ (r = INVALID_SLOT_ID /\
         (forall j, HeapPageScanner.cur_slot s <= j -> ~ live (HeapPageScanner.page s) j) /\
         (forall fuel,
            scanner_getNext fuel s' = Some (HeapPageScanner.Returns INVALID_SLOT_ID s')))).
Proof.
  intros s.
  assert (Hcur : 0 <= HeapPageScanner.cur_slot s) by (simpl; lia).
  assert (Hcap : capacity (header (HeapPageScanner.page s)) < 2 ^ 32)
    by (vm_compute; reflexivity).
  split; [split; [exact Hcur|exact Hcap]|].
  apply (getNext_scans INVALID_SLOT_OFFSET INVALID_SLOT_ID s Hcur Hcap).
Defined.

(** *** The further properties on concrete pages *)

Local Abbreviation live_count := (live_count INVALID_SLOT_OFFSET).
Local Abbreviation live_bytes := (live_bytes INVALID_SLOT_OFFSET).
Local Abbreviation live_ids := (live_ids INVALID_SLOT_OFFSET).
Local Abbreviation getInvalidNum := (getInvalidNum INVALID_SLOT_OFFSET).
Local Abbreviation Page_buffer := (Page_buffer PAGE_SIZE sizeof_HeapPageHeader).
Local Abbreviation initializeHeader :=
  (initializeHeader PAGE_SIZE sizeof_HeapPageHeader INVALID_PAGE_NUM).
Local Abbreviation collect :=
  (HeapPageScanner.collect INVALID_SLOT_OFFSET INVALID_SLOT_ID).

(** [insert_then_get] on the page with slot 0 free: a record of 7 bytes
    inserted and read back into a buffer of 100 bytes. *)
Lemma insert_then_get_witness :
  let p := hole in
  let d := record 7 "004"%byte in
  let p' := page_after (insertRecord d p) in
  let buf := record 100 "000"%byte in
  (reachable p /\ Data_ok d /\ insertRecord d p = Return 0 p' /\
   getSize d <= getCapacity buf) /\
  exists out,
    getRecord 0 buf p' = Return out p' /\
    getSize out = getSize d /\ record_bytes out = record_bytes d.
Proof.
  intros p d p' buf.
  assert (Hrun : insertRecord d p = Return 0 p') by (vm_compute; reflexivity).
  assert (Hbuf : getSize d <= getCapacity buf) by (vm_compute; discriminate).
  split; [split; [apply hole_reachable|split; [apply example_record_ok|split;
          [exact Hrun|exact Hbuf]]]|].
  apply (insert_then_get PAGE_SIZE sizeof_HeapPageHeader INVALID_PAGE_NUM
           INVALID_SLOT_OFFSET example_header_fits example_sentinel_outside p d 0 p' buf).
  - apply hole_reachable.
  - apply example_record_ok.
  - exact Hrun.
  - exact Hbuf.
Defined.

(** [insert_keeps_records] on the page with slot 0 free and a record of 7
    bytes. *)
Lemma insert_keeps_records_witness :
  let p := hole in
  let d := record 7 "004"%byte in
  let p' := page_after (insertRecord d p) in
  (reachable p /\ 0 <= getSize d /\ insertRecord d p = Return 0 p') /\
  ~ live p 0 /\ live p' 0 /\
  forall i, live p i ->
    live p' i /\ slot_at p' i = slot_at p i /\
    forall buf, getRecord i buf p' = on_page (getRecord i buf p) p'.
Proof.
  intros p d p'.
  assert (Hrun : insertRecord d p = Return 0 p') by (vm_compute; reflexivity).
  split; [split; [apply hole_reachable|split; [simpl; lia|exact Hrun]]|].
  apply (insert_keeps_records PAGE_SIZE sizeof_HeapPageHeader INVALID_PAGE_NUM
           INVALID_SLOT_OFFSET example_header_fits example_sentinel_outside p d 0 p').
  - apply hole_reachable.
  - simpl. lia.
  - exact Hrun.
Defined.

(** [delete_keeps_records] on the page of three records: slot 1 deleted,
    slot 2 looked at. *)
Lemma delete_keeps_records_witness :
  let p := three in
  let p' := page_after (deleteRecord 1 p) in
  (reachable p /\ 0 <= 1 /\ deleteRecord 1 p = Return tt p' /\ live p 2 /\ 2 <> 1) /\
  live p' 2 /\
  SlotInfo.length (slot_at p' 2) = SlotInfo.length (slot_at p 2) /\
  forall buf, getRecord 2 buf p' = on_page (getRecord 2 buf p) p'.
Proof.
  intros p p'.
  assert (Hrun : deleteRecord 1 p = Return tt p') by (vm_compute; reflexivity).
  assert (Hlive : live p 2) by evaluated.
  split; [split; [apply three_reachable|split; [lia|split; [exact Hrun|split;
          [exact Hlive|lia]]]]|].
  apply (delete_keeps_records PAGE_SIZE sizeof_HeapPageHeader INVALID_PAGE_NUM
           INVALID_SLOT_OFFSET example_header_fits example_sentinel_outside p 1 p').
  - apply three_reachable.
  - lia.
  - exact Hrun.
  - exact Hlive.
  - lia.
Defined.

(** [update_keeps_records] on the page of three records: slot 1 updated to
    3 bytes, slot 2 looked at. *)
Lemma update_keeps_records_witness :
  let p := three in
  let d := record 3 "009"%byte in
  let p' := page_after (updateRecord 1 d p) in
  (reachable p /\ 0 <= 1 /\ 0 <= getSize d /\ updateRecord 1 d p = Return tt p' /\
   live p 2 /\ 2 <> 1) /\
  live p' 2 /\
  SlotInfo.length (slot_at p' 2) = SlotInfo.length (slot_at p 2) /\
  forall buf, getRecord 2 buf p' = on_page (getRecord 2 buf p) p'.
Proof.
  intros p d p'.
  assert (Hrun : updateRecord 1 d p = Return tt p') by (vm_compute; reflexivity).
  assert (Hlive : live p 2) by evaluated.
  split; [split; [apply three_reachable|split; [lia|split; [simpl; lia|split;
          [exact Hrun|split; [exact Hlive|lia]]]]]|].
  apply (update_keeps_records PAGE_SIZE sizeof_HeapPageHeader INVALID_PAGE_NUM
           INVALID_SLOT_OFFSET example_header_fits example_sentinel_outside p 1 d p').
  - apply three_reachable.
  - lia.
  - simpl. lia.
  - exact Hrun.
  - exact Hlive.
  - lia.
Defined.

(** [delete_invalidates] on the page of three records and slot 1. *)
Lemma delete_invalidates_witness :
  let p := three in
  let p' := page_after (deleteRecord 1 p) in
  (reachable p /\ 0 <= 1 /\ deleteRecord 1 p = Return tt p') /\
  (forall buf, getRecord 1 buf p' = Throw (InvalidSlotIdHeapPage 1) p') /\
  (forall d, updateRecord 1 d p' = Throw (InvalidSlotIdHeapPage 1) p') /\
  deleteRecord 1 p' = Throw (InvalidSlotIdHeapPage 1) p'.
Proof.
  intros p p'.
  assert (Hrun : deleteRecord 1 p = Return tt p') by (vm_compute; reflexivity).
  split; [split; [apply three_reachable|split; [lia|exact Hrun]]|].
  apply (delete_invalidates PAGE_SIZE sizeof_HeapPageHeader INVALID_PAGE_NUM
           INVALID_SLOT_OFFSET example_header_fits example_sentinel_outside p 1 p').
  - apply three_reachable.
  - lia.
  - exact Hrun.
Defined.

(** [getRecord_outcome] on the page of three records, slot 1 and a buffer
    of 100 bytes. *)
Lemma getRecord_outcome_witness :
  let p := three in
  let buf := record 100 "000"%byte in
  0 <= 1 /\
  page_after (getRecord 1 buf p) = p /\
  (~ live p 1 -> getRecord 1 buf p = Throw (InvalidSlotIdHeapPage 1) p) /\
  (live p 1 -> getCapacity buf < SlotInfo.length (slot_at p 1) ->
     getRecord 1 buf p = Throw InvalidSizeData p) /\
  (live p 1 -> SlotInfo.length (slot_at p 1) <= getCapacity buf ->
     exists out,
       getRecord 1 buf p = Return out p /\
       getSize out = SlotInfo.length (slot_at p 1) /\
       getCapacity out = getCapacity buf /\
       drop (Z.to_nat (SlotInfo.length (slot_at p 1))) (getData out)
       = drop (Z.to_nat (SlotInfo.length (slot_at p 1))) (getData buf)).
Proof.
  intros p buf. split; [lia|].
  apply (getRecord_outcome INVALID_SLOT_OFFSET p 1 buf). lia.
Defined.

(** [failures_leave_page] on the page of three records. *)
Lemma failures_leave_page_witness :
  let p := three in
  reachable p /\
  (forall d e p', 0 <= getSize d -> insertRecord d p = Throw e p' ->
     p' = p /\ (e = EmptyDataHeapPage \/ e = InsufficientSpaceHeapPage)) /\
  (forall k e p', 0 <= k -> deleteRecord k p = Throw e p' ->
     p' = p /\ e = InvalidSlotIdHeapPage k) /\
  (forall k d e p', 0 <= k -> 0 <= getSize d -> updateRecord k d p = Throw e p' ->
     p' = p /\ (e = InvalidSlotIdHeapPage k \/ e = EmptyDataHeapPage
                \/ e = InsufficientSpaceHeapPage)) /\
  (forall k buf e p', 0 <= k -> getRecord k buf p = Throw e p' ->
     p' = p /\ (e = InvalidSlotIdHeapPage k \/ e = InvalidSizeData)).
Proof.
  intros p. split; [apply three_reachable|].
  apply (failures_leave_page PAGE_SIZE sizeof_HeapPageHeader INVALID_PAGE_NUM
           INVALID_SLOT_OFFSET example_header_fits example_sentinel_outside p).
  apply three_reachable.
Defined.

(** [page_counters] on the page with slots 1 and 3 free. *)
Lemma page_counters_witness :
  let p := holes in
  reachable p /\
  getNumRecs p
    = Return (live_count (slot_directory p) (Z.to_nat (capacity (header p)))) p /\
  getInvalidNum p
    = Return (capacity (header p)
              - live_count (slot_directory p) (Z.to_nat (capacity (header p)))) p /\
  ((isEmpty p = Return true p /\ forall i, ~ live p i)
   \/ (isEmpty p = Return false p /\ exists i, live p i)) /\
  ((isFull p = Return true p /\ 0 < capacity (header p) /\ no_free p)
   \/ (isFull p = Return false p /\
       (capacity (header p) = 0 \/ exists k, first_free p k))).
Proof.
  intros p. split; [apply holes_reachable|].
  apply (page_counters PAGE_SIZE sizeof_HeapPageHeader INVALID_PAGE_NUM
           INVALID_SLOT_OFFSET example_header_fits example_sentinel_outside p).
  apply holes_reachable.
Defined.

(** [delete_frees_space] on the page of three records and slot 1. *)
Lemma delete_frees_space_witness :
  let p := three in
  let p' := page_after (deleteRecord 1 p) in
  (reachable p /\ 0 <= 1 /\ deleteRecord 1 p = Return tt p') /\
  exists free free',
    getFreeSpace p = Return free p /\
    getFreeSpace p' = Return free' p' /\
    free + SlotInfo.length (slot_at p 1) <= free'.
Proof.
  intros p p'.
  assert (Hrun : deleteRecord 1 p = Return tt p') by (vm_compute; reflexivity).
  split; [split; [apply three_reachable|split; [lia|exact Hrun]]|].
  apply (delete_frees_space PAGE_SIZE sizeof_HeapPageHeader INVALID_PAGE_NUM
           INVALID_SLOT_OFFSET example_header_fits example_sentinel_outside p 1 p').
  - apply three_reachable.
  - lia.
  - exact Hrun.
Defined.

(** [insert_then_delete] on the page with slot 0 free and a record of 7
    bytes. *)
Lemma insert_then_delete_witness :
  let p := hole in
  let d := record 7 "004"%byte in
  let p' := page_after (insertRecord d p) in
  (reachable p /\ 0 <= getSize d /\ insertRecord d p = Return 0 p') /\
  exists p'',
    deleteRecord 0 p' = Return tt p'' /\
    header p'' = header p /\
    (forall i, live p'' i <-> live p i) /\
    forall i, live p i ->
      slot_at p'' i = slot_at p i /\
      forall buf, getRecord i buf p'' = on_page (getRecord i buf p) p''.
Proof.
  intros p d p'.
  assert (Hrun : insertRecord d p = Return 0 p') by (vm_compute; reflexivity).
  split; [split; [apply hole_reachable|split; [simpl; lia|exact Hrun]]|].
  apply (insert_then_delete PAGE_SIZE sizeof_HeapPageHeader INVALID_PAGE_NUM
           INVALID_SLOT_OFFSET example_header_fits example_sentinel_outside p d 0 p').
  - apply hole_reachable.
  - simpl. lia.
  - exact Hrun.
Defined.

(** [fresh_page] on the buffer of the examples and a record of 7 bytes. *)
Lemma fresh_page_witness :
  let d := record 7 "004"%byte in
  (Page_buffer buffer /\ 0 <= getSize d) /\
  let p := page_after (initializeHeader buffer) in
  isEmpty p = Return true p /\
  (forall k buf, 0 <= k -> getRecord k buf p = Throw (InvalidSlotIdHeapPage k) p) /\
  ((exists slot_id p', insertRecord d p = Return slot_id p')
     <-> 1 <= getSize d <= PAGE_SIZE - sizeof_HeapPageHeader - sizeof_SlotInfo) /\
  (forall slot_id p', insertRecord d p = Return slot_id p' -> slot_id = 0).
Proof.
  intros d.
  assert (Hbuf : Page_buffer buffer) by (split; reflexivity).
  split; [split; [exact Hbuf|simpl; lia]|].
  apply (fresh_page PAGE_SIZE sizeof_HeapPageHeader INVALID_PAGE_NUM
           INVALID_SLOT_OFFSET example_header_fits example_sentinel_outside buffer d).
  - exact Hbuf.
  - simpl. lia.
Defined.

(** [record_calls_keep_links] on the page of three records and a delete of
    slot 1. *)
Lemma record_calls_keep_links_witness :
  let p := three in
  let c := CallDelete 1 in
  (reachable p /\ Call_ok c /\
   (forall n, c <> CallSetPrev n) /\ (forall n, c <> CallSetNext n)) /\
  getPrev (call c p) = on_page (getPrev p) (call c p) /\
  getNext (call c p) = on_page (getNext p) (call c p).
Proof.
  intros p c.
  assert (Hok : Call_ok c) by (simpl; lia).
  assert (Hnp : forall n, c <> CallSetPrev n) by (intros n; discriminate).
  assert (Hnn : forall n, c <> CallSetNext n) by (intros n; discriminate).
  split; [split; [apply three_reachable|split; [exact Hok|split; [exact Hnp|exact Hnn]]]|].
  apply (record_calls_keep_links PAGE_SIZE sizeof_HeapPageHeader INVALID_PAGE_NUM
           INVALID_SLOT_OFFSET example_header_fits example_sentinel_outside p c).
  - apply three_reachable.
  - exact Hok.
  - exact Hnp.
  - exact Hnn.
Defined.

(** [update_shrink_succeeds] on the page of three records: slot 1, of 15
    bytes, updated to 3 bytes. *)
Lemma update_shrink_succeeds_witness :
  let p := three in
  let d := record 3 "009"%byte in
  (reachable p /\ live p 1 /\ 1 <= getSize d <= SlotInfo.length (slot_at p 1)) /\
  exists p',
    updateRecord 1 d p = Return tt p' /\
    size (header p') = size (header p) /\
    capacity (header p') = capacity (header p) /\
    free_space_begin (header p') = free_space_begin (header p) /\
    free_space_end (header p')
      = free_space_end (header p) + SlotInfo.length (slot_at p 1) - getSize d /\
    slot_at p' 1 = SlotInfo.mk (free_space_end (header p')) (getSize d).
Proof.
  intros p d.
  assert (Hfit : 1 <= getSize d <= SlotInfo.length (slot_at p 1))
    by (vm_compute; split; discriminate).
  split; [split; [apply three_reachable|split; [apply three_live_1|exact Hfit]]|].
  apply (update_shrink_succeeds PAGE_SIZE sizeof_HeapPageHeader INVALID_PAGE_NUM
           INVALID_SLOT_OFFSET example_header_fits example_sentinel_outside p 1 d).
  - apply three_reachable.
  - apply three_live_1.
  - exact Hfit.
Defined.

(** [stored_bytes] on the page of three records. *)
Lemma stored_bytes_witness :
  let p := three in
  reachable p /\
  live_bytes (slot_directory p) (Z.to_nat (capacity (header p)))
  = PAGE_SIZE - free_space_end (header p).
Proof.
  intros p. split; [apply three_reachable|].
  apply (stored_bytes PAGE_SIZE sizeof_HeapPageHeader INVALID_PAGE_NUM
           INVALID_SLOT_OFFSET example_header_fits example_sentinel_outside p).
  apply three_reachable.
Defined.

(** [scan_collects] on a scanner new on the page with slots 1 and 3 free,
    with six calls of five iterations each. *)
Lemma scan_collects_witness :
  let s := HeapPageScanner.new holes in
  (0 <= HeapPageScanner.cur_slot s /\
   capacity (header (HeapPageScanner.page s)) < 2 ^ 32 /\
   capacity (header (HeapPageScanner.page s)) <= INVALID_SLOT_ID /\
   (Z.to_nat (capacity (header (HeapPageScanner.page s)) - HeapPageScanner.cur_slot s)
    <= 5)%nat /\
   (Z.to_nat (capacity (header (HeapPageScanner.page s)) - HeapPageScanner.cur_slot s)
    < 6)%nat) /\
  collect 6 5 s
  = Some (live_ids (HeapPageScanner.page s) (HeapPageScanner.cur_slot s)).
Proof.
  intros s.
  assert (Hcur : 0 <= HeapPageScanner.cur_slot s) by (simpl; lia).
  assert (Hcap : capacity (header (HeapPageScanner.page s)) < 2 ^ 32)
    by (vm_compute; reflexivity).
  assert (Hend : capacity (header (HeapPageScanner.page s)) <= INVALID_SLOT_ID)
    by (vm_compute; discriminate).
  assert (Hfuel : (Z.to_nat (capacity (header (HeapPageScanner.page s))
                             - HeapPageScanner.cur_slot s) <= 5)%nat)
    by (vm_compute; lia).
  assert (Hcalls : (Z.to_nat (capacity (header (HeapPageScanner.page s))
                              - HeapPageScanner.cur_slot s) < 6)%nat)
    by (vm_compute; lia).
  split; [split; [exact Hcur|split; [exact Hcap|split; [exact Hend|split;
          [exact Hfuel|exact Hcalls]]]]|].
  apply (scan_collects INVALID_SLOT_OFFSET INVALID_SLOT_ID 6 5 s).
  - exact Hcur.
  - exact Hcap.
  - exact Hend.
  - exact Hfuel.
  - exact Hcalls.
Defined.

End ExampleFacts.
